(** * Real-time synchronisation engine of the point-of-sale client

    A shallow embedding of
    - [lib/offlineStorage] : the IndexedDB-backed sync queue ([OfflineStorage]),
      the caches and [init()] ([OfflineCache]) and the queue drain
      ([BackgroundSync.processSyncQueue]);
    - [hooks/useOfflineSync.ts] : the caching effects and [loadCachedData];
    - [lib/websocketSync.ts] : the push channel client and its handler
      registry ([WebSocketSync]);
    - [components/DataProvider.tsx] : the change-notification handlers and
      [loadDataFromBackend];
    - [pages/Counter.tsx] : [useBackendSync.connectToBackend] and the cart of
      the counter.

    Asynchronous code is modelled by explicit state passing: every [await]
    is a point where a task is suspended, and the event loop is a list of
    labels (calls, promise settlements, socket events, timers) folded over
    the state.  Observable effects (network requests, console output, timers,
    emitted events) are appended to a chronological trace. *)

From Stdlib Require Import List String Ascii ZArith NArith Bool Arith Lia.
From Stdlib Require Import DecimalString Sorted Permutation.
From Stdlib Require Decimal DecimalPos DecimalN.
Import ListNotations.

#[local] Open Scope string_scope.
#[local] Open Scope nat_scope.
#[local] Open Scope list_scope.

(** ** JSON values: payloads of queued mutations and of push messages *)

#[local] Set Warnings "-register-all".

Inductive json : Type :=
| JNull
| JBool (b : bool)
| JNum (z : Z)
| JStr (s : string)
| JArr (elems : list json)
| JObj (fields : list (string * json)).

(** Property lookup [o.k] on a parsed value: [None] is [undefined]. *)
Fixpoint assoc (k : string) (fields : list (string * json)) : option json :=
  match fields with
  | [] => None
  | (k', v) :: rest => if String.eqb k k' then Some v else assoc k rest
  end.

(** ** Decimal numerals, as template literals print numbers *)

Module Numeral.

(** [`${n}`] for a natural number [n]. *)
Definition decimal (n : N) : string := NilEmpty.string_of_uint (N.to_uint n).

Definition digits (d : Decimal.uint) : string := NilEmpty.string_of_uint d.

(** The number a numeral denotes, its number of digits and its first digit. *)
Definition value (d : Decimal.uint) : N := DecimalPos.Unsigned.of_lu (Decimal.rev d).
Definition width (d : Decimal.uint) : N := DecimalPos.Unsigned.usize d.
Definition leading (d : Decimal.uint) : N := DecimalPos.Unsigned.hd d.

End Numeral.

(** ** offlineStorage: the [syncQueue] object store *)

Module OfflineStorage.

Inductive ItemType : Type := order | waiterCall.

(** [interface SyncQueueItem] *)
Record SyncQueueItem : Type := mkItem {
  id : string;
  type : ItemType;
  data : json;
  timestamp : N;
  retries : nat
}.

(** [Partial<SyncQueueItem>] *)
Record PartialItem : Type := mkPartial {
  p_id : option string;
  p_type : option ItemType;
  p_data : option json;
  p_timestamp : option N;
  p_retries : option nat
}.

Definition only_retries (n : nat) : PartialItem :=
  mkPartial None None None None (Some n).

(** [{ ...item, ...updates }] *)
Definition spread (item : SyncQueueItem) (updates : PartialItem) : SyncQueueItem :=
  mkItem (match p_id updates with Some v => v | None => id item end)
         (match p_type updates with Some v => v | None => type item end)
         (match p_data updates with Some v => v | None => data item end)
         (match p_timestamp updates with Some v => v | None => timestamp item end)
         (match p_retries updates with Some v => v | None => retries item end).

(** The object store is created with [{ keyPath: 'id' }]: it holds at most one
    record per key and keeps its records in ascending key order; string keys
    are compared code unit by code unit. *)
Definition Store : Type := list SyncQueueItem.

Definition key_lt (x y : SyncQueueItem) : Prop :=
  String.compare (id x) (id y) = Lt.

(** [store.put(record)] *)
Fixpoint put (x : SyncQueueItem) (db : Store) : Store :=
  match db with
  | [] => [x]
  | y :: rest =>
      match String.compare (id x) (id y) with
      | Lt => x :: y :: rest
      | Eq => x :: rest
      | Gt => y :: put x rest
      end
  end.

(** [store.get(key)] *)
Definition get (k : string) (db : Store) : option SyncQueueItem :=
  find (fun y => String.eqb k (id y)) db.

(** [store.delete(key)] *)
Definition delete (k : string) (db : Store) : Store :=
  filter (fun y => negb (String.eqb k (id y))) db.

(** [`${Date.now()}-${Math.random().toString(36).substr(2, 9)}`]: [now] is
    the clock reading and [rnd] the base-36 suffix drawn for this call. *)
Definition make_id (now : N) (rnd : string) : string :=
  (Numeral.decimal now ++ "-" ++ rnd)%string.

(** [addToSyncQueue(item)]: the new store and the identifier it resolves to. *)
Definition addToSyncQueue (now : N) (rnd : string) (ty : ItemType) (d : json)
    (db : Store) : Store * string :=
  let i := make_id now rnd in
  (put (mkItem i ty d now 0) db, i).

(** [getSyncQueue()]: [store.getAll()], every record in key order. *)
Definition getSyncQueue (db : Store) : list SyncQueueItem := db.

(** [removeFromSyncQueue(id)] *)
Definition removeFromSyncQueue (k : string) (db : Store) : Store := delete k db.

(** [updateSyncQueueItem(id, updates)] *)
Definition updateSyncQueueItem (k : string) (updates : PartialItem) (db : Store) : Store :=
  match get k db with
  | Some item => put (spread item updates) db
  | None => db
  end.

(** The records of a store are in strictly ascending key order. *)
Definition sorted (db : Store) : Prop := StronglySorted key_lt db.

End OfflineStorage.

(** ** lib/offlineStorage: the caches, and the hook that fills them *)

Module OfflineCache.
Import OfflineStorage.

(** An object store with a key path: at most one record per key, records in
    ascending key order. *)
Section Keyed.
Variable R : Type.
Variable key : R -> string.

(** [store.put(record)] *)
Fixpoint kput (x : R) (s : list R) : list R :=
  match s with
  | [] => [x]
  | y :: rest =>
      match String.compare (key x) (key y) with
      | Lt => x :: y :: rest
      | Eq => x :: rest
      | Gt => y :: kput x rest
      end
  end.

(** [store.get(key)] *)
Definition kget (k : string) (s : list R) : option R :=
  find (fun y => String.eqb k (key y)) s.

(** [store.clear()] *)
Definition kclear (s : list R) : list R := [].

(** [store.clear(); for (const item of items) store.put(item)] *)
Definition cache_all (items : list R) (s : list R) : list R :=
  fold_left (fun acc x => kput x acc) items (kclear s).

Definition ksorted (s : list R) : Prop :=
  StronglySorted (fun x y => String.compare (key x) (key y) = Lt) s.

(** The last of [items] with key [k]. *)
Definition newest (k : string) (items : list R) : option R :=
  find (fun y => String.eqb k (key y)) (rev items).
End Keyed.

Arguments kput {R} key x s.
Arguments kget {R} key k s.
Arguments kclear {R} s.
Arguments cache_all {R} key items s.
Arguments ksorted {R} key s.
Arguments newest {R} key k items.

(** A cached object; [c_key] is the string at the key path of its store
    ([id] for menu items and categories, [url] for images) and [c_value] the
    object. *)
Record Cached : Type := mkCached {
  c_key : string;
  c_value : json
}.

(** [{ key, value, updatedAt }] *)
Record Setting : Type := mkSetting {
  s_key : string;
  s_value : json;
  updatedAt : N
}.

(** The object stores [onupgradeneeded] creates. *)
Record DB : Type := mkDB {
  menuItems : list Cached;
  categories : list Cached;
  settings : list Setting;
  imageCache : list Cached;
  syncQueue : Store
}.

(** [cacheMenuItems(items)] *)
Definition cacheMenuItems (items : list Cached) (d : DB) : DB :=
  mkDB (cache_all c_key items (menuItems d)) (categories d) (settings d)
       (imageCache d) (syncQueue d).

(** [getMenuItems()] *)
Definition getMenuItems (d : DB) : list Cached := menuItems d.

(** [cacheCategories(categories)] *)
Definition cacheCategories (cats : list Cached) (d : DB) : DB :=
  mkDB (menuItems d) (cache_all c_key cats (categories d)) (settings d)
       (imageCache d) (syncQueue d).

(** [getCategories()] *)
Definition getCategories (d : DB) : list Cached := categories d.

(** [cacheSetting(key, value)] at clock reading [now] *)
Definition cacheSetting (now : N) (k : string) (v : json) (d : DB) : DB :=
  mkDB (menuItems d) (categories d) (kput s_key (mkSetting k v now) (settings d))
       (imageCache d) (syncQueue d).

(** [getSetting(key)]: [request.result?.value ?? null] *)
Definition getSetting (k : string) (d : DB) : json :=
  match kget s_key k (settings d) with
  | Some r => s_value r
  | None => JNull
  end.

(** [hasCachedData()] *)
Definition hasCachedData (d : DB) : bool := 0 <? List.length (getMenuItems d).

(** [clearAll()] *)
Definition clearAll (d : DB) : DB :=
  mkDB (kclear (menuItems d)) (kclear (categories d)) (kclear (settings d))
       (kclear (imageCache d)) (syncQueue d).

(** *** hooks/useOfflineSync.ts

    The three caching effects, each run when its dependency changes, and a
    call of [clearAll()].  Every operation awaits the same [init()] promise
    before it opens its transaction, so the operations take effect in the
    order of the calls. *)
Inductive Op : Type :=
| MenuEffect (items : list Cached)
| CategoriesEffect (cats : list Cached)
| SettingsEffect (now : N) (s : option json)
| ClearAll.

Definition apply_op (op : Op) (d : DB) : DB :=
  match op with
  | MenuEffect items =>
      if 0 <? List.length items then cacheMenuItems items d else d
  | CategoriesEffect cats =>
      if 0 <? List.length cats then cacheCategories cats d else d
  | SettingsEffect now s =>
      match s with
      | Some v => cacheSetting now "appSettings" v d
      | None => d
      end
  | ClearAll => clearAll d
  end.

Definition run (ops : list Op) (d : DB) : DB :=
  fold_left (fun d op => apply_op op d) ops d.

(** [loadCachedData()] *)
Definition loadCachedData (d : DB) : list Cached * list Cached * json :=
  (getMenuItems d, getCategories d, getSetting "appSettings" d).

Definition is_clear (op : Op) : bool :=
  match op with ClearAll => true | _ => false end.

(** The last menu, the last categories and the last settings the effects
    passed on to the cache. *)
Fixpoint last_menu (ops : list Op) : option (list Cached) :=
  match ops with
  | [] => None
  | op :: rest =>
      match last_menu rest with
      | Some m => Some m
      | None => match op with
                | MenuEffect (x :: l) => Some (x :: l)
                | _ => None
                end
      end
  end.

Fixpoint last_categories (ops : list Op) : option (list Cached) :=
  match ops with
  | [] => None
  | op :: rest =>
      match last_categories rest with
      | Some m => Some m
      | None => match op with
                | CategoriesEffect (x :: l) => Some (x :: l)
                | _ => None
                end
      end
  end.

Fixpoint last_settings (ops : list Op) : option json :=
  match ops with
  | [] => None
  | op :: rest =>
      match last_settings rest with
      | Some v => Some v
      | None => match op with
                | SettingsEffect _ (Some v) => Some v
                | _ => None
                end
      end
  end.

(** *** [init()]

    [opened] stands for [this.db], [initPromise] for the field of that name,
    and [opens] counts the calls of [indexedDB.open]. *)
Inductive PromiseState : Type := Pending | Fulfilled | Failed.

Record Handle : Type := mkHandle {
  opened : bool;
  initPromise : option PromiseState;
  opens : nat
}.

Definition closed : Handle := mkHandle false None 0.

(** [CallInit]: [init()] is called, by [getStore] or by [clearAll];
    [OpenSuccess] and [OpenError]: the open request fires [onsuccess] or
    [onerror]. *)
Inductive InitLabel : Type :=
| CallInit
| OpenSuccess
| OpenError.

Definition init_step (l : InitLabel) (h : Handle) : Handle :=
  match l with
  | CallInit =>
      if opened h then h
      else match initPromise h with
           | Some _ => h
           | None => mkHandle false (Some Pending) (S (opens h))
           end
  | OpenSuccess =>
      match initPromise h with
      | Some Pending => mkHandle true (Some Fulfilled) (opens h)
      | _ => h
      end
  | OpenError =>
      match initPromise h with
      | Some Pending => mkHandle (opened h) (Some Failed) (opens h)
      | _ => h
      end
  end.

Definition init_run (ls : list InitLabel) (h : Handle) : Handle :=
  fold_left (fun h l => init_step l h) ls h.

(** The state of the promise a call of [init()] returns. *)
Definition init_result (h : Handle) : PromiseState :=
  if opened h then Fulfilled
  else match initPromise (init_step CallInit h) with
       | Some p => p
       | None => Pending
       end.

End OfflineCache.

(** ** BackgroundSync: draining the sync queue

    The requests to the object store are taken to succeed, and the payload of
    a queued mutation is a JSON value, so that [JSON.stringify(item.data)]
    does not throw: the only exceptions in the loop body are a rejected
    [fetch] and the [throw] of the order branch. *)

Module BackgroundSync.
Import OfflineStorage.

(** What [await fetch(...)] settles to: a rejection, or a response with a
    status code. *)
Inductive Response : Type :=
| NetworkError
| Http (status : Z).

(** [response.ok] *)
Definition ok (status : Z) : bool := (200 <=? status)%Z && (status <=? 299)%Z.

(** Observable effects of a drain; [tid] names the call of
    [processSyncQueue] that performed the effect. *)
Inductive Event : Type :=
| ReadQueue (tid : nat)
| Fetch (tid : nat) (url : string) (item : SyncQueueItem)
| LogSynced (k : string)
| LogFailed (k : string)
| LogRemoved (k : string).

Record Global : Type := mkGlobal {
  isProcessing : bool;
  onLine : bool;
  db : Store;
  trace : list Event
}.

Definition set_processing (b : bool) (g : Global) : Global :=
  mkGlobal b (onLine g) (db g) (trace g).

Definition set_onLine (b : bool) (g : Global) : Global :=
  mkGlobal (isProcessing g) b (db g) (trace g).

Definition with_db (f : Store -> Store) (g : Global) : Global :=
  mkGlobal (isProcessing g) (onLine g) (f (db g)) (trace g).

Definition log (e : Event) (g : Global) : Global :=
  mkGlobal (isProcessing g) (onLine g) (db g) (trace g ++ [e]).

Definition endpoint (ty : ItemType) : string :=
  match ty with
  | order => "/api/orders"
  | waiterCall => "/api/waiter-calls"
  end.

(** *** One call, run without interleaving

    [backend] tells how the request for an item settles. *)

(** The [catch] block of the loop body. *)
Definition on_catch (item : SyncQueueItem) (g : Global) : Global :=
  let g1 := log (LogFailed (id item)) g in
  let g2 := with_db (updateSyncQueueItem (id item) (only_retries (retries item + 1))) g1 in
  if 5 <=? retries item
  then log (LogRemoved (id item)) (with_db (removeFromSyncQueue (id item)) g2)
  else g2.

(** What follows the settlement [r] of the request for [item]. *)
Definition on_settled (item : SyncQueueItem) (r : Response) (g : Global) : Global :=
  match r with
  | NetworkError => on_catch item g
  | Http s =>
      match type item with
      | order =>
          if ok s
          then log (LogSynced (id item)) (with_db (removeFromSyncQueue (id item)) g)
          else on_catch item g
      | waiterCall =>
          if ok s
          then with_db (removeFromSyncQueue (id item)) g
          else g
      end
  end.

(** One iteration of [for (const item of queue)]. *)
Definition sync_item (tid : nat) (backend : SyncQueueItem -> Response)
    (item : SyncQueueItem) (g : Global) : Global :=
  on_settled item (backend item) (log (Fetch tid (endpoint (type item)) item) g).

Fixpoint replay (tid : nat) (backend : SyncQueueItem -> Response)
    (queue : list SyncQueueItem) (g : Global) : Global :=
  match queue with
  | [] => g
  | item :: rest => replay tid backend rest (sync_item tid backend item g)
  end.

(** [BackgroundSync.processSyncQueue()]; [tid] only labels the effects of
    the call. *)
Definition processSyncQueue (tid : nat) (backend : SyncQueueItem -> Response)
    (g : Global) : Global :=
  if isProcessing g then g
  else if negb (onLine g) then g
  else
    let g1 := log (ReadQueue tid) (set_processing true g) in
    set_processing false (replay tid backend (getSyncQueue (db g1)) g1).

(** *** The same call as a task suspended at each [await] *)

Inductive Task : Type :=
| Idle
| AwaitQueue
| AwaitFetch (item : SyncQueueItem) (rest : list SyncQueueItem)
| AwaitRemoveSynced (item : SyncQueueItem) (rest : list SyncQueueItem)
| AwaitUpdate (item : SyncQueueItem) (rest : list SyncQueueItem)
| AwaitRemoveMax (item : SyncQueueItem) (rest : list SyncQueueItem)
| Done.

Definition active (t : Task) : bool :=
  match t with
  | Idle | Done => false
  | _ => true
  end.

(** Head of the loop: issue the request for the next item, or leave through
    [finally]. *)
Definition next (tid : nat) (rest : list SyncQueueItem) (g : Global) : Global * Task :=
  match rest with
  | [] => (set_processing false g, Done)
  | item :: rest' =>
      (log (Fetch tid (endpoint (type item)) item) g, AwaitFetch item rest')
  end.

(** The call itself, up to its first [await]. *)
Definition invoke (g : Global) : Global * Task :=
  if isProcessing g then (g, Done)
  else if negb (onLine g) then (g, Done)
  else (set_processing true g, AwaitQueue).

(** The awaited promise settles; [r] is read only at [AwaitFetch].  A storage
    request takes effect when the promise that wraps it settles. *)
Definition resume (tid : nat) (r : Response) (g : Global) (t : Task) : Global * Task :=
  match t with
  | Idle => (g, Idle)
  | Done => (g, Done)
  | AwaitQueue =>
      let g1 := log (ReadQueue tid) g in
      next tid (getSyncQueue (db g1)) g1
  | AwaitFetch item rest =>
      match r with
      | NetworkError => (log (LogFailed (id item)) g, AwaitUpdate item rest)
      | Http s =>
          match type item with
          | order =>
              if ok s then (g, AwaitRemoveSynced item rest)
              else (log (LogFailed (id item)) g, AwaitUpdate item rest)
          | waiterCall =>
              if ok s then (g, AwaitRemoveSynced item rest)
              else next tid rest g
          end
      end
  | AwaitRemoveSynced item rest =>
      let g1 := with_db (removeFromSyncQueue (id item)) g in
      match type item with
      | order => next tid rest (log (LogSynced (id item)) g1)
      | waiterCall => next tid rest g1
      end
  | AwaitUpdate item rest =>
      let g1 := with_db (updateSyncQueueItem (id item) (only_retries (retries item + 1))) g in
      if 5 <=? retries item then (g1, AwaitRemoveMax item rest)
      else next tid rest g1
  | AwaitRemoveMax item rest =>
      next tid rest (log (LogRemoved (id item)) (with_db (removeFromSyncQueue (id item)) g))
  end.

(** *** The event loop: several calls and the rest of the application *)

Record System : Type := mkSystem {
  glob : Global;
  tasks : nat -> Task
}.

(** [Call tid]: [processSyncQueue()] is called, by the interval timer, the
    [online] listener or [startAutoSync]; the call is named [tid], and a name
    serves once.  [Settle tid r]: the promise call [tid] awaits settles.
    [Enqueue]: the application calls [addToSyncQueue].  [SetOnLine]: the
    platform changes [navigator.onLine]. *)
Inductive Label : Type :=
| Call (tid : nat)
| Settle (tid : nat) (r : Response)
| Enqueue (now : N) (rnd : string) (ty : ItemType) (d : json)
| SetOnLine (b : bool).

Definition set_task (tid : nat) (t : Task) (ts : nat -> Task) : nat -> Task :=
  fun i => if Nat.eqb i tid then t else ts i.

Definition step (l : Label) (s : System) : System :=
  match l with
  | Call tid =>
      match tasks s tid with
      | Idle => let (g, t) := invoke (glob s) in mkSystem g (set_task tid t (tasks s))
      | _ => s
      end
  | Settle tid r =>
      let (g, t) := resume tid r (glob s) (tasks s tid) in
      mkSystem g (set_task tid t (tasks s))
  | Enqueue now rnd ty d =>
      mkSystem (with_db (fun q => fst (addToSyncQueue now rnd ty d q)) (glob s)) (tasks s)
  | SetOnLine b => mkSystem (set_onLine b (glob s)) (tasks s)
  end.

Definition exec (ls : list Label) (s : System) : System :=
  fold_left (fun s l => step l s) ls s.

Definition init : System :=
  mkSystem (mkGlobal false true [] []) (fun _ => Idle).

(** A call that runs alone: every promise it awaits settles before anything
    else happens, the requests settling as [backend] tells. *)
Definition settle_alone (tid : nat) (backend : SyncQueueItem -> Response)
    (gt : Global * Task) : Global * Task :=
  match snd gt with
  | AwaitFetch item _ => resume tid (backend item) (fst gt) (snd gt)
  | t => resume tid NetworkError (fst gt) t
  end.

Fixpoint run_alone (n : nat) (tid : nat) (backend : SyncQueueItem -> Response)
    (gt : Global * Task) : Global * Task :=
  match n with
  | O => gt
  | S m => run_alone m tid backend (settle_alone tid backend gt)
  end.

(** A mutation handed to [addToSyncQueue], with the clock reading and the
    random suffix of that call. *)
Record Enq : Type := mkEnq {
  e_now : N;
  e_rnd : string;
  e_type : ItemType;
  e_data : json
}.

Definition new_id (e : Enq) : string := make_id (e_now e) (e_rnd e).

(** The record [addToSyncQueue] stores for [e]. *)
Definition item_of (e : Enq) : SyncQueueItem :=
  mkItem (new_id e) (e_type e) (e_data e) (e_now e) 0.

Definition enqueue_all (es : list Enq) (q : Store) : Store :=
  fold_left (fun q e => fst (addToSyncQueue (e_now e) (e_rnd e) (e_type e) (e_data e) q)) es q.

(** The backend answers every request with a 2xx status. *)
Definition accepts_all (backend : SyncQueueItem -> Response) : Prop :=
  forall item, exists s, backend item = Http s /\ ok s = true.

(** Successive calls of [addToSyncQueue] read a clock that has advanced and
    prints with as many digits as before. *)
Definition clock_advances (es : list Enq) : Prop :=
  StronglySorted
    (fun a b => (e_now a < e_now b)%N
                /\ String.length (Numeral.decimal (e_now a))
                   = String.length (Numeral.decimal (e_now b)))
    es.

(** Identifiers in strictly ascending key order. *)
Definition ascending (ids : list string) : Prop :=
  StronglySorted (fun a b => String.compare a b = Lt) ids.

(** The settlement of the request for [item] reaches the [catch] block: the
    request is rejected, or it is an order answered outside 2xx. *)
Definition caught (item : SyncQueueItem) (r : Response) : bool :=
  match r with
  | NetworkError => true
  | Http s =>
      match type item with
      | order => negb (ok s)
      | waiterCall => false
      end
  end.

(** The record [x] after its retry count was set to [n]. *)
Definition with_retries (n : nat) (x : SyncQueueItem) : SyncQueueItem :=
  mkItem (id x) (type x) (data x) (timestamp x) n.

Definition has_key (k : string) (y : SyncQueueItem) : bool := String.eqb k (id y).

(** Successive drains, one backend behaviour per drain. *)
Definition drains (tid : nat) (bs : list (SyncQueueItem -> Response)) (g : Global) : Global :=
  fold_left (fun g b => processSyncQueue tid b g) bs g.

(** The requests issued by call [tid], oldest first. *)
Definition fetched_by (tid : nat) (tr : list Event) : list SyncQueueItem :=
  flat_map (fun e => match e with
                     | Fetch t _ item => if Nat.eqb t tid then [item] else []
                     | _ => []
                     end) tr.

(** All requests of a trace, oldest first. *)
Definition fetched (tr : list Event) : list SyncQueueItem :=
  flat_map (fun e => match e with Fetch _ _ item => [item] | _ => [] end) tr.

(** What a task has requested and what it still holds of its snapshot never
    name the same key twice. *)
Definition task_ok (tid : nat) (t : Task) (tr : list Event) : Prop :=
  match t with
  | Idle | AwaitQueue => fetched_by tid tr = []
  | AwaitFetch _ rest | AwaitRemoveSynced _ rest
  | AwaitUpdate _ rest | AwaitRemoveMax _ rest =>
      NoDup (map id (fetched_by tid tr) ++ map id rest)
  | Done => NoDup (map id (fetched_by tid tr))
  end.

(** The invariant of the event loop: the store is in key order, at most one
    call is past the guard, and [isProcessing] is set exactly while one is. *)
Definition wf (s : System) : Prop :=
  sorted (db (glob s))
  /\ (forall i j, active (tasks s i) = true -> active (tasks s j) = true -> i = j)
  /\ (isProcessing (glob s) = true <-> exists i, active (tasks s i) = true)
  /\ (forall i, task_ok i (tasks s i) (trace (glob s))).

(** *** Example data *)

(** A queued waiter call and a queued order, as [addToSyncQueue] stores them. *)
Definition a_waiter_call : SyncQueueItem :=
  item_of (mkEnq 1700000000000 "k3j9x0q1z" waiterCall (JObj [("table", JNum 4)])).

Definition an_order : SyncQueueItem :=
  item_of (mkEnq 1700000000123 "q0w8e2r7t" order (JObj [("table", JNum 7)])).

(** Two orders enqueued one after the other within the same millisecond. *)
Definition same_ms_first : Enq :=
  mkEnq 1700000000000 "zk3j9x0q1" order (JObj [("table", JNum 1)]).

Definition same_ms_second : Enq :=
  mkEnq 1700000000000 "a81hd02ms" order (JObj [("table", JNum 2)]).

(** Three orders enqueued in three successive milliseconds. *)
Definition three_orders : list Enq :=
  [mkEnq 1700000000001 "zk3j9x0q1" order (JObj [("table", JNum 1)]);
   mkEnq 1700000000002 "a81hd02ms" order (JObj [("table", JNum 2)]);
   mkEnq 1700000000003 "m4n5b6v7c" order (JObj [("table", JNum 3)])].

(** The application queues the two example records, a first call reads the
    queue and requests the first record; then a second call is made while the
    first goes on, first with a failure and then with a success. *)
Definition first_call_under_way : list Label :=
  [Enqueue 1700000000000 "k3j9x0q1z" waiterCall (JObj [("table", JNum 4)]);
   Enqueue 1700000000123 "q0w8e2r7t" order (JObj [("table", JNum 7)]);
   Call 0;
   Settle 0 NetworkError].

Definition first_call_goes_on : list Label :=
  [Settle 0 NetworkError; Settle 0 NetworkError;
   Settle 0 (Http 201); Settle 0 NetworkError].

(** *** What a call still holds of the queue it read *)

(** The records a suspended call has yet to request. *)
Definition remaining (t : Task) : list SyncQueueItem :=
  match t with
  | AwaitFetch _ rest | AwaitRemoveSynced _ rest
  | AwaitUpdate _ rest | AwaitRemoveMax _ rest => rest
  | _ => []
  end.

(** The call has read [snapshot] and works through it in order. *)
Definition works_through (snapshot : list SyncQueueItem) (tid : nat)
    (t : Task) (tr : list Event) : Prop :=
  match t with
  | Idle | AwaitQueue => False
  | _ => fetched_by tid tr ++ remaining t = snapshot
  end.

(** A call is made on the example queue; while it is suspended the
    application enqueues one more order, and the call goes on to its end. *)
Definition queue_filled_and_called : list Label :=
  [Enqueue 1700000000000 "k3j9x0q1z" waiterCall (JObj [("table", JNum 4)]);
   Enqueue 1700000000123 "q0w8e2r7t" order (JObj [("table", JNum 7)]);
   Call 0].

Definition enqueued_meanwhile : list Label :=
  [Enqueue 1700000000456 "b2c4d6e8f" order (JObj [("table", JNum 9)]);
   Settle 0 (Http 200); Settle 0 NetworkError;
   Settle 0 (Http 503); Settle 0 NetworkError].

(** A second record of the example queue. *)
Definition another_order : SyncQueueItem :=
  item_of (mkEnq 1700000000456 "b2c4d6e8f" order (JObj [("table", JNum 9)])).

End BackgroundSync.

(** ** websocketSync.ts: the push channel client *)

Module WebSocketSync.

(** [WebSocket.readyState] *)
Inductive ReadyState : Type := CONNECTING | OPEN | CLOSING | CLOSED.

(** Observable effects.  [Emit] records a call of [this.emit(eventType, data)]
    with a string [eventType]; the payload [None] is [undefined]. *)
Inductive Effect : Type :=
| Emit (eventType : string) (payload : option json)
| NewSocket (sock : nat)
| SetTimeout (delay : Z)
| LogSkip
| LogMaxAttempts
| LogParseFailure.

(** The fields of the singleton, the sockets constructed so far (a socket is
    named by its position) and the pending [setTimeout] callbacks, each of
    which calls [connect()]. *)
Record State : Type := mkState {
  ws : option nat;
  reconnectAttempts : nat;
  isConnecting : bool;
  sockets : list ReadyState;
  timers : list Z;
  effects : list Effect
}.

Definition maxReconnectAttempts : nat := 10.
Definition reconnectDelay : Z := 2000.

Definition init : State := mkState None 0 false [] [] [].

Definition status (s : string) : option json :=
  Some (JObj [("status", JStr s)]).

Definition emit (eventType : string) (payload : option json) (st : State) : State :=
  mkState (ws st) (reconnectAttempts st) (isConnecting st) (sockets st) (timers st)
          (effects st ++ [Emit eventType payload]).

Definition note (e : Effect) (st : State) : State :=
  mkState (ws st) (reconnectAttempts st) (isConnecting st) (sockets st) (timers st)
          (effects st ++ [e]).

Definition set_ws (w : option nat) (st : State) : State :=
  mkState w (reconnectAttempts st) (isConnecting st) (sockets st) (timers st) (effects st).

Definition set_attempts (n : nat) (st : State) : State :=
  mkState (ws st) n (isConnecting st) (sockets st) (timers st) (effects st).

Definition set_connecting (b : bool) (st : State) : State :=
  mkState (ws st) (reconnectAttempts st) b (sockets st) (timers st) (effects st).

Definition set_sockets (l : list ReadyState) (st : State) : State :=
  mkState (ws st) (reconnectAttempts st) (isConnecting st) l (timers st) (effects st).

Definition set_timers (l : list Z) (st : State) : State :=
  mkState (ws st) (reconnectAttempts st) (isConnecting st) (sockets st) l (effects st).

Definition readyState (s : nat) (st : State) : option ReadyState :=
  nth_error (sockets st) s.

Fixpoint set_nth {A : Type} (n : nat) (a : A) (l : list A) : list A :=
  match l, n with
  | [], _ => []
  | _ :: rest, O => a :: rest
  | x :: rest, S m => x :: set_nth m a rest
  end.

Fixpoint remove_nth {A : Type} (n : nat) (l : list A) : list A :=
  match l, n with
  | [], _ => []
  | _ :: rest, O => rest
  | x :: rest, S m => x :: remove_nth m rest
  end.

(** [isConnected()]: [this.ws?.readyState === WebSocket.OPEN] *)
Definition isConnected (st : State) : bool :=
  match ws st with
  | Some s => match readyState s st with Some OPEN => true | _ => false end
  | None => false
  end.

(** The delay of reconnect attempt [n]:
    [this.reconnectDelay * Math.min(this.reconnectAttempts, 5)]. *)
Definition delay_of (n : nat) : Z := (reconnectDelay * Z.of_nat (Nat.min n 5))%Z.

(** [attemptReconnect()] *)
Definition attemptReconnect (st : State) : State :=
  if maxReconnectAttempts <=? reconnectAttempts st
  then note LogMaxAttempts st
  else
    let st1 := set_attempts (S (reconnectAttempts st)) st in
    let delay := delay_of (reconnectAttempts st1) in
    note (SetTimeout delay) (set_timers (timers st1 ++ [delay]) st1).

(** [connect()]; [throws] tells whether [new WebSocket(wsUrl)] throws. *)
Definition connect (throws : bool) (st : State) : State :=
  if isConnected st || isConnecting st
  then note LogSkip st
  else
    let st1 := set_connecting true st in
    if throws
    then attemptReconnect (set_connecting false st1)
    else
      let s := List.length (sockets st1) in
      note (NewSocket s) (set_ws (Some s) (set_sockets (sockets st1 ++ [CONNECTING]) st1)).

(** [ws.close()] on a socket *)
Definition close_socket (s : nat) (st : State) : State :=
  match readyState s st with
  | Some CONNECTING | Some OPEN => set_sockets (set_nth s CLOSING (sockets st)) st
  | _ => st
  end.

(** [disconnect()] *)
Definition disconnect (st : State) : State :=
  let st1 := match ws st with
             | Some s => set_ws None (close_socket s st)
             | None => st
             end in
  set_attempts maxReconnectAttempts st1.

(** [ws.onopen] *)
Definition onopen (st : State) : State :=
  emit "connection" (status "connected")
       (set_connecting false (set_attempts 0 st)).

(** [ws.onmessage]; [parsed] is the result of [JSON.parse(event.data)],
    [None] when it throws. *)
Definition onmessage (parsed : option json) (st : State) : State :=
  match parsed with
  | None => note LogParseFailure st
  | Some JNull => note LogParseFailure st
  | Some (JObj fields) =>
      match assoc "type" fields with
      | Some (JStr eventType) => emit eventType (assoc "data" fields) st
      | _ => st
      end
  | Some _ => st
  end.

(** [ws.onclose] *)
Definition onclose (st : State) : State :=
  attemptReconnect
    (emit "connection" (status "disconnected")
          (set_ws None (set_connecting false st))).

(** [ws.onerror] *)
Definition onerror (st : State) : State :=
  emit "connection" (status "error") (set_connecting false st).

(** What the event loop delivers to the client.  [SockClose s failed] is the
    closing of the connection of socket [s]: the browser sets the ready state
    to [CLOSED], fires [error] first when it had to fail the connection
    ([failed]), and then fires [close]. *)
Inductive Label : Type :=
| CallConnect (throws : bool)
| CallDisconnect
| TimerFires (k : nat) (throws : bool)
| SockOpen (s : nat)
| SockMessage (s : nat) (parsed : option json)
| SockClose (s : nat) (failed : bool).

(** A socket event is delivered only in a ready state in which the browser
    fires it; a label that is not enabled leaves the state unchanged. *)
Definition step (l : Label) (st : State) : State :=
  match l with
  | CallConnect throws => connect throws st
  | CallDisconnect => disconnect st
  | TimerFires k throws =>
      match nth_error (timers st) k with
      | Some _ => connect throws (set_timers (remove_nth k (timers st)) st)
      | None => st
      end
  | SockOpen s =>
      match readyState s st with
      | Some CONNECTING => onopen (set_sockets (set_nth s OPEN (sockets st)) st)
      | _ => st
      end
  | SockMessage s parsed =>
      match readyState s st with
      | Some OPEN => onmessage parsed st
      | _ => st
      end
  | SockClose s failed =>
      match readyState s st with
      | Some CLOSED | None => st
      | Some _ =>
          let st1 := set_sockets (set_nth s CLOSED (sockets st)) st in
          onclose (if failed then onerror st1 else st1)
      end
  end.

Definition exec (ls : list Label) (st : State) : State :=
  fold_left (fun st l => step l st) ls st.

(** The sockets constructed and the delays scheduled, oldest first. *)
Definition new_sockets (es : list Effect) : list nat :=
  flat_map (fun e => match e with NewSocket s => [s] | _ => [] end) es.

Definition scheduled (es : list Effect) : list Z :=
  flat_map (fun e => match e with SetTimeout d => [d] | _ => [] end) es.

(** After a first [connect()] the channel closes [k] times in a row without
    ever opening: socket [i] is closed by a failure, and the retry this
    schedules, if any, fires and constructs socket [i + 1]. *)
Definition failure (i : nat) : list Label :=
  [SockClose i true; TimerFires 0 false].

Definition failures (k : nat) : list Label :=
  CallConnect false :: flat_map failure (seq 0 k).

(** The statuses the connection state is specified to range over. *)
Definition three_valued (payload : option json) : Prop :=
  payload = status "disconnected"
  \/ payload = status "connecting"
  \/ payload = status "connected".

(** The statuses the socket callbacks emit. *)
Definition emitted_status (payload : option json) : Prop :=
  payload = status "connected"
  \/ payload = status "disconnected"
  \/ payload = status "error".

(** The payload was received in a message whose [type] is ["connection"]. *)
Definition forwarded (ls : list Label) (payload : option json) : Prop :=
  exists s fields,
    In (SockMessage s (Some (JObj fields))) ls
    /\ assoc "type" fields = Some (JStr "connection")
    /\ payload = assoc "data" fields.

(** An effect other than an emitted event. *)
Definition silent (e : Effect) : Prop := forall t p, e <> Emit t p.

(** A socket on which the browser can still fire [close]. *)
Definition closable (s : nat) (st : State) : Prop :=
  exists r, readyState s st = Some r /\ r <> CLOSED.

(** *** The handler registry

    [handlers: Map<string, MessageHandler[]>], in insertion order.  A handler
    is a function value; it is named here by a number, and registering one
    function twice registers one number twice. *)
Definition Registry : Type := list (string * list nat).

(** [handlers.get(eventType)] and [handlers.has(eventType)] *)
Fixpoint lookup (eventType : string) (reg : Registry) : option (list nat) :=
  match reg with
  | [] => None
  | (t, hs) :: rest => if String.eqb eventType t then Some hs else lookup eventType rest
  end.

(** [handlers.set(eventType, hs)], also the effect of mutating in place the
    array stored under [eventType]. *)
Fixpoint store_handlers (eventType : string) (hs : list nat) (reg : Registry) : Registry :=
  match reg with
  | [] => [(eventType, hs)]
  | (t, hs') :: rest =>
      if String.eqb eventType t then (t, hs) :: rest
      else (t, hs') :: store_handlers eventType hs rest
  end.

(** [handlers.indexOf(handler)] followed by [handlers.splice(index, 1)] when
    the index is not -1. *)
Fixpoint remove_first (h : nat) (hs : list nat) : list nat :=
  match hs with
  | [] => []
  | x :: rest => if Nat.eqb x h then rest else x :: remove_first h rest
  end.

(** [on(eventType, handler)], the registry afterwards. *)
Definition on (eventType : string) (h : nat) (reg : Registry) : Registry :=
  let reg1 := match lookup eventType reg with
              | None => store_handlers eventType [] reg
              | Some _ => reg
              end in
  match lookup eventType reg1 with
  | Some hs => store_handlers eventType (hs ++ [h]) reg1
  | None => reg1
  end.

(** The function [on(eventType, handler)] returns, called. *)
Definition unsubscribe (eventType : string) (h : nat) (reg : Registry) : Registry :=
  match lookup eventType reg with
  | Some hs => store_handlers eventType (remove_first h hs) reg
  | None => reg
  end.

(** The handlers [emit(eventType, data)] calls, in the order of the calls. *)
Definition invoked (eventType : string) (reg : Registry) : list nat :=
  match lookup eventType reg with
  | Some hs => hs
  | None => []
  end.

(** What a React effect does with the registry: it registers its handlers
    one after the other, and its cleanup calls the functions [on] returned,
    in the same order. *)
Definition subscribe_all (subs : list (string * nat)) (reg : Registry) : Registry :=
  fold_left (fun r s => on (fst s) (snd s) r) subs reg.

Definition unsubscribe_all (subs : list (string * nat)) (reg : Registry) : Registry :=
  fold_left (fun r s => unsubscribe (fst s) (snd s) r) subs reg.

(** *** States and runs the properties speak of *)

(** No socket can still open or deliver: each is closing or closed. *)
Definition winding_down (st : State) : Prop :=
  Forall (fun r => r = CLOSING \/ r = CLOSED) (sockets st).

(** The client after [disconnect()] when nothing was pending. *)
Definition at_rest (st : State) : Prop :=
  ws st = None /\ timers st = []
  /\ maxReconnectAttempts <= reconnectAttempts st
  /\ winding_down st.

(** Every socket but the current one is closing or closed. *)
Definition only_current_live (st : State) : Prop :=
  forall s r, readyState s st = Some r ->
              ws st = Some s \/ r = CLOSING \/ r = CLOSED.

Definition is_connect_call (l : Label) : bool :=
  match l with CallConnect _ => true | _ => false end.

Definition is_open (l : Label) : bool :=
  match l with SockOpen _ => true | _ => false end.

Definition is_message (l : Label) : bool :=
  match l with SockMessage _ _ => true | _ => false end.

(** What the delivery of a message can add to the trace. *)
Definition message_effect (e : Effect) : Prop :=
  (exists t p, e = Emit t p) \/ e = LogParseFailure.

(** The handlers a list of subscriptions registers under [eventType]. *)
Definition handlers_of (eventType : string) (subs : list (string * nat)) : list nat :=
  map snd (filter (fun s => String.eqb (fst s) eventType) subs).

(** A delay [attemptReconnect] can schedule. *)
Definition in_range (d : Z) : Prop := (2000 <= d <= 10000)%Z.

(** What a step can do to the attempt counter, the delays scheduled so far
    and the pending timers: leave counter and delays alone, count and
    schedule one more attempt, put the counter at the ceiling
    ([disconnect()]), or reset it ([onopen]); [T] is what the step leaves of
    the timers that were pending. *)
Definition counts (l : Label) (st st' : State) : Prop :=
  exists T,
    (T = timers st \/ exists k, T = remove_nth k (timers st))
    /\ ((reconnectAttempts st' = reconnectAttempts st
         /\ scheduled (effects st') = scheduled (effects st)
         /\ timers st' = T)
        \/ (reconnectAttempts st < maxReconnectAttempts
            /\ reconnectAttempts st' = S (reconnectAttempts st)
            /\ scheduled (effects st')
               = scheduled (effects st) ++ [delay_of (S (reconnectAttempts st))]
            /\ timers st' = T ++ [delay_of (S (reconnectAttempts st))])
        \/ (l = CallDisconnect
            /\ reconnectAttempts st' = maxReconnectAttempts
            /\ scheduled (effects st') = scheduled (effects st)
            /\ timers st' = T)
        \/ (is_open l = true
            /\ reconnectAttempts st' = 0
            /\ scheduled (effects st') = scheduled (effects st)
            /\ timers st' = T)).

(** The fields that make up the connection state. *)
Definition same_connection (a b : State) : Prop :=
  ws a = ws b
  /\ reconnectAttempts a = reconnectAttempts b
  /\ isConnecting a = isConnecting b
  /\ sockets a = sockets b
  /\ timers a = timers b.

(** The handlers of [DataProvider]'s effect, under fresh names. *)
Definition provider_subscriptions : list (string * nat) :=
  [("connection", 1); ("MENU_UPDATE", 2); ("STAFF_UPDATE", 3); ("ORDER_UPDATE", 4);
   ("BILL_UPDATE", 5); ("CUSTOMER_UPDATE", 6); ("WAITER_CALL", 7);
   ("SETTINGS_UPDATE", 8); ("EXPENSE_UPDATE", 9)].

End WebSocketSync.

(** ** The application store shared by the pages *)

Module AppStore.

Record State : Type := mkStore {
  menuItems : list json;
  orders : list json;
  bills : list json;
  customers : list json;
  staff : list json;
  settings : option json;
  expenses : list json;
  waiterCalls : list json;
  transactions : list json
}.

(** Modelled from the spec: the setters of [store/useStore], which is not
    among the sources; each replaces one collection by the value it is given
    ("an in-place replacement of the materialized snapshot, never a partial
    merge"). *)
Definition setMenuItems (v : list json) (s : State) : State :=
  mkStore v (orders s) (bills s) (customers s) (staff s) (settings s)
          (expenses s) (waiterCalls s) (transactions s).

Definition setOrders (v : list json) (s : State) : State :=
  mkStore (menuItems s) v (bills s) (customers s) (staff s) (settings s)
          (expenses s) (waiterCalls s) (transactions s).

Definition setBills (v : list json) (s : State) : State :=
  mkStore (menuItems s) (orders s) v (customers s) (staff s) (settings s)
          (expenses s) (waiterCalls s) (transactions s).

Definition setCustomers (v : list json) (s : State) : State :=
  mkStore (menuItems s) (orders s) (bills s) v (staff s) (settings s)
          (expenses s) (waiterCalls s) (transactions s).

Definition setStaff (v : list json) (s : State) : State :=
  mkStore (menuItems s) (orders s) (bills s) (customers s) v (settings s)
          (expenses s) (waiterCalls s) (transactions s).

Definition setSettings (v : option json) (s : State) : State :=
  mkStore (menuItems s) (orders s) (bills s) (customers s) (staff s) v
          (expenses s) (waiterCalls s) (transactions s).

Definition setExpenses (v : list json) (s : State) : State :=
  mkStore (menuItems s) (orders s) (bills s) (customers s) (staff s) (settings s)
          v (waiterCalls s) (transactions s).

Definition setWaiterCalls (v : list json) (s : State) : State :=
  mkStore (menuItems s) (orders s) (bills s) (customers s) (staff s) (settings s)
          (expenses s) v (transactions s).

Definition setTransactions (v : list json) (s : State) : State :=
  mkStore (menuItems s) (orders s) (bills s) (customers s) (staff s) (settings s)
          (expenses s) (waiterCalls s) v.

End AppStore.

(** ** DataProvider.tsx: the change-notification handlers *)

Module DataProvider.
Import AppStore.

(** The message types for which a handler is registered. *)
Inductive NotifType : Type :=
| MENU_UPDATE
| STAFF_UPDATE
| ORDER_UPDATE
| BILL_UPDATE
| CUSTOMER_UPDATE
| WAITER_CALL
| SETTINGS_UPDATE
| EXPENSE_UPDATE.

Definition NotifType_eqb (a b : NotifType) : bool :=
  match a, b with
  | MENU_UPDATE, MENU_UPDATE | STAFF_UPDATE, STAFF_UPDATE
  | ORDER_UPDATE, ORDER_UPDATE | BILL_UPDATE, BILL_UPDATE
  | CUSTOMER_UPDATE, CUSTOMER_UPDATE | WAITER_CALL, WAITER_CALL
  | SETTINGS_UPDATE, SETTINGS_UPDATE | EXPENSE_UPDATE, EXPENSE_UPDATE => true
  | _, _ => false
  end.

(** What the [await] of the handler of a type yields: one collection, the
    pair of [Promise.all([billsApi.getAll(), transactionsApi.getAll()])], or
    the settings object. *)
Definition Fetched (ty : NotifType) : Type :=
  match ty with
  | BILL_UPDATE => (list json * list json)%type
  | SETTINGS_UPDATE => option json
  | _ => list json
  end.

(** The part of a handler after its [await]. *)
Definition finish (ty : NotifType) : Fetched ty -> State -> State :=
  match ty with
  | MENU_UPDATE => setMenuItems
  | STAFF_UPDATE => setStaff
  | ORDER_UPDATE => setOrders
  | BILL_UPDATE => fun p s => setTransactions (snd p) (setBills (fst p) s)
  | CUSTOMER_UPDATE => setCustomers
  | WAITER_CALL => setWaiterCalls
  | SETTINGS_UPDATE => setSettings
  | EXPENSE_UPDATE => setExpenses
  end.

(** The collection(s) a type refreshes, as read from the store. *)
Definition view (ty : NotifType) : State -> Fetched ty :=
  match ty with
  | MENU_UPDATE => menuItems
  | STAFF_UPDATE => staff
  | ORDER_UPDATE => orders
  | BILL_UPDATE => fun s => (bills s, transactions s)
  | CUSTOMER_UPDATE => customers
  | WAITER_CALL => waiterCalls
  | SETTINGS_UPDATE => settings
  | EXPENSE_UPDATE => expenses
  end.

(** The store, the handlers suspended at their [await] (each named by the
    order in which its fetch was issued) and the number of fetches issued. *)
Record Provider : Type := mkProvider {
  store : State;
  inflight : list (nat * NotifType);
  issued : nat
}.

(** [Notify ty]: a message of type [ty] is dispatched; its handler issues the
    fetch and suspends.  [Complete n ty r]: fetch [n], issued by a handler of
    type [ty], settles; [r] is [None] when it rejects. *)
Inductive Label : Type :=
| Notify (ty : NotifType)
| Complete (n : nat) (ty : NotifType) (r : option (Fetched ty)).

Definition is_inflight (n : nat) (ty : NotifType) (p : Provider) : bool :=
  existsb (fun e => Nat.eqb (fst e) n && NotifType_eqb (snd e) ty) (inflight p).

Definition step (l : Label) (p : Provider) : Provider :=
  match l with
  | Notify ty => mkProvider (store p) (inflight p ++ [(issued p, ty)]) (S (issued p))
  | Complete n ty r =>
      if is_inflight n ty p
      then
        let rest := filter (fun e => negb (Nat.eqb (fst e) n)) (inflight p) in
        match r with
        | Some v => mkProvider (finish ty v (store p)) rest (issued p)
        | None => mkProvider (store p) rest (issued p)
        end
      else p
  end.

Definition exec (ls : list Label) (p : Provider) : Provider :=
  fold_left (fun p l => step l p) ls p.

(** The label is the completion, with a value, of a fetch issued by a
    handler of type [ty]. *)
Definition refreshes (ty : NotifType) (l : Label) : bool :=
  match l with
  | Complete _ ty' (Some _) => NotifType_eqb ty' ty
  | _ => false
  end.

(** A provider on which two notifications of one type were dispatched. *)
Definition twice_notified (ty : NotifType) (p : Provider) : Provider :=
  exec [Notify ty; Notify ty] p.

(** Example data: a store holding one menu item, and two answers of the menu
    endpoint. *)
Definition a_store : State :=
  mkStore [JStr "tea"] [] [] [] [JStr "owner"] None [] [] [].

Definition older_menu : list json := [JStr "tea"; JStr "coffee"].
Definition newer_menu : list json := [JStr "tea"; JStr "coffee"; JStr "momo"].

End DataProvider.

(** ** Counter.tsx: [useBackendSync.connectToBackend] *)

Module BackendSync.
Import AppStore.

(** How an awaited promise settles. *)
Inductive Settled (A : Type) : Type :=
| Rejected
| Resolved (a : A).
Arguments Rejected {A}.
Arguments Resolved {A} a.

(** The backend as one call of [connectToBackend] sees it.  A collection
    resolves to an array or to nothing ([None]: [null] or [undefined]);
    [create_ok item] tells whether [menuApi.create(item)] resolves. *)
Record Backend : Type := mkBackend {
  health : Settled bool;
  r_menuItems : Settled (option (list json));
  r_orders : Settled (option (list json));
  r_bills : Settled (option (list json));
  r_customers : Settled (option (list json));
  r_staff : Settled (option (list json));
  r_settings : Settled (option json);
  r_expenses : Settled (option (list json));
  r_waiterCalls : Settled (option (list json));
  r_transactions : Settled (option (list json));
  create_ok : json -> bool
}.

Inductive Effect : Type :=
| WsConnect
| LogSeeding
| Create (item : json)
| LogPushFailed (item : json)
| LogSynced
| LogConnectionError.

(** The outcome of a call: the store afterwards, what was done, and whether
    the call reached [setIsConnected(true)]. *)
Record Outcome : Type := mkOutcome {
  state : State;
  effects : list Effect;
  connected : bool
}.

(** [x || []] *)
Definition or_empty (x : option (list json)) : list json :=
  match x with Some l => l | None => [] end.

(** [!menuItems || menuItems.length === 0] *)
Definition none_or_empty (x : option (list json)) : bool :=
  match x with
  | None => true
  | Some l => Nat.eqb (List.length l) 0
  end.

(** The loop over [localMenuItems]: one [menuApi.create] per item, a failure
    is caught and logged inside the loop. *)
Fixpoint push_all (create_ok : json -> bool) (items : list json) : list Effect :=
  match items with
  | [] => []
  | item :: rest =>
      (if create_ok item then [Create item] else [Create item; LogPushFailed item])
        ++ push_all create_ok rest
  end.

(** The fields common to both [useStore.setState] calls, merged into [cur];
    [staff] is the fetched array. *)
Definition merge_common (snapshot cur : State)
    (o b c : option (list json)) (staff_l : list json) (se : option json)
    (e w t : option (list json)) : State :=
  mkStore (menuItems cur)
          (or_empty o) (or_empty b) (or_empty c)
          (if 0 <? List.length staff_l then staff_l else staff snapshot)
          (match se with Some v => Some v | None => settings snapshot end)
          (or_empty e) (or_empty w) (or_empty t).

Definition fail (cur : State) (done : list Effect) : Outcome :=
  mkOutcome cur (done ++ [LogConnectionError]) false.

(** [connectToBackend()]: [snapshot] is the store value the callback closed
    over ([store]), [cur] the state of the store when [setState] runs. *)
Definition connectToBackend (snapshot cur : State) (be : Backend) : Outcome :=
  match health be with
  | Resolved true =>
      match r_menuItems be, r_orders be, r_bills be, r_customers be, r_staff be,
            r_settings be, r_expenses be, r_waiterCalls be, r_transactions be with
      | Resolved m, Resolved o, Resolved b, Resolved c, Resolved st,
        Resolved se, Resolved e, Resolved w, Resolved t =>
          let localMenuItems := menuItems snapshot in
          if none_or_empty m && (0 <? List.length localMenuItems)
          then
            let done := [WsConnect; LogSeeding] ++ push_all (create_ok be) localMenuItems in
            match st with
            | Some staff_l =>
                mkOutcome (merge_common snapshot cur o b c staff_l se e w t)
                          (done ++ [LogSynced]) true
            | None => fail cur done
            end
          else
            match st with
            | Some staff_l =>
                mkOutcome (setMenuItems (or_empty m)
                             (merge_common snapshot cur o b c staff_l se e w t))
                          [WsConnect; LogSynced] true
            | None => fail cur [WsConnect]
            end
      | _, _, _, _, _, _, _, _, _ => fail cur [WsConnect]
      end
  | _ => fail cur []
  end.

(** The items handed to [menuApi.create], oldest first. *)
Definition pushed (es : list Effect) : list json :=
  flat_map (fun e => match e with Create item => [item] | _ => [] end) es.

(** The items whose push failure was logged, oldest first. *)
Definition push_failures (es : list Effect) : list json :=
  flat_map (fun e => match e with LogPushFailed item => [item] | _ => [] end) es.

(** A backend that is healthy and answers every fetch; the staff endpoint
    answers with an array. *)
Definition answering (m o b c : option (list json)) (staff_l : list json)
    (se : option json) (e w t : option (list json)) (create_ok : json -> bool) : Backend :=
  mkBackend (Resolved true) (Resolved m) (Resolved o) (Resolved b) (Resolved c)
            (Resolved (Some staff_l)) (Resolved se) (Resolved e) (Resolved w)
            (Resolved t) create_ok.

(** Example data: a device with three menu items and one staff member meets a
    backend that holds nothing and refuses the second item. *)
Definition local_store : State :=
  mkStore [JStr "tea"; JStr "coffee"; JStr "momo"] [JStr "stale order"] [] []
          [JStr "owner"] (Some (JObj [("restaurantName", JStr "Chiya")])) [] [] [].

(** The store value a callback created before anything was loaded closes
    over. *)
Definition empty_store : State := mkStore [] [] [] [] [] None [] [] [].

Definition fresh_backend : Backend :=
  answering (Some []) (Some []) (Some []) (Some []) [] None (Some []) (Some []) (Some [])
            (fun item => match item with JStr "coffee" => false | _ => true end).

(** The backend is healthy, every fetch resolves and the staff endpoint
    answers with an array. *)
Definition answers (be : Backend) : Prop :=
  exists m o b c staff_l se e w t,
    be = answering m o b c staff_l se e w t (create_ok be).

End BackendSync.

(** ** DataProvider.tsx: [loadDataFromBackend] *)

Module DataProviderLoad.
Import AppStore BackendSync.

(** Why a load ended in the [catch] block: the health check answered
    [false], or it rejected. *)
Inductive LoadError : Type :=
| NotReachable
| HealthCheckFailed.

(** The outcome of a call: the store afterwards, the component's [error]
    state, whether [store.setDataLoaded(true)] was called, and whether
    [wsSync.connect()] was. *)
Record Loaded : Type := mkLoaded {
  l_state : State;
  l_error : option LoadError;
  l_dataLoaded : bool;
  l_wsConnect : bool
}.

(** [api.getAll().catch(() => [])] followed by [x || []] *)
Definition tolerant (r : Settled (option (list json))) : list json :=
  match r with
  | Resolved x => or_empty x
  | Rejected => []
  end.

(** [settingsApi.get().catch(() => null)] *)
Definition tolerant_settings (r : Settled (option json)) : option json :=
  match r with
  | Resolved x => x
  | Rejected => None
  end.

(** [loadDataFromBackend()] on the store [cur]. *)
Definition loadDataFromBackend (cur : State) (be : Backend) : Loaded :=
  match health be with
  | Resolved true =>
      let s1 := setMenuItems (tolerant (r_menuItems be)) cur in
      let s2 := setOrders (tolerant (r_orders be)) s1 in
      let s3 := setBills (tolerant (r_bills be)) s2 in
      let s4 := setCustomers (tolerant (r_customers be)) s3 in
      let s5 := setStaff (tolerant (r_staff be)) s4 in
      let s6 := setSettings (tolerant_settings (r_settings be)) s5 in
      let s7 := setExpenses (tolerant (r_expenses be)) s6 in
      let s8 := setWaiterCalls (tolerant (r_waiterCalls be)) s7 in
      let s9 := setTransactions (tolerant (r_transactions be)) s8 in
      mkLoaded s9 None true true
  | Resolved false => mkLoaded cur (Some NotReachable) false false
  | Rejected => mkLoaded cur (Some HealthCheckFailed) false false
  end.

(** A backend that answers everything but the orders, whose fetch rejects. *)
Definition orders_unavailable : Backend :=
  mkBackend (Resolved true) (Resolved (Some [JStr "tea"])) Rejected (Resolved (Some []))
            (Resolved (Some [])) (Resolved (Some [JStr "owner"])) (Resolved None)
            (Resolved (Some [])) (Resolved (Some [])) (Resolved (Some []))
            (fun _ => true).

End DataProviderLoad.

(** ** Counter.tsx: the cart of the counter's new-order tab *)

Module Counter.

(** [OrderItem]; quantities are whole numbers, and [price] is carried along
    unchanged. *)
Record OrderItem : Type := mkOrderItem {
  id : string;
  menuItemId : string;
  name : string;
  qty : Z;
  price : Z
}.

Record MenuItem : Type := mkMenuItem {
  m_id : string;
  m_name : string;
  m_price : Z
}.

(** [{ ...c, qty: q }] *)
Definition with_qty (q : Z) (c : OrderItem) : OrderItem :=
  mkOrderItem (id c) (menuItemId c) (name c) q (price c).

(** [addToCart(item)], the cart it sets; [rnd] is the identifier drawn for a
    new line. *)
Definition addToCart (rnd : string) (item : MenuItem) (cart : list OrderItem)
    : list OrderItem :=
  match find (fun c => String.eqb (menuItemId c) (m_id item)) cart with
  | Some _ =>
      map (fun c => if String.eqb (menuItemId c) (m_id item)
                    then with_qty (qty c + 1) c else c) cart
  | None => cart ++ [mkOrderItem rnd (m_id item) (m_name item) 1 (m_price item)]
  end.

(** [updateCartQty(menuItemId, delta)], the cart it sets. *)
Definition updateCartQty (mid : string) (delta : Z) (cart : list OrderItem)
    : list OrderItem :=
  filter (fun c => (0 <? qty c)%Z)
         (map (fun c => if String.eqb (menuItemId c) mid
                        then let newQty := (qty c + delta)%Z in
                             if (0 <? newQty)%Z then with_qty newQty c else c
                        else c) cart).

(** The number shown on the cart: [cart.reduce((s, c) => s + c.qty, 0)]. *)
Definition cartCount (cart : list OrderItem) : Z :=
  fold_left (fun s c => (s + qty c)%Z) cart 0%Z.

(** What the user does to the cart between two orders. *)
Inductive Click : Type :=
| Add (rnd : string) (item : MenuItem)
| Update (mid : string) (delta : Z).

Definition click (c : Click) (cart : list OrderItem) : list OrderItem :=
  match c with
  | Add rnd item => addToCart rnd item cart
  | Update mid delta => updateCartQty mid delta cart
  end.

Definition clicks (cs : list Click) (cart : list OrderItem) : list OrderItem :=
  fold_left (fun cart c => click c cart) cs cart.

(** Every line has a quantity of at least one and no two lines are for the
    same menu item. *)
Definition well_formed (cart : list OrderItem) : Prop :=
  Forall (fun c => (1 <= qty c)%Z) cart /\ NoDup (map menuItemId cart).

(** The change of the quantity of the line for [mid] that
    [updateCartQty(mid, delta)] makes. *)
Definition applied (mid : string) (delta : Z) (cart : list OrderItem) : Z :=
  match find (fun c => String.eqb (menuItemId c) mid) cart with
  | Some c => if (0 <? qty c + delta)%Z then delta else 0%Z
  | None => 0%Z
  end.

End Counter.

(** * Properties *)

(** ** Numerals *)

Module NumeralFacts.
Import Numeral.

Lemma value_cons (d : Decimal.uint) :
  d <> Decimal.Nil ->
  value d = (value (DecimalPos.Unsigned.tl d)
             + leading d * 10 ^ width (DecimalPos.Unsigned.tl d))%N.
Proof.
  unfold value, width, leading.
  destruct d; intros H; try congruence;
    unfold Decimal.rev;
    cbn [Decimal.revapp DecimalPos.Unsigned.tl DecimalPos.Unsigned.hd];
    rewrite DecimalPos.Unsigned.of_lu_revapp;
    cbn [DecimalPos.Unsigned.of_lu]; f_equal; lia.
Qed.

Lemma value_bound (d : Decimal.uint) : (value d < 10 ^ width d)%N.
Proof.
  induction d;
    try (rewrite value_cons by discriminate;
         cbn [DecimalPos.Unsigned.tl width DecimalPos.Unsigned.usize
              leading DecimalPos.Unsigned.hd];
         fold (width d); rewrite N.pow_succ_r'; lia).
  cbn. lia.
Qed.

(** Numerals of equal width compare as the numbers they denote. *)
Lemma digits_lt (d1 : Decimal.uint) :
  forall d2, width d1 = width d2 -> (value d1 < value d2)%N ->
             String.compare (digits d1) (digits d2) = Lt.
Proof.
  induction d1; intros d2 Hw Hv; destruct d2;
    try (cbn in Hw; lia);
    try (cbn in Hv; lia);
    match type of Hv with
    | (value ?a < value ?b)%N =>
        rewrite (value_cons a), (value_cons b) in Hv by discriminate
    end;
    cbn [DecimalPos.Unsigned.tl leading DecimalPos.Unsigned.hd] in Hv;
    cbn [width DecimalPos.Unsigned.usize] in Hw;
    fold (width d1) in Hw; fold (width d2) in Hw;
    apply N.succ_inj in Hw; rewrite Hw in Hv;
    pose proof (value_bound d1) as B1; pose proof (value_bound d2) as B2;
    rewrite Hw in B1;
    cbn [digits NilEmpty.string_of_uint String.compare];
    first [ reflexivity
          | (change (String.compare (digits d1) (digits d2) = Lt);
             apply IHd1; [exact Hw|lia])
          | lia ].
Qed.

Lemma digits_length (d : Decimal.uint) : String.length (digits d) = N.to_nat (width d).
Proof.
  induction d;
    cbn [digits NilEmpty.string_of_uint String.length width DecimalPos.Unsigned.usize];
    try reflexivity; fold (digits d); fold (width d); rewrite IHd; lia.
Qed.

Lemma compare_app_lt (a : string) :
  forall b s t, String.length a = String.length b -> String.compare a b = Lt ->
                String.compare (a ++ s) (b ++ t) = Lt.
Proof.
  induction a as [|c a IH]; intros [|c' b] s t Hl Hc; cbn in *; try discriminate.
  destruct (Ascii.compare c c'); try discriminate; auto.
Qed.

Lemma decimal_lt (n1 n2 : N) :
  (n1 < n2)%N -> String.length (decimal n1) = String.length (decimal n2) ->
  String.compare (decimal n1) (decimal n2) = Lt.
Proof.
  intros Hlt Hlen. unfold decimal in *.
  apply digits_lt.
  - fold (digits (N.to_uint n1)) in Hlen. fold (digits (N.to_uint n2)) in Hlen.
    rewrite !digits_length in Hlen. lia.
  - unfold value. rewrite <- !DecimalPos.Unsigned.of_uint_alt.
    change (N.of_uint (N.to_uint n1) < N.of_uint (N.to_uint n2))%N.
    now rewrite !DecimalN.Unsigned.of_to.
Qed.

End NumeralFacts.

(** ** The object store *)

Module OfflineStorageFacts.
Import OfflineStorage.

(** A later clock reading of the same width gives a greater identifier,
    whatever the random suffixes. *)
Lemma make_id_lt (n1 n2 : N) (r1 r2 : string) :
  (n1 < n2)%N ->
  String.length (Numeral.decimal n1) = String.length (Numeral.decimal n2) ->
  String.compare (make_id n1 r1) (make_id n2 r2) = Lt.
Proof.
  intros Hlt Hlen. unfold make_id.
  apply NumeralFacts.compare_app_lt; [exact Hlen|].
  now apply NumeralFacts.decimal_lt.
Qed.

Lemma ascii_compare_refl (a : ascii) : Ascii.compare a a = Eq.
Proof. unfold Ascii.compare. apply N.compare_refl. Qed.

Lemma ascii_compare_lt_trans (a b c : ascii) :
  Ascii.compare a b = Lt -> Ascii.compare b c = Lt -> Ascii.compare a c = Lt.
Proof.
  unfold Ascii.compare. rewrite !N.compare_lt_iff. apply N.lt_trans.
Qed.

Lemma compare_refl (s : string) : String.compare s s = Eq.
Proof.
  induction s as [|a s IH]; simpl; [reflexivity|].
  now rewrite ascii_compare_refl.
Qed.

Lemma compare_lt_trans (s1 : string) :
  forall s2 s3, String.compare s1 s2 = Lt -> String.compare s2 s3 = Lt ->
                String.compare s1 s3 = Lt.
Proof.
  induction s1 as [|a s1 IH]; intros [|b s2] [|c s3]; simpl; try congruence.
  destruct (Ascii.compare a b) eqn:Hab; try discriminate;
    destruct (Ascii.compare b c) eqn:Hbc; try discriminate; intros H1 H2.
  - apply Ascii.compare_eq_iff in Hab, Hbc. subst.
    rewrite ascii_compare_refl. eauto.
  - apply Ascii.compare_eq_iff in Hab. subst. now rewrite Hbc.
  - apply Ascii.compare_eq_iff in Hbc. subst. now rewrite Hab.
  - now rewrite (ascii_compare_lt_trans a b c).
Qed.

Lemma compare_gt_lt (s1 s2 : string) :
  String.compare s1 s2 = Gt <-> String.compare s2 s1 = Lt.
Proof.
  rewrite (String.compare_antisym s2 s1).
  destruct (String.compare s1 s2); simpl; split; congruence.
Qed.

Lemma eqb_compare (s1 s2 : string) :
  String.eqb s1 s2 = true <-> String.compare s1 s2 = Eq.
Proof.
  rewrite String.eqb_eq. split.
  - intros ->. apply compare_refl.
  - apply String.compare_eq_iff.
Qed.

Lemma compare_lt_neq (s1 s2 : string) :
  String.compare s1 s2 = Lt -> String.eqb s1 s2 = false.
Proof.
  intros H. destruct (String.eqb s1 s2) eqn:E; [|reflexivity].
  apply eqb_compare in E. congruence.
Qed.

Lemma sorted_nil : sorted [].
Proof. constructor. Qed.

Lemma put_In (x y : SyncQueueItem) (db : Store) :
  In y (put x db) -> y = x \/ In y db.
Proof.
  induction db as [|z db IH]; simpl.
  - intros [<-|[]]. now left.
  - destruct (String.compare (id x) (id z)); simpl; intuition.
Qed.

Lemma sorted_put (x : SyncQueueItem) (db : Store) :
  sorted db -> sorted (put x db).
Proof.
  unfold sorted. induction 1 as [|z db Hs IH Hz]; simpl.
  - repeat constructor.
  - destruct (String.compare (id x) (id z)) eqn:E.
    + apply String.compare_eq_iff in E. constructor; [assumption|].
      unfold key_lt in *. now rewrite E.
    + constructor; [now constructor|]. constructor; [exact E|].
      rewrite Forall_forall in *. intros y Hy. unfold key_lt in *.
      eapply compare_lt_trans; eauto.
    + constructor; [assumption|].
      rewrite Forall_forall in *. intros y Hy.
      apply put_In in Hy as [->|Hy]; [|now apply Hz].
      now apply compare_gt_lt.
Qed.

Lemma sorted_delete (k : string) (db : Store) :
  sorted db -> sorted (delete k db).
Proof.
  unfold sorted, delete. induction 1 as [|z db Hs IH Hz]; simpl.
  - constructor.
  - destruct (negb (String.eqb k (id z))); [|assumption].
    constructor; [assumption|].
    rewrite Forall_forall in *. intros y Hy.
    apply filter_In in Hy. now apply Hz.
Qed.

Lemma sorted_update (k : string) (u : PartialItem) (db : Store) :
  sorted db -> sorted (updateSyncQueueItem k u db).
Proof.
  unfold updateSyncQueueItem. intros H.
  destruct (get k db); [now apply sorted_put|assumption].
Qed.

Lemma sorted_NoDup (db : Store) : sorted db -> NoDup (map id db).
Proof.
  induction 1 as [|z db Hs IH Hz]; simpl; constructor; [|assumption].
  rewrite in_map_iff. intros (y & Hy & Hin).
  rewrite Forall_forall in Hz. specialize (Hz y Hin). unfold key_lt in Hz.
  rewrite Hy, compare_refl in Hz. discriminate.
Qed.

(** A record whose key is above every key of the store goes to its end. *)
Lemma put_last (x : SyncQueueItem) (db : Store) :
  Forall (fun y => key_lt y x) db -> put x db = db ++ [x].
Proof.
  induction 1 as [|z db Hz Hall IH]; simpl; [reflexivity|].
  apply compare_gt_lt in Hz. now rewrite Hz, IH.
Qed.

Lemma delete_In (k : string) (y : SyncQueueItem) (db : Store) :
  In y (delete k db) <-> In y db /\ id y <> k.
Proof.
  unfold delete. rewrite filter_In, negb_true_iff.
  destruct (String.eqb_spec k (id y)); intuition congruence.
Qed.

Lemma get_delete (k : string) (db : Store) : get k (delete k db) = None.
Proof.
  unfold get, delete. induction db as [|z db IH]; simpl; [reflexivity|].
  destruct (String.eqb k (id z)) eqn:E; simpl; [assumption|].
  now rewrite E.
Qed.

Lemma get_Some_id (k : string) (y : SyncQueueItem) (db : Store) :
  get k db = Some y -> id y = k /\ In y db.
Proof.
  unfold get. intros H. apply find_some in H as [Hin He].
  apply String.eqb_eq in He. auto.
Qed.

Lemma get_None_In (k : string) (db : Store) :
  get k db = None -> forall y, In y db -> id y <> k.
Proof.
  unfold get. intros H y Hy E.
  apply (find_none _ _ H) in Hy. cbn in Hy.
  rewrite E, String.eqb_refl in Hy. discriminate.
Qed.

Lemma get_put_same (x : SyncQueueItem) (db : Store) :
  get (id x) (put x db) = Some x.
Proof.
  unfold get. induction db as [|z db IH]; cbn.
  - now rewrite String.eqb_refl.
  - destruct (String.compare (id x) (id z)) eqn:E; cbn.
    + now rewrite String.eqb_refl.
    + now rewrite String.eqb_refl.
    + apply compare_gt_lt in E. apply compare_lt_neq in E.
      rewrite String.eqb_sym, E. exact IH.
Qed.

Lemma get_put_other (k : string) (x : SyncQueueItem) (db : Store) :
  id x <> k -> get k (put x db) = get k db.
Proof.
  intros Hne. assert (Hx : String.eqb k (id x) = false).
  { apply String.eqb_neq. congruence. }
  unfold get. induction db as [|z db IH]; cbn.
  - now rewrite Hx.
  - destruct (String.compare (id x) (id z)) eqn:E; cbn; rewrite ?Hx.
    + apply String.compare_eq_iff in E. now rewrite <- E, Hx.
    + reflexivity.
    + now rewrite IH.
Qed.

Lemma get_delete_other (k k' : string) (db : Store) :
  k' <> k -> get k (delete k' db) = get k db.
Proof.
  intros Hne. unfold get, delete. induction db as [|z db IH]; cbn; [reflexivity|].
  destruct (String.eqb_spec k' (id z)) as [E|E]; cbn.
  - destruct (String.eqb_spec k (id z)); [congruence|exact IH].
  - now rewrite IH.
Qed.

Lemma get_update_other (k k' : string) (n : nat) (db : Store) :
  k' <> k -> get k (updateSyncQueueItem k' (only_retries n) db) = get k db.
Proof.
  intros Hne. unfold updateSyncQueueItem.
  destruct (get k' db) as [y|] eqn:E; [|reflexivity].
  apply get_Some_id in E as [E _].
  apply get_put_other. cbn. congruence.
Qed.

(** In a store in key order a record is found under its key. *)
Lemma get_In (x : SyncQueueItem) (db : Store) :
  sorted db -> In x db -> get (id x) db = Some x.
Proof.
  unfold get. induction 1 as [|z db Hs IH Hz]; cbn; [intros []|].
  intros [->|Hin].
  - now rewrite String.eqb_refl.
  - rewrite Forall_forall in Hz. specialize (Hz x Hin).
    apply compare_lt_neq in Hz. rewrite String.eqb_sym, Hz. now apply IH.
Qed.

Lemma filter_none (A : Type) (f : A -> bool) (l : list A) :
  (forall x, In x l -> f x = false) -> filter f l = [].
Proof.
  induction l as [|a l IH]; cbn; intros H; [reflexivity|].
  rewrite (H a) by now left. apply IH. intros x Hx. apply H. now right.
Qed.

(** In a store in key order one record at most has a given key. *)
Lemma filter_key (k : string) (y : SyncQueueItem) (db : Store) :
  sorted db -> get k db = Some y ->
  filter (fun z => String.eqb k (id z)) db = [y].
Proof.
  unfold get. induction 1 as [|z db Hs IH Hz]; cbn; [discriminate|].
  destruct (String.eqb_spec k (id z)) as [E|E].
  - intros [= ->]. f_equal.
    apply filter_none. intros w Hw.
    rewrite Forall_forall in Hz. specialize (Hz w Hw).
    apply compare_lt_neq in Hz. now rewrite E.
  - exact IH.
Qed.

Lemma filter_key_none (k : string) (db : Store) :
  get k db = None -> filter (fun z => String.eqb k (id z)) db = [].
Proof.
  intros H. apply filter_none. intros w Hw.
  apply String.eqb_neq. intros E. now apply (get_None_In k db H w Hw).
Qed.

End OfflineStorageFacts.

(** ** Draining the queue *)

Module BackgroundSyncFacts.
Import OfflineStorage OfflineStorageFacts BackgroundSync.

Lemma fetched_app (a b : list Event) : fetched (a ++ b) = fetched a ++ fetched b.
Proof. unfold fetched. apply flat_map_app. Qed.

Lemma fetched_by_app (tid : nat) (a b : list Event) :
  fetched_by tid (a ++ b) = fetched_by tid a ++ fetched_by tid b.
Proof. unfold fetched_by. apply flat_map_app. Qed.

Lemma fetched_on_catch (item : SyncQueueItem) (g : Global) :
  fetched (trace (on_catch item g)) = fetched (trace g).
Proof.
  unfold on_catch. destruct (5 <=? retries item); simpl;
    rewrite ?fetched_app; simpl; now rewrite ?app_nil_r.
Qed.

Lemma fetched_on_settled (item : SyncQueueItem) (r : Response) (g : Global) :
  fetched (trace (on_settled item r g)) = fetched (trace g).
Proof.
  unfold on_settled.
  destruct r as [|s]; [apply fetched_on_catch|].
  destruct (type item), (ok s); simpl;
    rewrite ?fetched_on_catch, ?fetched_app; simpl; now rewrite ?app_nil_r.
Qed.

(** A drain requests the records of its snapshot, in the snapshot's order. *)
Lemma fetched_replay (tid : nat) (backend : SyncQueueItem -> Response)
    (q : list SyncQueueItem) :
  forall g, fetched (trace (replay tid backend q g)) = fetched (trace g) ++ q.
Proof.
  induction q as [|item q IH]; intros g; simpl.
  - now rewrite app_nil_r.
  - rewrite IH. unfold sync_item. rewrite fetched_on_settled. simpl.
    rewrite fetched_app. simpl. now rewrite <- app_assoc.
Qed.

(** Under an accepting backend an iteration removes its record and nothing
    else. *)
Lemma db_replay_accepted (tid : nat) (backend : SyncQueueItem -> Response)
    (q : list SyncQueueItem) :
  accepts_all backend ->
  forall g, db (replay tid backend q g)
            = fold_left (fun d x => delete (id x) d) q (db g).
Proof.
  intros Hacc. induction q as [|item q IH]; intros g; simpl; [reflexivity|].
  rewrite IH. f_equal. unfold sync_item, on_settled.
  destruct (Hacc item) as (s & -> & ->).
  destruct (type item); reflexivity.
Qed.

Lemma delete_all (q : list SyncQueueItem) :
  forall d, (forall y, In y d -> In (id y) (map id q)) ->
            fold_left (fun d x => delete (id x) d) q d = [].
Proof.
  induction q as [|x q IH]; intros d Hd; simpl.
  - destruct d as [|y d]; [reflexivity|]. destruct (Hd y). now left.
  - apply IH. intros y Hy. apply delete_In in Hy as [Hy Hne].
    destruct (Hd y Hy) as [E|Hin]; [congruence|assumption].
Qed.

Lemma sorted_enqueue_all (es : list Enq) :
  forall q, sorted q -> sorted (enqueue_all es q).
Proof.
  induction es as [|e es IH]; intros q Hq; simpl; [assumption|].
  apply IH. now apply sorted_put.
Qed.

(** Identifiers that grow with every call keep the queue in enqueue order. *)
Lemma enqueue_all_ascending (es : list Enq) :
  forall q,
    StronglySorted (fun a b => String.compare a b = Lt) (map id q ++ map new_id es) ->
    enqueue_all es q = q ++ map item_of es.
Proof.
  induction es as [|e es IH]; intros q Hs; simpl.
  - now rewrite app_nil_r.
  - assert (Hlast : put (item_of e) q = q ++ [item_of e]).
    { apply put_last. rewrite Forall_forall. intros y Hy.
      clear IH. induction q as [|z q IHq]; [destruct Hy|].
      simpl in Hs. inversion Hs as [|? ? Hs' Hall]; subst.
      destruct Hy as [->|Hy]; [|now apply IHq].
      rewrite Forall_forall in Hall. apply Hall.
      apply in_or_app. right. now left. }
    change (enqueue_all es (put (item_of e) q) = q ++ item_of e :: map item_of es).
    rewrite Hlast, IH.
    + now rewrite <- app_assoc.
    + rewrite map_app. simpl. rewrite <- app_assoc. exact Hs.
Qed.

Lemma run_alone_S (n tid : nat) (backend : SyncQueueItem -> Response)
    (gt : Global * Task) :
  run_alone (S n) tid backend gt = run_alone n tid backend (settle_alone tid backend gt).
Proof. reflexivity. Qed.

Ltac settle_once :=
  rewrite run_alone_S; unfold settle_alone; cbn [snd fst resume].

(** The call run task by task reaches what [processSyncQueue] computes. *)
Lemma replay_adequate (tid : nat) (backend : SyncQueueItem -> Response)
    (q : list SyncQueueItem) :
  forall g, exists n,
    run_alone n tid backend (next tid q g)
    = (set_processing false (replay tid backend q g), Done).
Proof.
  induction q as [|item q IH]; intros g.
  - exists 0. reflexivity.
  - cbn [next replay]. unfold sync_item.
    set (g1 := log (Fetch tid (endpoint (type item)) item) g).
    destruct (IH (on_settled item (backend item) g1)) as [n Hn].
    unfold on_settled, on_catch in *.
    destruct (backend item) as [|s] eqn:Hb.
    + destruct (5 <=? retries item) eqn:Hr.
      * exists (S (S (S n))). settle_once. rewrite Hb.
        settle_once. rewrite Hr. settle_once. exact Hn.
      * exists (S (S n)). settle_once. rewrite Hb.
        settle_once. rewrite Hr. exact Hn.
    + destruct (type item) eqn:Ht, (ok s) eqn:Hs.
      * exists (S (S n)). settle_once. rewrite Hb, Ht, Hs.
        settle_once. rewrite Ht. exact Hn.
      * destruct (5 <=? retries item) eqn:Hr.
        -- exists (S (S (S n))). settle_once. rewrite Hb, Ht, Hs.
           settle_once. rewrite Hr. settle_once. exact Hn.
        -- exists (S (S n)). settle_once. rewrite Hb, Ht, Hs.
           settle_once. rewrite Hr. exact Hn.
      * exists (S (S n)). settle_once. rewrite Hb, Ht, Hs.
        settle_once. rewrite Ht. exact Hn.
      * exists (S n). settle_once. rewrite Hb, Ht, Hs. exact Hn.
Qed.

Lemma processSyncQueue_adequate (tid : nat) (backend : SyncQueueItem -> Response)
    (g : Global) :
  exists n, run_alone n tid backend (invoke g)
            = (processSyncQueue tid backend g, Done).
Proof.
  unfold invoke, processSyncQueue.
  destruct (isProcessing g); [now exists 0|].
  destruct (negb (onLine g)); [now exists 0|].
  destruct (replay_adequate tid backend (getSyncQueue (db g))
              (log (ReadQueue tid) (set_processing true g))) as [n Hn].
  exists (S n). settle_once. exact Hn.
Qed.

(** *** The invariant of the event loop *)

Lemma fetched_by_snoc_fetch (tid t : nat) (url : string) (x : SyncQueueItem)
    (tr : list Event) :
  fetched_by tid (tr ++ [Fetch t url x])
  = fetched_by tid tr ++ (if Nat.eqb t tid then [x] else []).
Proof. rewrite fetched_by_app. simpl. now rewrite app_nil_r. Qed.

Lemma fetched_by_snoc_other (tid : nat) (e : Event) (tr : list Event) :
  (forall t url x, e <> Fetch t url x) ->
  fetched_by tid (tr ++ [e]) = fetched_by tid tr.
Proof.
  intros He. rewrite fetched_by_app. simpl.
  destruct e; try now rewrite app_nil_r.
  now destruct (He tid0 url item).
Qed.

Ltac not_a_fetch := intros ? ? ?; discriminate.

(** What [next] leaves behind. *)
Lemma next_cases (tid : nat) (rest : list SyncQueueItem) (g : Global) :
  (rest = [] /\ next tid rest g = (set_processing false g, Done))
  \/ (exists x rest', rest = x :: rest'
        /\ next tid rest g = (log (Fetch tid (endpoint (type x)) x) g, AwaitFetch x rest')).
Proof. destruct rest as [|x rest']; [left|right]; eauto. Qed.

Lemma next_db (tid : nat) (rest : list SyncQueueItem) (g : Global) :
  db (fst (next tid rest g)) = db g /\ onLine (fst (next tid rest g)) = onLine g.
Proof. destruct rest; auto. Qed.

Lemma next_processing (tid : nat) (rest : list SyncQueueItem) (g : Global) :
  isProcessing (fst (next tid rest g))
  = (if active (snd (next tid rest g)) then isProcessing g else false)
  /\ snd (next tid rest g) <> Idle.
Proof. destruct rest; simpl; split; auto; discriminate. Qed.

Lemma next_other (tid j : nat) (rest : list SyncQueueItem) (g : Global) :
  j <> tid ->
  fetched_by j (trace (fst (next tid rest g))) = fetched_by j (trace g).
Proof.
  intros Hj. destruct rest as [|x rest]; simpl; [reflexivity|].
  rewrite fetched_by_snoc_fetch.
  destruct (Nat.eqb_spec tid j); [congruence|apply app_nil_r].
Qed.

Lemma next_ok (tid : nat) (rest : list SyncQueueItem) (g : Global) :
  NoDup (map id (fetched_by tid (trace g)) ++ map id rest) ->
  task_ok tid (snd (next tid rest g)) (trace (fst (next tid rest g))).
Proof.
  destruct rest as [|x rest]; simpl.
  - now rewrite app_nil_r.
  - rewrite fetched_by_snoc_fetch, Nat.eqb_refl, map_app, <- app_assoc. auto.
Qed.

(** What one settlement does to the shared state. *)
Lemma resume_db (tid : nat) (r : Response) (g : Global) (t : Task) :
  sorted (db g) -> sorted (db (fst (resume tid r g t))).
Proof.
  intros Hs.
  destruct t as [| |x rest|x rest|x rest|x rest|]; cbn [resume]; try assumption.
  - destruct (next_db tid (getSyncQueue (db (log (ReadQueue tid) g)))
                (log (ReadQueue tid) g)) as [-> _]. assumption.
  - destruct r as [|c]; [assumption|].
    destruct (type x), (ok c); try assumption.
    destruct (next_db tid rest g) as [-> _]. assumption.
  - destruct (type x);
      match goal with |- context [next tid rest ?h] =>
        destruct (next_db tid rest h) as [-> _] end;
      cbn [db log with_db]; now apply sorted_delete.
  - destruct (5 <=? retries x); cbn [fst].
    + cbn [db with_db]. now apply sorted_update.
    + match goal with |- context [next tid rest ?h] =>
        destruct (next_db tid rest h) as [-> _] end.
      cbn [db with_db]. now apply sorted_update.
  - match goal with |- context [next tid rest ?h] =>
      destruct (next_db tid rest h) as [-> _] end.
    cbn [db log with_db]. now apply sorted_delete.
Qed.

Lemma resume_processing (tid : nat) (r : Response) (g : Global) (t : Task) :
  active t = true ->
  isProcessing (fst (resume tid r g t))
  = (if active (snd (resume tid r g t)) then isProcessing g else false)
  /\ snd (resume tid r g t) <> Idle.
Proof.
  intros Ha.
  destruct t as [| |x rest|x rest|x rest|x rest|]; cbn [resume]; try discriminate Ha.
  - apply (next_processing tid _ (log (ReadQueue tid) g)).
  - destruct r as [|c]; [split; [reflexivity|discriminate]|].
    destruct (type x), (ok c); try (split; [reflexivity|discriminate]).
    apply next_processing.
  - destruct (type x);
      match goal with |- context [next tid rest ?h] =>
        apply (next_processing tid rest h) end.
  - destruct (5 <=? retries x); [split; [reflexivity|discriminate]|].
    match goal with |- context [next tid rest ?h] =>
      apply (next_processing tid rest h) end.
  - match goal with |- context [next tid rest ?h] =>
      apply (next_processing tid rest h) end.
Qed.

Lemma resume_other (tid j : nat) (r : Response) (g : Global) (t : Task) :
  j <> tid ->
  fetched_by j (trace (fst (resume tid r g t))) = fetched_by j (trace g).
Proof.
  intros Hj.
  destruct t as [| |x rest|x rest|x rest|x rest|]; cbn [resume]; try reflexivity.
  - rewrite next_other by assumption. cbn [trace log].
    apply fetched_by_snoc_other. not_a_fetch.
  - destruct r as [|c].
    + cbn [fst trace log]. apply fetched_by_snoc_other. not_a_fetch.
    + destruct (type x), (ok c); cbn [fst trace log]; try reflexivity.
      * apply fetched_by_snoc_other. not_a_fetch.
      * now apply next_other.
  - destruct (type x); rewrite next_other by assumption; cbn [trace log with_db];
      [apply fetched_by_snoc_other; not_a_fetch | reflexivity].
  - destruct (5 <=? retries x); [reflexivity|].
    rewrite next_other by assumption. reflexivity.
  - rewrite next_other by assumption. cbn [trace log with_db].
    apply fetched_by_snoc_other. not_a_fetch.
Qed.

Lemma resume_ok (tid : nat) (r : Response) (g : Global) (t : Task) :
  sorted (db g) ->
  task_ok tid t (trace g) ->
  task_ok tid (snd (resume tid r g t)) (trace (fst (resume tid r g t))).
Proof.
  intros Hs Hok.
  destruct t as [| |x rest|x rest|x rest|x rest|]; cbn [resume]; cbn [task_ok] in Hok;
    try exact Hok.
  - apply next_ok. cbn [trace log db getSyncQueue].
    rewrite fetched_by_snoc_other by not_a_fetch. rewrite Hok.
    now apply sorted_NoDup.
  - destruct r as [|c].
    + cbn [snd fst task_ok trace log].
      now rewrite fetched_by_snoc_other by not_a_fetch.
    + destruct (type x), (ok c); cbn [snd fst task_ok trace log]; try exact Hok.
      * now rewrite fetched_by_snoc_other by not_a_fetch.
      * now apply next_ok.
  - destruct (type x); apply next_ok; cbn [trace log with_db];
      rewrite ?fetched_by_snoc_other by not_a_fetch; exact Hok.
  - destruct (5 <=? retries x); [exact Hok|].
    apply next_ok. exact Hok.
  - apply next_ok. cbn [trace log with_db].
    rewrite fetched_by_snoc_other by not_a_fetch. exact Hok.
Qed.

Lemma resume_inactive (tid : nat) (r : Response) (g : Global) (t : Task) :
  active t = false -> resume tid r g t = (g, t).
Proof. destruct t; try discriminate; reflexivity. Qed.

Lemma set_task_same (tid : nat) (t : Task) (ts : nat -> Task) :
  set_task tid t ts tid = t.
Proof. unfold set_task. now rewrite Nat.eqb_refl. Qed.

Lemma set_task_other (tid i : nat) (t : Task) (ts : nat -> Task) :
  i <> tid -> set_task tid t ts i = ts i.
Proof. unfold set_task. intros H. now destruct (Nat.eqb_spec i tid). Qed.

Lemma task_ok_ext (i : nat) (t : Task) (tr tr' : list Event) :
  fetched_by i tr' = fetched_by i tr -> task_ok i t tr -> task_ok i t tr'.
Proof. intros E. destruct t; cbn [task_ok]; now rewrite E. Qed.

Lemma task_ok_NoDup (i : nat) (t : Task) (tr : list Event) :
  task_ok i t tr -> NoDup (map id (fetched_by i tr)).
Proof.
  destruct t; cbn [task_ok]; intros H;
    try (rewrite H; constructor); try exact H;
    revert H; generalize (map id (fetched_by i tr)) as l; intros l H;
    induction l as [|a l IH]; simpl in *; try constructor;
    inversion H; subst; auto; rewrite in_app_iff in *; tauto.
Qed.

Lemma wf_init : wf init.
Proof.
  repeat split; cbn.
  - apply sorted_nil.
  - discriminate.
  - discriminate.
  - intros [i Hi]. discriminate Hi.
Qed.

Lemma wf_step (l : Label) (s : System) : wf s -> wf (step l s).
Proof.
  destruct s as [g ts]. intros Hwf.
  pose proof Hwf as (Hs & Hu & Hp & Hok). cbn [glob tasks] in *.
  destruct l as [tid|tid r|now rnd ty d|b]; cbn [step glob tasks].
  - (* a call *)
    destruct (ts tid) eqn:Ht; try exact Hwf.
    unfold invoke.
    assert (Hdone : wf (mkSystem g (set_task tid Done ts))).
    { repeat split; cbn [glob tasks].
      - assumption.
      - intros i j Hi Hj.
        destruct (Nat.eq_dec i tid) as [->|Hi']; [now rewrite set_task_same in Hi|].
        destruct (Nat.eq_dec j tid) as [->|Hj']; [now rewrite set_task_same in Hj|].
        rewrite set_task_other in Hi, Hj by assumption. auto.
      - intros Hpr. apply Hp in Hpr as [i Hi]. exists i.
        destruct (Nat.eq_dec i tid) as [->|Hi']; [now rewrite Ht in Hi|].
        now rewrite set_task_other.
      - intros [i Hi]. apply Hp.
        destruct (Nat.eq_dec i tid) as [->|Hi']; [now rewrite set_task_same in Hi|].
        rewrite set_task_other in Hi by assumption. eauto.
      - intros i. destruct (Nat.eq_dec i tid) as [->|Hi'].
        + rewrite set_task_same. specialize (Hok tid). rewrite Ht in Hok.
          cbn [task_ok] in *. rewrite Hok. constructor.
        + rewrite set_task_other by assumption. apply Hok. }
    destruct (isProcessing g) eqn:Hpr; [exact Hdone|].
    destruct (negb (onLine g)); [exact Hdone|].
    assert (Hnone : forall i, active (ts i) = false).
    { intros i. destruct (active (ts i)) eqn:Hi; [|reflexivity].
      assert (false = true) by (apply Hp; eauto). discriminate. }
    repeat split; cbn [glob tasks set_processing db isProcessing trace].
    + assumption.
    + intros i j Hi Hj.
      destruct (Nat.eq_dec i tid) as [->|Hi'];
        [|rewrite set_task_other, Hnone in Hi by assumption; discriminate].
      destruct (Nat.eq_dec j tid) as [->|Hj']; [reflexivity|].
      rewrite set_task_other, Hnone in Hj by assumption. discriminate.
    + intros _. exists tid. now rewrite set_task_same.
    + intros i. destruct (Nat.eq_dec i tid) as [->|Hi'].
      * rewrite set_task_same. specialize (Hok tid). now rewrite Ht in Hok.
      * rewrite set_task_other by assumption. apply Hok.
  - (* a settlement *)
    destruct (active (ts tid)) eqn:Ha.
    + pose proof (resume_db tid r g (ts tid) Hs) as Hdb.
      pose proof (resume_processing tid r g (ts tid) Ha) as [Hpr Hidle].
      pose proof (resume_ok tid r g (ts tid) Hs (Hok tid)) as Hok'.
      pose proof (fun j => resume_other tid j r g (ts tid)) as Hoth.
      destruct (resume tid r g (ts tid)) as [g' t']. cbn [fst snd] in *.
      assert (Hg : isProcessing g = true) by (apply Hp; eauto).
      rewrite Hg in Hpr.
      assert (Honly : forall i, i <> tid -> active (ts i) = false).
      { intros i Hi. destruct (active (ts i)) eqn:E; [|reflexivity].
        destruct Hi. now apply Hu. }
      repeat split; cbn [glob tasks].
      * assumption.
      * intros i j Hi Hj.
        destruct (Nat.eq_dec i tid) as [->|Hi'];
          [|rewrite set_task_other, Honly in Hi by assumption; discriminate].
        destruct (Nat.eq_dec j tid) as [->|Hj']; [reflexivity|].
        rewrite set_task_other, Honly in Hj by assumption. discriminate.
      * intros Hpr'. exists tid. rewrite set_task_same.
        destruct (active t'); congruence.
      * intros [i Hi].
        destruct (Nat.eq_dec i tid) as [->|Hi'].
        -- rewrite set_task_same in Hi. now rewrite Hi in Hpr.
        -- rewrite set_task_other, Honly in Hi by assumption. discriminate.
      * intros i. destruct (Nat.eq_dec i tid) as [->|Hi'].
        -- now rewrite set_task_same.
        -- rewrite set_task_other by assumption.
           apply task_ok_ext with (tr := trace g); auto.
    + rewrite (resume_inactive tid r g (ts tid) Ha).
      assert (Hsame : forall i, set_task tid (ts tid) ts i = ts i).
      { intros i. unfold set_task. destruct (Nat.eqb_spec i tid); congruence. }
      repeat split; cbn [glob tasks].
      * assumption.
      * intros i j. rewrite !Hsame. auto.
      * intros Hpr. apply Hp in Hpr as [i Hi]. exists i. now rewrite Hsame.
      * intros [i Hi]. apply Hp. exists i. now rewrite Hsame in Hi.
      * intros i. rewrite Hsame. apply Hok.
  - (* the application enqueues a mutation *)
    repeat split; cbn [glob tasks with_db db isProcessing trace]; try assumption.
    + unfold addToSyncQueue. cbn [fst]. now apply sorted_put.
    + apply Hp.
    + apply Hp.
  - (* the platform changes navigator.onLine *)
    repeat split; cbn [glob tasks set_onLine db isProcessing trace]; try assumption.
    + apply Hp.
    + apply Hp.
Qed.

Lemma exec_app (ls1 ls2 : list Label) (s : System) :
  exec (ls1 ++ ls2) s = exec ls2 (exec ls1 s).
Proof. unfold exec. apply fold_left_app. Qed.

Lemma wf_exec (ls : list Label) : forall s, wf s -> wf (exec ls s).
Proof.
  induction ls as [|l ls IH]; intros s Hs; [exact Hs|].
  apply (IH (step l s)). now apply wf_step.
Qed.

(** A call that has returned stays returned and requests nothing more. *)
Lemma done_step (l : Label) (s : System) (j : nat) :
  tasks s j = Done ->
  tasks (step l s) j = Done
  /\ fetched_by j (trace (glob (step l s))) = fetched_by j (trace (glob s)).
Proof.
  destruct s as [g ts]. cbn [glob tasks]. intros Hj.
  destruct l as [tid|tid r|now rnd ty d|b]; cbn [step glob tasks]; auto.
  - destruct (ts tid) eqn:Ht; cbn [glob tasks]; auto.
    destruct (Nat.eq_dec j tid) as [->|Hne]; [congruence|].
    unfold invoke.
    destruct (isProcessing g); [|destruct (negb (onLine g))];
      cbn [glob tasks]; rewrite set_task_other by assumption; auto.
  - destruct (Nat.eq_dec j tid) as [->|Hne].
    + rewrite Hj. cbn [resume glob tasks]. now rewrite set_task_same.
    + pose proof (resume_other tid j r g (ts tid) Hne) as Hoth.
      destruct (resume tid r g (ts tid)) as [g' t']. cbn [fst glob tasks] in *.
      now rewrite set_task_other by assumption.
Qed.

Lemma done_exec (ls : list Label) (j : nat) :
  forall s, tasks s j = Done ->
    tasks (exec ls s) j = Done
    /\ fetched_by j (trace (glob (exec ls s))) = fetched_by j (trace (glob s)).
Proof.
  induction ls as [|l ls IH]; intros s Hj; [auto|].
  destruct (done_step l s j Hj) as [Hd Hf].
  destruct (IH (step l s) Hd) as [Hd' Hf'].
  split; [exact Hd'|].
  change (exec (l :: ls) s) with (exec ls (step l s)).
  now rewrite Hf'.
Qed.

(** A call made while another is past the guard returns at once. *)
Lemma call_during_drain (s : System) (i j : nat) :
  wf s -> active (tasks s i) = true -> tasks s j = Idle ->
  step (Call j) s = mkSystem (glob s) (set_task j Done (tasks s)).
Proof.
  intros (_ & _ & Hp & _) Hi Hj. unfold step. rewrite Hj. unfold invoke.
  assert (Hpr : isProcessing (glob s) = true) by (apply Hp; eauto).
  now rewrite Hpr.
Qed.

(** C7: at most one drain runs at a time.  In every state the event loop
    can reach, at most one call is past the guard; a call made while another
    is in progress returns at once and leaves the flag, the store and the
    trace (so no read of the queue and no request) as they were; and whatever
    happens afterwards, that call requests nothing, so the two overlapping
    calls together request no record twice. *)
Theorem C7_one_drain_at_a_time :
  forall (ls : list Label),
    let s := exec ls init in
    (forall i j, active (tasks s i) = true -> active (tasks s j) = true -> i = j)
    /\ (forall i j, active (tasks s i) = true -> tasks s j = Idle ->
          glob (step (Call j) s) = glob s
          /\ tasks (step (Call j) s) j = Done)
    /\ (forall i j ls', active (tasks s i) = true -> tasks s j = Idle ->
          let s' := exec (Call j :: ls') s in
          fetched_by j (trace (glob s')) = []
          /\ NoDup (map id (fetched_by i (trace (glob s'))
                            ++ fetched_by j (trace (glob s'))))).
Proof.
  intros ls s.
  assert (Hwf : wf s) by (apply wf_exec, wf_init).
  split; [|split].
  - apply Hwf.
  - intros i j Hi Hj. rewrite (call_during_drain s i j Hwf Hi Hj).
    cbn [glob tasks]. now rewrite set_task_same.
  - intros i j ls' Hi Hj s'.
    assert (Hidle : fetched_by j (trace (glob s)) = []).
    { destruct Hwf as (_ & _ & _ & Hok). specialize (Hok j).
      now rewrite Hj in Hok. }
    assert (Hnone : fetched_by j (trace (glob s')) = []).
    { subst s'. change (exec (Call j :: ls') s) with (exec ls' (step (Call j) s)).
      rewrite (call_during_drain s i j Hwf Hi Hj).
      destruct (done_exec ls' j (mkSystem (glob s) (set_task j Done (tasks s))))
        as [_ Hf]; [apply set_task_same|].
      now rewrite Hf. }
    split; [exact Hnone|].
    rewrite Hnone, app_nil_r.
    assert (Hwf' : wf s') by (apply wf_exec, Hwf).
    destruct Hwf' as (_ & _ & _ & Hok).
    apply (task_ok_NoDup i (tasks s' i)), Hok.
Qed.

Lemma C7_one_drain_at_a_time_witness :
  let s := exec first_call_under_way init in
  let s' := exec (Call 1 :: first_call_goes_on) s in
  (glob (step (Call 1) s) = glob s /\ tasks (step (Call 1) s) 1 = Done)
  /\ fetched_by 1 (trace (glob s')) = []
  /\ NoDup (map id (fetched_by 0 (trace (glob s')) ++ fetched_by 1 (trace (glob s')))).
Proof.
  destruct (C7_one_drain_at_a_time first_call_under_way) as (_ & Hnoop & Hover).
  split.
  - apply (Hnoop 0 1); reflexivity.
  - apply (Hover 0 1 first_call_goes_on); reflexivity.
Defined.

(** C10: when the platform reports the network as offline, a drain returns
    at once: no request is made and the flag, the stored queue (every retry
    count included) and the trace are what they were; this holds for the call
    computed in one piece, for its first step as a task, and for the call made
    from the event loop. *)
Theorem C10_offline_drain_is_noop :
  forall (tid : nat) (backend : SyncQueueItem -> Response) (s : System),
    onLine (glob s) = false ->
    tasks s tid = Idle ->
    processSyncQueue tid backend (glob s) = glob s
    /\ invoke (glob s) = (glob s, Done)
    /\ glob (step (Call tid) s) = glob s
    /\ tasks (step (Call tid) s) tid = Done.
Proof.
  intros tid backend [g ts] Hoff Hidle. cbn [glob tasks] in *.
  unfold processSyncQueue, invoke, step. cbn [glob tasks].
  rewrite Hidle. unfold invoke. rewrite Hoff.
  destruct (isProcessing g); cbn [negb glob tasks];
    unfold set_task; rewrite Nat.eqb_refl; auto.
Qed.

Lemma C10_offline_drain_is_noop_witness :
  let s := mkSystem (mkGlobal false false [an_order] []) (fun _ => Idle) in
  processSyncQueue 0 (fun _ => Http 200) (glob s) = glob s
  /\ invoke (glob s) = (glob s, Done)
  /\ glob (step (Call 0) s) = glob s
  /\ tasks (step (Call 0) s) 0 = Done.
Proof.
  apply (C10_offline_drain_is_noop 0 (fun _ => Http 200)); reflexivity.
Defined.

(** A 2xx response removes the record, whatever its kind, and counts no
    retry. *)
Lemma settled_ok_removes (item : SyncQueueItem) (s : Z) (g : Global) :
  ok s = true ->
  db (on_settled item (Http s) g) = delete (id item) (db g)
  /\ get (id item) (db (on_settled item (Http s) g)) = None.
Proof.
  intros Hs. unfold on_settled. rewrite Hs.
  destruct (type item); cbn [db log with_db]; unfold removeFromSyncQueue;
    split; auto using get_delete.
Qed.

(** A response that is not 2xx to a waiter call changes nothing: the branch
    has no [else], so nothing is thrown. *)
Lemma waiterCall_http_error_ignored (item : SyncQueueItem) (s : Z) (g : Global) :
  type item = waiterCall -> ok s = false -> on_settled item (Http s) g = g.
Proof. intros Ht Hs. unfold on_settled. now rewrite Ht, Hs. Qed.

(** A response that is not 2xx to an order is thrown and reaches the
    [catch] block. *)
Lemma order_http_error_caught (item : SyncQueueItem) (s : Z) (g : Global) :
  type item = order -> ok s = false -> on_settled item (Http s) g = on_catch item g.
Proof. intros Ht Hs. unfold on_settled. now rewrite Ht, Hs. Qed.

(** *** Failures that reach the [catch] block *)

Lemma on_settled_caught (item : SyncQueueItem) (r : Response) (g : Global) :
  caught item r = true -> on_settled item r g = on_catch item g.
Proof.
  unfold caught, on_settled. destruct r as [|s]; [reflexivity|].
  destruct (type item), (ok s); try discriminate; reflexivity.
Qed.

Lemma on_catch_frame (item : SyncQueueItem) (g : Global) :
  onLine (on_catch item g) = onLine g
  /\ isProcessing (on_catch item g) = isProcessing g
  /\ (sorted (db g) -> sorted (db (on_catch item g)))
  /\ (forall e, In e (trace g) -> In e (trace (on_catch item g)))
  /\ (forall k, id item <> k -> get k (db (on_catch item g)) = get k (db g)).
Proof.
  unfold on_catch, removeFromSyncQueue.
  destruct (5 <=? retries item);
    cbn [onLine isProcessing db trace log with_db];
    (split; [reflexivity|]); (split; [reflexivity|]); split; [|split| |split].
  - intros H. now apply sorted_delete, sorted_update.
  - intros e He. rewrite !in_app_iff. auto.
  - intros k Hk. now rewrite get_delete_other, get_update_other.
  - intros H. now apply sorted_update.
  - intros e He. rewrite !in_app_iff. auto.
  - intros k Hk. now rewrite get_update_other.
Qed.

Lemma sync_item_frame (tid : nat) (backend : SyncQueueItem -> Response)
    (item : SyncQueueItem) (g : Global) :
  onLine (sync_item tid backend item g) = onLine g
  /\ isProcessing (sync_item tid backend item g) = isProcessing g
  /\ (sorted (db g) -> sorted (db (sync_item tid backend item g)))
  /\ (forall e, In e (trace g) -> In e (trace (sync_item tid backend item g)))
  /\ (forall k, id item <> k ->
        get k (db (sync_item tid backend item g)) = get k (db g)).
Proof.
  unfold sync_item, on_settled, removeFromSyncQueue.
  set (g1 := log (Fetch tid (endpoint (type item)) item) g).
  assert (Hin : forall e, In e (trace g) -> In e (trace g1)).
  { intros e He. cbn. rewrite in_app_iff. now left. }
  destruct (on_catch_frame item g1) as (H1 & H2 & H3 & H4 & H5).
  assert (Hcatch : onLine (on_catch item g1) = onLine g
                   /\ isProcessing (on_catch item g1) = isProcessing g
                   /\ (sorted (db g) -> sorted (db (on_catch item g1)))
                   /\ (forall e, In e (trace g) -> In e (trace (on_catch item g1)))
                   /\ (forall k, id item <> k ->
                         get k (db (on_catch item g1)) = get k (db g))).
  { repeat split; auto. }
  destruct (backend item) as [|s]; [exact Hcatch|].
  destruct (type item), (ok s); try exact Hcatch;
    cbn [onLine isProcessing db trace log with_db];
    (split; [reflexivity|]); (split; [reflexivity|]); (split; [|split]).
  - intros H. now apply sorted_delete.
  - intros e He. rewrite in_app_iff. left. now apply Hin.
  - intros k Hk. now apply get_delete_other.
  - intros H. now apply sorted_delete.
  - exact Hin.
  - intros k Hk. now apply get_delete_other.
  - auto.
  - exact Hin.
  - reflexivity.
Qed.

Lemma replay_frame (tid : nat) (backend : SyncQueueItem -> Response)
    (q : list SyncQueueItem) :
  forall g,
    onLine (replay tid backend q g) = onLine g
    /\ isProcessing (replay tid backend q g) = isProcessing g
    /\ (sorted (db g) -> sorted (db (replay tid backend q g)))
    /\ (forall e, In e (trace g) -> In e (trace (replay tid backend q g)))
    /\ (forall k, (forall y, In y q -> id y <> k) ->
          get k (db (replay tid backend q g)) = get k (db g)).
Proof.
  induction q as [|item q IH]; intros g; cbn [replay]; [repeat split; auto|].
  destruct (sync_item_frame tid backend item g) as (H1 & H2 & H3 & H4 & H5).
  destruct (IH (sync_item tid backend item g)) as (I1 & I2 & I3 & I4 & I5).
  repeat split.
  - congruence.
  - congruence.
  - auto.
  - auto.
  - intros k Hk. rewrite I5, H5; auto.
    + apply Hk. now left.
    + intros y Hy. apply Hk. now right.
Qed.

Lemma replay_app (tid : nat) (backend : SyncQueueItem -> Response)
    (q1 q2 : list SyncQueueItem) (g : Global) :
  replay tid backend (q1 ++ q2) g = replay tid backend q2 (replay tid backend q1 g).
Proof. revert g. induction q1 as [|x q1 IH]; intros g; cbn; auto. Qed.

(** The [catch] block counts the failure, and removes and reports the record
    when five failures were counted before. *)
Lemma on_catch_counts (x : SyncQueueItem) (g : Global) :
  get (id x) (db g) = Some x ->
  (retries x < 5 ->
     get (id x) (db (on_catch x g)) = Some (with_retries (S (retries x)) x))
  /\ (5 <= retries x ->
        get (id x) (db (on_catch x g)) = None
        /\ In (LogRemoved (id x)) (trace (on_catch x g))).
Proof.
  intros Hget. unfold on_catch. split; intros Hr.
  - apply Nat.leb_gt in Hr. rewrite Hr. cbn [db with_db log].
    unfold updateSyncQueueItem. rewrite Hget.
    rewrite Nat.add_1_r.
    change (spread x (only_retries (S (retries x))))
      with (with_retries (S (retries x)) x).
    apply (get_put_same (with_retries (S (retries x)) x)).
  - apply Nat.leb_le in Hr. rewrite Hr. cbn [db with_db log trace]. split.
    + apply get_delete.
    + rewrite in_app_iff. right. now left.
Qed.

(** One drain in which the request for [x] fails into the [catch] block. *)
Lemma drain_caught (tid : nat) (backend : SyncQueueItem -> Response)
    (g : Global) (x : SyncQueueItem) :
  sorted (db g) -> isProcessing g = false -> onLine g = true ->
  In x (db g) -> caught x (backend x) = true ->
  let g' := processSyncQueue tid backend g in
  sorted (db g') /\ isProcessing g' = false /\ onLine g' = true
  /\ fetched (trace g') = fetched (trace g) ++ db g
  /\ (forall e, In e (trace g) -> In e (trace g'))
  /\ (retries x < 5 ->
        get (id x) (db g') = Some (with_retries (S (retries x)) x))
  /\ (5 <= retries x ->
        get (id x) (db g') = None /\ In (LogRemoved (id x)) (trace g')).
Proof.
  intros Hs Hp Ho Hin Hc g'. subst g'.
  unfold processSyncQueue. rewrite Hp, Ho. cbn [negb].
  set (g1 := log (ReadQueue tid) (set_processing true g)).
  assert (Hdb1 : db g1 = db g) by reflexivity.
  rewrite Hdb1. unfold getSyncQueue.
  destruct (replay_frame tid backend (db g) g1) as (R1 & R2 & R3 & R4 & _).
  cbn [set_processing db isProcessing onLine trace].
  split; [now apply R3|]. split; [reflexivity|]. split; [now rewrite R1|].
  split.
  { rewrite fetched_replay. subst g1. cbn [trace log set_processing].
    rewrite fetched_app. cbn. now rewrite app_nil_r. }
  split.
  { intros e He. apply R4. subst g1. cbn. rewrite in_app_iff. now left. }
  (* the record of [x] across the loop *)
  pose proof (sorted_NoDup (db g) Hs) as Hnd.
  destruct (in_split x (db g) Hin) as (l1 & l2 & Hsplit).
  rewrite Hsplit in Hnd |- *.
  rewrite map_app in Hnd. cbn [map] in Hnd.
  assert (Hl1 : forall y, In y l1 -> id y <> id x).
  { intros y Hy E. apply NoDup_remove_2 in Hnd. apply Hnd.
    rewrite in_app_iff. left. rewrite <- E. now apply in_map. }
  assert (Hl2 : forall y, In y l2 -> id y <> id x).
  { intros y Hy E. apply NoDup_remove_2 in Hnd. apply Hnd.
    rewrite in_app_iff. right. rewrite <- E. now apply in_map. }
  rewrite replay_app. cbn [replay].
  set (ga := replay tid backend l1 g1).
  destruct (replay_frame tid backend l1 g1) as (_ & _ & _ & _ & A5).
  assert (Hga : get (id x) (db ga) = Some x).
  { subst ga. rewrite A5 by exact Hl1. rewrite Hdb1. now apply get_In. }
  unfold sync_item. rewrite on_settled_caught by exact Hc.
  set (gb := log (Fetch tid (endpoint (type x)) x) ga).
  destruct (on_catch_counts x gb Hga) as [Hlt Hge].
  destruct (replay_frame tid backend l2 (on_catch x gb)) as (_ & _ & _ & B4 & B5).
  split.
  - intros Hr. rewrite B5 by exact Hl2. now apply Hlt.
  - intros Hr. destruct (Hge Hr) as [Hnone Hlog]. split.
    + rewrite B5 by exact Hl2. exact Hnone.
    + now apply B4.
Qed.

Lemma fetched_drain (tid : nat) (backend : SyncQueueItem -> Response) (g : Global) :
  fetched (trace (processSyncQueue tid backend g))
  = fetched (trace g)
      ++ (if isProcessing g then [] else if onLine g then db g else []).
Proof.
  unfold processSyncQueue.
  destruct (isProcessing g); [now rewrite app_nil_r|].
  destruct (onLine g); cbn [negb]; [|now rewrite app_nil_r].
  cbn [set_processing trace]. rewrite fetched_replay.
  cbn [trace log set_processing db getSyncQueue].
  rewrite fetched_app. cbn. now rewrite app_nil_r.
Qed.

(** When the clock reading gains a digit, the later identifier is the
    smaller key. *)
Example wider_clock_sorts_first :
  String.compare (make_id 9999999999999 "a81hd02ms") (make_id 10000000000000 "a81hd02ms")
  = Gt.
Proof. vm_compute. reflexivity. Qed.

Lemma ascending_of_clock (es : list Enq) :
  clock_advances es -> ascending (map new_id es).
Proof.
  unfold clock_advances, ascending.
  induction 1 as [|e es Hs IH He]; cbn [map]; constructor; [exact IH|].
  rewrite Forall_forall in *. intros k Hk.
  apply in_map_iff in Hk as (e' & <- & He').
  destruct (He e' He') as [Hlt Hlen].
  now apply make_id_lt.
Qed.

(** A drain stores no record under a key that was absent. *)
Lemma drain_absent (tid : nat) (backend : SyncQueueItem -> Response)
    (g : Global) (k : string) :
  get k (db g) = None -> get k (db (processSyncQueue tid backend g)) = None.
Proof.
  intros Hnone. unfold processSyncQueue.
  destruct (isProcessing g); [exact Hnone|].
  destruct (onLine g); cbn [negb]; [|exact Hnone].
  cbn [set_processing db getSyncQueue log].
  destruct (replay_frame tid backend (db g)
              (log (ReadQueue tid) (set_processing true g))) as (_ & _ & _ & _ & H).
  rewrite H; [exact Hnone|].
  now apply get_None_In.
Qed.

Lemma with_retries_own (x : SyncQueueItem) : with_retries (retries x) x = x.
Proof. now destruct x. Qed.

(** Drains in which the request for [x] keeps failing into the [catch]
    block, as long as fewer than five failures were counted: each drain
    requests the record once and adds one to its retry count. *)
Lemma drains_counting (tid : nat) (x : SyncQueueItem)
    (bs : list (SyncQueueItem -> Response)) :
  (forall b n, In b bs -> caught (with_retries n x) (b (with_retries n x)) = true) ->
  forall (g : Global) (n : nat),
    n + List.length bs <= 5 ->
    sorted (db g) -> isProcessing g = false -> onLine g = true ->
    In (with_retries n x) (db g) ->
    let g' := drains tid bs g in
    sorted (db g') /\ isProcessing g' = false /\ onLine g' = true
    /\ In (with_retries (n + List.length bs) x) (db g')
    /\ filter (has_key (id x)) (fetched (trace g'))
       = filter (has_key (id x)) (fetched (trace g))
           ++ map (fun m => with_retries m x) (seq n (List.length bs))
    /\ (forall e, In e (trace g) -> In e (trace g')).
Proof.
  induction bs as [|b bs IH]; intros Hc g n Hn Hs Hp Ho Hin.
  - cbn. rewrite Nat.add_0_r, app_nil_r. repeat split; auto.
  - cbn [List.length] in Hn.
    destruct (drain_caught tid b g (with_retries n x) Hs Hp Ho Hin)
      as (Hs1 & Hp1 & Ho1 & Hf1 & Ht1 & Hlt & _).
    { apply Hc. now left. }
    assert (Hget : get (id x) (db (processSyncQueue tid b g))
                   = Some (with_retries (S n) x)).
    { apply Hlt. cbn. lia. }
    destruct (get_Some_id _ _ _ Hget) as [_ Hin1].
    destruct (IH (fun b' m Hb => Hc b' m (or_intror Hb))
                 (processSyncQueue tid b g) (S n)) as (A & B & C & D & E & F);
      auto; [lia|].
    cbn [drains fold_left List.length seq map].
    change (fold_left (fun g0 b0 => processSyncQueue tid b0 g0) bs
              (processSyncQueue tid b g))
      with (drains tid bs (processSyncQueue tid b g)).
    repeat split; auto.
    + now rewrite Nat.add_succ_r.
    + rewrite E, Hf1, filter_app, <- app_assoc. f_equal.
      unfold has_key.
      rewrite (filter_key (id x) (with_retries n x) (db g) Hs); [reflexivity|].
      now apply (get_In (with_retries n x)).
Qed.

(** A record whose request fails into the [catch] block in six successive
    drains is requested in each of them, with retry counts 0 to 5, is removed
    from the store by the sixth, the removal being reported, and is requested
    by no later drain. *)
Lemma caught_six_times_evicted (tid : nat) (x : SyncQueueItem)
    (bs : list (SyncQueueItem -> Response)) (b6 : SyncQueueItem -> Response)
    (g : Global) :
  List.length bs = 5 ->
  (forall b n, In b (bs ++ [b6]) ->
     caught (with_retries n x) (b (with_retries n x)) = true) ->
  sorted (db g) -> isProcessing g = false -> onLine g = true ->
  In x (db g) -> retries x = 0 ->
  let g6 := drains tid (bs ++ [b6]) g in
  get (id x) (db g6) = None
  /\ In (LogRemoved (id x)) (trace g6)
  /\ filter (has_key (id x)) (fetched (trace g6))
     = filter (has_key (id x)) (fetched (trace g))
         ++ map (fun m => with_retries m x) [0; 1; 2; 3; 4; 5]
  /\ (forall later,
        filter (has_key (id x)) (fetched (trace (drains tid later g6)))
        = filter (has_key (id x)) (fetched (trace g6))).
Proof.
  intros Hlen Hc Hs Hp Ho Hin Hr g6.
  assert (Hx : with_retries 0 x = x) by (rewrite <- Hr; apply with_retries_own).
  destruct (drains_counting tid x bs (fun b n Hb => Hc b n (in_or_app _ _ _ (or_introl Hb)))
              g 0) as (Hs5 & Hp5 & Ho5 & Hin5 & Hf5 & Ht5); auto.
  { lia. }
  { now rewrite Hx. }
  rewrite Hlen in Hin5, Hf5. cbn [Nat.add] in Hin5.
  set (g5 := drains tid bs g) in *.
  assert (Hg6 : g6 = processSyncQueue tid b6 g5).
  { subst g6 g5. unfold drains. now rewrite fold_left_app. }
  destruct (drain_caught tid b6 g5 (with_retries 5 x) Hs5 Hp5 Ho5 Hin5)
    as (Hs6 & Hp6 & Ho6 & Hf6 & Ht6 & _ & Hge).
  { apply Hc. rewrite in_app_iff. right. now left. }
  destruct Hge as [Hnone Hlog]; [cbn; lia|].
  rewrite <- Hg6 in *. cbn [id with_retries] in Hnone, Hlog.
  split; [exact Hnone|]. split; [exact Hlog|]. split.
  - rewrite Hf6, filter_app, Hf5, <- app_assoc. f_equal.
    unfold has_key.
    rewrite (filter_key (id x) (with_retries 5 x) (db g5) Hs5); [reflexivity|].
    now apply (get_In (with_retries 5 x)).
  - intros later. revert Hnone. generalize g6. clear.
    induction later as [|b later IH]; intros g Hnone; [reflexivity|].
    cbn [drains fold_left].
    change (fold_left (fun g0 b0 => processSyncQueue tid b0 g0) later
              (processSyncQueue tid b g))
      with (drains tid later (processSyncQueue tid b g)).
    assert (Hstep : filter (has_key (id x)) (fetched (trace (processSyncQueue tid b g)))
                    = filter (has_key (id x)) (fetched (trace g))).
    { rewrite fetched_drain, filter_app.
      destruct (isProcessing g); [now rewrite app_nil_r|].
      destruct (onLine g); [|now rewrite app_nil_r].
      unfold has_key. rewrite (filter_key_none (id x) (db g) Hnone).
      now rewrite app_nil_r. }
    rewrite IH; [exact Hstep|]. now apply drain_absent.
Qed.

(** C4: the code at the failing input.  A queued waiter call is answered with
    status 500: the drain makes the request and then leaves the record as it
    was, retry count 0 included, and logs no failure. *)
Theorem C4_waiterCall_http_error_not_counted :
  let g := processSyncQueue 0 (fun _ => Http 500)
             (mkGlobal false true [a_waiter_call] []) in
  ok 500 = false
  /\ db g = [a_waiter_call]
  /\ retries a_waiter_call = 0
  /\ trace g = [ReadQueue 0; Fetch 0 "/api/waiter-calls" a_waiter_call].
Proof. vm_compute. repeat split. Qed.

(** C3: the code at the failing input.  A queued waiter call is answered with
    status 500 in seven successive drains: it is requested seven times, is
    still in the queue and no removal is reported. *)
Theorem C3_waiterCall_never_evicted :
  let g := drains 0 (repeat (fun _ => Http 500) 7)
             (mkGlobal false true [a_waiter_call] []) in
  db g = [a_waiter_call]
  /\ fetched (trace g) = repeat a_waiter_call 7
  /\ ~ In (LogRemoved (id a_waiter_call)) (trace g).
Proof.
  vm_compute. repeat split.
  intros H. repeat (destruct H as [H|H]; [discriminate H|]). exact H.
Qed.

(** The same seven drains for an order: the sixth failure removes the record
    and reports it, and the seventh drain requests nothing. *)
Example order_evicted_after_six_failures :
  let g6 := drains 0 (repeat (fun _ => Http 500) 6)
              (mkGlobal false true [an_order] []) in
  let g7 := processSyncQueue 0 (fun _ => Http 500) g6 in
  db g6 = []
  /\ map retries (fetched (trace g6)) = [0; 1; 2; 3; 4; 5]
  /\ In (LogRemoved (id an_order)) (trace g6)
  /\ fetched (trace g7) = fetched (trace g6).
Proof.
  vm_compute. repeat split.
  repeat (first [left; reflexivity | right]).
Qed.

(** C8, as stated, fails: two orders enqueued within one millisecond are
    replayed in the order of their random suffixes. *)
Lemma C8_counterexample :
  ~ (forall (es : list Enq) (backend : SyncQueueItem -> Response) (tid : nat),
        accepts_all backend ->
        let g := processSyncQueue tid backend
                   (mkGlobal false true (enqueue_all es []) []) in
        fetched (trace g) = map item_of es /\ db g = []).
Proof.
  intros H.
  destruct (H [same_ms_first; same_ms_second] (fun _ => Http 200) 0) as [Hf _].
  - intros item. exists 200%Z. split; reflexivity.
  - vm_compute in Hf. discriminate Hf.
Qed.

(** C8 (amended): a drain replays the queued mutations in ascending order of
    their identifiers, the key order of the object store; that order is the
    enqueue order whenever every mutation was enqueued under an identifier
    above those enqueued before it, in particular whenever the clock
    readings of successive enqueues strictly increase and keep their number
    of digits; and if the backend accepts every request, each queued
    mutation is requested exactly once and the queue is empty afterwards. *)
Theorem C8_replay_in_key_order :
  forall (es : list Enq) (backend : SyncQueueItem -> Response) (tid : nat),
    accepts_all backend ->
    let q := enqueue_all es [] in
    let g := processSyncQueue tid backend (mkGlobal false true q []) in
    fetched (trace g) = q
    /\ sorted q
    /\ db g = []
    /\ (ascending (map new_id es) -> q = map item_of es)
    /\ (clock_advances es -> q = map item_of es).
Proof.
  intros es backend tid Hacc q g. subst g.
  unfold processSyncQueue. cbn [isProcessing onLine negb].
  cbn [set_processing log db trace getSyncQueue].
  assert (Hasc : ascending (map new_id es) -> q = map item_of es).
  { intros Hasc. subst q. now rewrite enqueue_all_ascending. }
  repeat split.
  - rewrite fetched_replay. reflexivity.
  - apply sorted_enqueue_all, sorted_nil.
  - rewrite db_replay_accepted by assumption. cbn [db].
    apply delete_all. intros y Hy. now apply in_map.
  - exact Hasc.
  - intros Hclock. now apply Hasc, ascending_of_clock.
Qed.

(** Three orders enqueued in three successive milliseconds and accepted by
    the backend: they are requested in the order of enqueueing and the queue
    is emptied. *)
Lemma C8_replay_in_key_order_witness :
  let q := enqueue_all three_orders [] in
  let g := processSyncQueue 0 (fun _ => Http 200) (mkGlobal false true q []) in
  fetched (trace g) = map item_of three_orders /\ db g = [].
Proof.
  destruct (C8_replay_in_key_order three_orders (fun _ => Http 200) 0)
    as (Hf & _ & Hd & _ & Ho).
  - intros item. exists 200%Z. split; reflexivity.
  - split; [|exact Hd]. rewrite Hf. apply Ho.
    unfold clock_advances, three_orders.
    repeat constructor.
Defined.

End BackgroundSyncFacts.

(** ** The push channel client *)

Module WebSocketSyncFacts.
Import WebSocketSync.

Lemma scheduled_app (a b : list Effect) : scheduled (a ++ b) = scheduled a ++ scheduled b.
Proof. unfold scheduled. apply flat_map_app. Qed.

Lemma ws_exec_app (ls1 ls2 : list Label) (st : State) :
  exec (ls1 ++ ls2) st = exec ls2 (exec ls1 st).
Proof. unfold exec. apply fold_left_app. Qed.

(** [attemptReconnect] below the ceiling: attempt [n + 1] is scheduled after
    [delay_of (n + 1)]. *)
Lemma attemptReconnect_below (st : State) :
  reconnectAttempts st < maxReconnectAttempts ->
  attemptReconnect st
  = mkState (ws st) (S (reconnectAttempts st)) (isConnecting st) (sockets st)
            (timers st ++ [delay_of (S (reconnectAttempts st))])
            (effects st ++ [SetTimeout (delay_of (S (reconnectAttempts st)))]).
Proof.
  intros H. unfold attemptReconnect.
  apply Nat.leb_gt in H. now rewrite H.
Qed.

(** [attemptReconnect] at the ceiling schedules nothing. *)
Lemma attemptReconnect_at_ceiling (st : State) :
  maxReconnectAttempts <= reconnectAttempts st ->
  attemptReconnect st = note LogMaxAttempts st.
Proof.
  intros H. unfold attemptReconnect.
  apply Nat.leb_le in H. now rewrite H.
Qed.

Lemma step_close (s : nat) (failed : bool) (st : State) :
  closable s st ->
  step (SockClose s failed) st
  = onclose (if failed
             then onerror (set_sockets (set_nth s CLOSED (sockets st)) st)
             else set_sockets (set_nth s CLOSED (sockets st)) st).
Proof.
  intros (r & Hr & Hne). cbn [step]. rewrite Hr.
  destruct r; try reflexivity. now destruct Hne.
Qed.

Lemma delay_of_mono (n m : nat) : n <= m -> (delay_of n <= delay_of m)%Z.
Proof. unfold delay_of, reconnectDelay. lia. Qed.

Lemma delay_of_bounds (n : nat) : 1 <= n -> (2000 <= delay_of n <= 10000)%Z.
Proof. unfold delay_of, reconnectDelay. lia. Qed.

(** After the ceiling was reached with every socket closed and no retry
    pending, further closings and timers find nothing to do. *)
Lemma exhausted_stable (st : State) :
  timers st = [] ->
  Forall (fun r => r = CLOSED) (sockets st) ->
  forall is_, exec (flat_map failure is_) st = st.
Proof.
  intros Ht Hc is_. induction is_ as [|i is_ IH]; [reflexivity|].
  cbn [flat_map failure app exec fold_left]. cbn [step].
  assert (Hi : match readyState i st with
               | Some CLOSED | None => True
               | Some _ => False
               end).
  { unfold readyState. destruct (nth_error (sockets st) i) as [r|] eqn:E; [|exact I].
    apply nth_error_In in E. rewrite Forall_forall in Hc.
    now rewrite (Hc r E). }
  destruct (readyState i st) as [[| | |]|]; try destruct Hi.
  - rewrite Ht. cbn [nth_error]. exact IH.
  - rewrite Ht. destruct i; cbn [nth_error]; exact IH.
Qed.

Lemma emit_fields (t : string) (p : option json) (st : State) :
  reconnectAttempts (emit t p st) = reconnectAttempts st
  /\ timers (emit t p st) = timers st
  /\ scheduled (effects (emit t p st)) = scheduled (effects st).
Proof.
  unfold emit. cbn. rewrite scheduled_app. cbn. now rewrite app_nil_r.
Qed.

(** At the ceiling no call of [connect()] schedules a retry or lowers the
    counter. *)
Lemma connect_at_ceiling (throws : bool) (st : State) :
  maxReconnectAttempts <= reconnectAttempts st ->
  maxReconnectAttempts <= reconnectAttempts (connect throws st)
  /\ scheduled (effects (connect throws st)) = scheduled (effects st).
Proof.
  intros H. unfold connect.
  destruct (isConnected st || isConnecting st).
  - cbn. rewrite scheduled_app. cbn. now rewrite app_nil_r.
  - destruct throws.
    + rewrite attemptReconnect_at_ceiling by exact H.
      cbn. rewrite scheduled_app. cbn. now rewrite app_nil_r.
    + cbn. rewrite scheduled_app. cbn. now rewrite app_nil_r.
Qed.

Lemma close_socket_fields (s : nat) (st : State) :
  reconnectAttempts (close_socket s st) = reconnectAttempts st
  /\ effects (close_socket s st) = effects st.
Proof.
  unfold close_socket. destruct (readyState s st) as [[| | |]|]; auto.
Qed.

(** At the ceiling only a successful opening changes what is scheduled. *)
Lemma step_at_ceiling (l : Label) (st : State) :
  maxReconnectAttempts <= reconnectAttempts st ->
  (forall s, l <> SockOpen s) ->
  maxReconnectAttempts <= reconnectAttempts (step l st)
  /\ scheduled (effects (step l st)) = scheduled (effects st).
Proof.
  intros H Hl.
  destruct l as [throws| |k throws|s|s parsed|s failed]; cbn [step].
  - now apply connect_at_ceiling.
  - unfold disconnect. destruct (ws st) as [s|]; cbn.
    + split; [reflexivity|].
      now destruct (close_socket_fields s st) as [_ ->].
    + auto.
  - destruct (nth_error (timers st) k); [|auto].
    apply (connect_at_ceiling throws (set_timers (remove_nth k (timers st)) st)).
    exact H.
  - now destruct (Hl s).
  - destruct (readyState s st) as [[| | |]|]; auto.
    unfold onmessage. destruct parsed as [[| | | | |fields]|]; auto;
      try (cbn; rewrite scheduled_app; cbn; now rewrite app_nil_r).
    destruct (assoc "type" fields) as [[| | |t| |]|]; auto.
    destruct (emit_fields t (assoc "data" fields) st) as (-> & _ & ->). auto.
  - assert (Hclose : forall st0,
               maxReconnectAttempts <= reconnectAttempts st0 ->
               maxReconnectAttempts <= reconnectAttempts (onclose st0)
               /\ scheduled (effects (onclose st0)) = scheduled (effects st0)).
    { intros st0 H0. unfold onclose.
      rewrite attemptReconnect_at_ceiling by exact H0.
      cbn. rewrite !scheduled_app. cbn. now rewrite !app_nil_r. }
    destruct (readyState s st) as [[| | |]|]; auto;
      destruct failed;
      match goal with |- context [onclose ?x] =>
        destruct (Hclose x) as [H1 H2]; [exact H|]; split; [exact H1|];
        rewrite H2; cbn; rewrite ?scheduled_app; cbn; now rewrite ?app_nil_r
      end.
Qed.

Lemma failures_beyond (m : nat) :
  exec (failures (11 + m)) init = exec (failures 11) init.
Proof.
  unfold failures. rewrite seq_app, flat_map_app.
  change (exec ((CallConnect false :: flat_map failure (seq 0 11))
                  ++ flat_map failure (seq (0 + 11) m)) init
          = exec (failures 11) init).
  rewrite ws_exec_app. apply exhausted_stable.
  - vm_compute. reflexivity.
  - vm_compute. repeat constructor.
Qed.

(** C5: after a closing of the channel with [n - 1 < 10] attempts made, the
    client counts attempt [n] and schedules it after
    [reconnectDelay * min n 5] milliseconds, having emitted the disconnected
    status; the delays never decrease and never exceed 10000; once 10
    attempts are counted, nothing but a successful opening schedules a retry
    or lowers the counter; a successful opening resets the counter to 0 and
    emits the connected status; and in a run of [k] consecutive failed
    attempts the delays scheduled are those of attempts 1 to [min k 10]. *)
Theorem C5_reconnect_backoff :
  (forall (st : State) (s : nat) (failed : bool),
      closable s st -> reconnectAttempts st < 10 ->
      let n := S (reconnectAttempts st) in
      let st' := step (SockClose s failed) st in
      reconnectAttempts st' = n
      /\ timers st' = timers st ++ [delay_of n]
      /\ scheduled (effects st') = scheduled (effects st) ++ [delay_of n]
      /\ delay_of n = (2000 * Z.of_nat (Nat.min n 5))%Z
      /\ In (Emit "connection" (status "disconnected")) (effects st'))
  /\ (forall n m : nat, 1 <= n -> n <= m -> (delay_of n <= delay_of m <= 10000)%Z)
  /\ (forall (l : Label) (st : State),
        10 <= reconnectAttempts st -> (forall s, l <> SockOpen s) ->
        10 <= reconnectAttempts (step l st)
        /\ scheduled (effects (step l st)) = scheduled (effects st))
  /\ (forall (st : State) (s : nat),
        readyState s st = Some CONNECTING ->
        let st' := step (SockOpen s) st in
        reconnectAttempts st' = 0
        /\ In (Emit "connection" (status "connected")) (effects st'))
  /\ (forall k : nat,
        scheduled (effects (exec (failures k) init))
        = map delay_of (seq 1 (Nat.min k 10))).
Proof.
  split; [|split; [|split; [|split]]].
  - intros st s failed Hc Hn n st'. subst st'.
    rewrite (step_close s failed st Hc). unfold onclose.
    rewrite attemptReconnect_below by (destruct failed; exact Hn).
    destruct failed; cbn; rewrite !scheduled_app; cbn; rewrite ?app_nil_r;
      repeat split; try reflexivity;
      rewrite !in_app_iff; cbn; tauto.
  - intros n m Hn Hnm. split.
    + now apply delay_of_mono.
    + apply delay_of_bounds. lia.
  - exact step_at_ceiling.
  - intros st s Hs st'. subst st'. cbn [step]. rewrite Hs.
    unfold onopen. cbn. split; [reflexivity|].
    rewrite in_app_iff. cbn. tauto.
  - intros k.
    destruct (Nat.le_gt_cases k 10) as [Hk|Hk].
    + do 11 (destruct k as [|k]; [vm_compute; reflexivity|]). lia.
    + assert (Hm : exists m, k = 11 + m) by (exists (k - 11); lia).
      destruct Hm as [m ->].
      replace (Nat.min (11 + m) 10) with 10 by lia.
      rewrite failures_beyond. vm_compute. reflexivity.
Qed.

(** A first failure schedules attempt 1 after 2000 ms; the opening of the
    first socket leaves the counter at 0; and after ten failures an eleventh
    schedules nothing. *)
Lemma C5_reconnect_backoff_witness :
  let st := exec [CallConnect false] init in
  let st' := step (SockClose 0 true) st in
  let worn := exec (failures 10) init in
  (reconnectAttempts st' = 1
   /\ timers st' = timers st ++ [delay_of 1]
   /\ scheduled (effects st') = scheduled (effects st) ++ [delay_of 1]
   /\ delay_of 1 = (2000 * Z.of_nat (Nat.min 1 5))%Z
   /\ In (Emit "connection" (status "disconnected")) (effects st'))
  /\ (reconnectAttempts (step (SockOpen 0) st) = 0
      /\ In (Emit "connection" (status "connected")) (effects (step (SockOpen 0) st)))
  /\ (10 <= reconnectAttempts (step (SockClose 10 true) worn)
      /\ scheduled (effects (step (SockClose 10 true) worn)) = scheduled (effects worn)).
Proof.
  destruct C5_reconnect_backoff as (Hclose & _ & Hceiling & Hopen & _).
  split; [|split].
  - apply (Hclose (exec [CallConnect false] init) 0 true).
    + exists CONNECTING. split; [reflexivity|discriminate].
    + cbn. lia.
  - apply (Hopen (exec [CallConnect false] init) 0). reflexivity.
  - apply (Hceiling (SockClose 10 true) (exec (failures 10) init)).
    + vm_compute. lia.
    + discriminate.
Defined.

(** After [disconnect()] a closing of the channel schedules no retry: the
    counter stands at the ceiling. *)
Lemma disconnect_blocks_scheduling (st : State) (s : nat) (failed : bool) :
  scheduled (effects (step (SockClose s failed) (disconnect st)))
  = scheduled (effects st).
Proof.
  assert (Hc : maxReconnectAttempts <= reconnectAttempts (disconnect st))
    by (unfold disconnect; cbn; reflexivity).
  assert (Hl : forall s0, SockClose s failed <> SockOpen s0) by discriminate.
  destruct (step_at_ceiling (SockClose s failed) (disconnect st) Hc Hl) as [_ ->].
  unfold disconnect. destruct (ws st) as [w|]; cbn; [|reflexivity].
  now destruct (close_socket_fields w st) as [_ ->].
Qed.

(** C6: the code at the failing input.  The channel fails and a retry is
    scheduled; [disconnect()] is called; the retry that was pending fires all
    the same, constructs a second socket, and when that socket opens the
    client is connected again with the attempt counter back at 0. *)
Theorem C6_pending_retry_reconnects :
  let before := exec [CallConnect false; SockClose 0 true] init in
  let stopped := step CallDisconnect before in
  let after := exec [TimerFires 0 false; SockOpen 1] stopped in
  timers before = [2000%Z]
  /\ new_sockets (effects stopped) = [0]
  /\ reconnectAttempts stopped = maxReconnectAttempts
  /\ timers stopped = [2000%Z]
  /\ new_sockets (effects after) = [0; 1]
  /\ isConnected after = true
  /\ reconnectAttempts after = 0.
Proof. vm_compute. repeat split. Qed.

(** C9, as stated, fails: when the browser fails the connection, [onerror]
    emits the status ["error"]. *)
Lemma C9_counterexample :
  ~ (forall (ls : list Label) (payload : option json),
        In (Emit "connection" payload) (effects (exec ls init)) ->
        three_valued payload).
Proof.
  intros H.
  destruct (H [CallConnect false; SockClose 0 true] (status "error"))
    as [E|[E|E]]; try discriminate E.
  vm_compute. right. left. reflexivity.
Qed.

Lemma in_snoc_silent (x : Effect) (es : list Effect) (t : string) (p : option json) :
  silent x -> In (Emit t p) (es ++ [x]) -> In (Emit t p) es.
Proof.
  intros Hx. rewrite in_app_iff. intros [H|[H|[]]]; [exact H|].
  now destruct (Hx t p).
Qed.

Lemma attemptReconnect_effects (st : State) :
  exists x, silent x /\ effects (attemptReconnect st) = effects st ++ [x].
Proof.
  unfold attemptReconnect.
  destruct (maxReconnectAttempts <=? reconnectAttempts st);
    eexists; (split; [|reflexivity]); intros ? ?; discriminate.
Qed.

Lemma connect_effects (throws : bool) (st : State) :
  exists x, silent x /\ effects (connect throws st) = effects st ++ [x].
Proof.
  unfold connect.
  destruct (isConnected st || isConnecting st); [|destruct throws].
  - eexists; (split; [|reflexivity]); intros ? ?; discriminate.
  - apply (attemptReconnect_effects (set_connecting false (set_connecting true st))).
  - eexists; (split; [|reflexivity]); intros ? ?; discriminate.
Qed.

Lemma onclose_effects (st : State) :
  exists x, silent x
    /\ effects (onclose st)
       = (effects st ++ [Emit "connection" (status "disconnected")]) ++ [x].
Proof.
  unfold onclose.
  apply (attemptReconnect_effects
           (emit "connection" (status "disconnected")
                 (set_ws None (set_connecting false st)))).
Qed.

Lemma connection_emitted_step (l : Label) (st : State) (payload : option json) :
  In (Emit "connection" payload) (effects (step l st)) ->
  In (Emit "connection" payload) (effects st)
  \/ emitted_status payload
  \/ forwarded [l] payload.
Proof.
  assert (Hconnect : forall throws st0,
             In (Emit "connection" payload) (effects (connect throws st0)) ->
             In (Emit "connection" payload) (effects st0)).
  { intros throws st0.
    destruct (connect_effects throws st0) as (x & Hx & ->).
    now apply in_snoc_silent. }
  assert (Hclose : forall st0,
             In (Emit "connection" payload) (effects (onclose st0)) ->
             In (Emit "connection" payload) (effects st0)
             \/ payload = status "disconnected").
  { intros st0. destruct (onclose_effects st0) as (x & Hx & ->).
    intros H. apply (in_snoc_silent x) in H; [|exact Hx].
    rewrite in_app_iff in H. destruct H as [H|[H|[]]]; [now left|].
    right. now injection H. }
  destruct l as [throws| |k throws|s|s parsed|s failed]; cbn [step].
  - intros H. left. eauto.
  - intros H. left. unfold disconnect in H.
    destruct (ws st) as [w|]; [|exact H].
    cbn [effects set_attempts set_ws] in H.
    now destruct (close_socket_fields w st) as [_ <-].
  - destruct (nth_error (timers st) k); [|auto].
    intros H. left. apply Hconnect in H. exact H.
  - destruct (readyState s st) as [[| | |]|]; auto.
    unfold onopen, emit. cbn [effects set_connecting set_attempts set_sockets].
    rewrite in_app_iff. intros [H|[H|[]]]; [now left|].
    right. left. left. now injection H.
  - destruct (readyState s st) as [[| | |]|]; auto.
    unfold onmessage. destruct parsed as [[| | | | |fields]|]; auto;
      try (intros H; left; revert H; apply in_snoc_silent; intros ? ?; discriminate).
    destruct (assoc "type" fields) as [[| | |t| |]|] eqn:Et; auto.
    unfold emit. cbn [effects]. rewrite in_app_iff. intros [H|[H|[]]]; [now left|].
    injection H as -> <-. right. right.
    exists s, fields. repeat split; auto. now left.
  - assert (Herr : forall st0,
               In (Emit "connection" payload) (effects (onerror st0)) ->
               In (Emit "connection" payload) (effects st0)
               \/ payload = status "error").
    { intros st0. unfold onerror, emit. cbn [effects set_connecting].
      rewrite in_app_iff. intros [H|[H|[]]]; [now left|].
      right. now injection H. }
    destruct (readyState s st) as [[| | |]|]; auto; destruct failed; intros H;
      apply Hclose in H as [H|H];
      try (right; left; right; left; exact H);
      try (apply Herr in H as [H|H]; [|right; left; right; right; exact H]);
      left; exact H.
Qed.

Lemma connection_emitted_exec (ls : list Label) (payload : option json) :
  forall st,
    In (Emit "connection" payload) (effects (exec ls st)) ->
    In (Emit "connection" payload) (effects st)
    \/ emitted_status payload \/ forwarded ls payload.
Proof.
  induction ls as [|l ls IH]; intros st H; [now left|].
  apply (IH (step l st)) in H as [H|[H|(s & fields & Hin & Ht & Hp)]].
  - apply connection_emitted_step in H as [H|[H|(s & fields & Hin & Ht & Hp)]]; auto.
    right. right. exists s, fields. repeat split; auto.
    destruct Hin as [<-|[]]. now left.
  - auto.
  - right. right. exists s, fields. repeat split; auto. now right.
Qed.

(** The status connecting is emitted only if a message brought it. *)
Lemma connecting_not_emitted (ls : list Label) :
  In (Emit "connection" (status "connecting")) (effects (exec ls init)) ->
  forwarded ls (status "connecting").
Proof.
  intros H. apply connection_emitted_exec in H as [[]|[[E|[E|E]]|H]];
    try discriminate E. exact H.
Qed.

(** C9 (amended): every connection event the client emits carries one of the
    statuses connected, disconnected and error, which its own socket
    callbacks emit, or is a message received with the type ["connection"] and
    forwarded with the data it came with. *)
Theorem C9_connection_statuses :
  forall (ls : list Label) (payload : option json),
    In (Emit "connection" payload) (effects (exec ls init)) ->
    emitted_status payload \/ forwarded ls payload.
Proof.
  intros ls payload H.
  apply connection_emitted_exec in H as [[]|H]. exact H.
Qed.

Lemma C9_connection_statuses_witness :
  emitted_status (status "error")
  \/ forwarded [CallConnect false; SockClose 0 true] (status "error").
Proof.
  apply (C9_connection_statuses [CallConnect false; SockClose 0 true] (status "error")).
  vm_compute. right. left. reflexivity.
Defined.

End WebSocketSyncFacts.

(** ** The change-notification handlers *)

Module DataProviderFacts.
Import AppStore DataProvider.

Lemma NotifType_eqb_refl (ty : NotifType) : NotifType_eqb ty ty = true.
Proof. now destruct ty. Qed.

(** A handler replaces exactly the collection(s) of its type. *)
Lemma view_finish (ty : NotifType) (v : Fetched ty) (s : State) :
  view ty (finish ty v s) = v.
Proof. destruct ty; try reflexivity. now destruct v. Qed.

Lemma is_inflight_In (n : nat) (ty : NotifType) (p : Provider) :
  In (n, ty) (inflight p) -> is_inflight n ty p = true.
Proof.
  intros H. unfold is_inflight. apply existsb_exists.
  exists (n, ty). split; [exact H|].
  cbn. now rewrite Nat.eqb_refl, NotifType_eqb_refl.
Qed.

(** A fetch in flight that settles with a value overwrites the store,
    whatever was issued or has settled before. *)
Lemma complete_inflight (n : nat) (ty : NotifType) (v : Fetched ty) (p : Provider) :
  In (n, ty) (inflight p) ->
  step (Complete n ty (Some v)) p
  = mkProvider (finish ty v (store p))
               (filter (fun e => negb (Nat.eqb (fst e) n)) (inflight p))
               (issued p).
Proof. intros H. cbn [step]. now rewrite (is_inflight_In n ty p H). Qed.

(** C1, as stated, fails: the menu is refetched twice, the later fetch settles
    first with the newer menu, the earlier fetch settles last with the older
    one, and the store ends with the older menu. *)
Lemma C1_counterexample :
  ~ (forall (ty : NotifType) (p : Provider) (v0 v1 : Fetched ty),
        let a := issued p in
        let b := S (issued p) in
        view ty (store (exec [Complete b ty (Some v1); Complete a ty (Some v0)]
                             (twice_notified ty p))) = v1).
Proof.
  intros H.
  specialize (H MENU_UPDATE (mkProvider a_store [] 0) older_menu newer_menu).
  vm_compute in H. discriminate H.
Qed.

(** C1 (amended): for every notification type, when two refetches of its
    collection are issued in order, the collection ends as the result of the
    fetch that settles last: the later-issued one when the fetches settle in
    the order of issue, the earlier-issued one when it settles after the
    later one. *)
Theorem C1_last_completion_wins :
  forall (ty : NotifType) (p : Provider) (v0 v1 : Fetched ty),
    let a := issued p in
    let b := S (issued p) in
    view ty (store (exec [Complete a ty (Some v0); Complete b ty (Some v1)]
                         (twice_notified ty p))) = v1
    /\ view ty (store (exec [Complete b ty (Some v1); Complete a ty (Some v0)]
                            (twice_notified ty p))) = v0.
Proof.
  intros ty p v0 v1 a b.
  assert (Hab : Nat.eqb b a = false) by (apply Nat.eqb_neq; subst a b; lia).
  assert (Hba : Nat.eqb a b = false) by (apply Nat.eqb_neq; subst a b; lia).
  unfold twice_notified. cbn [exec fold_left].
  set (p2 := step (Notify ty) (step (Notify ty) p)).
  assert (Hin : inflight p2 = (inflight p ++ [(a, ty)]) ++ [(b, ty)]) by reflexivity.
  assert (Ha : In (a, ty) (inflight p2)).
  { rewrite Hin, !in_app_iff. left. right. now left. }
  assert (Hb : In (b, ty) (inflight p2)).
  { rewrite Hin, !in_app_iff. right. now left. }
  split.
  - rewrite (complete_inflight a ty v0 p2 Ha).
    rewrite complete_inflight; [apply view_finish|].
    cbn [inflight]. apply filter_In. split; [exact Hb|].
    cbn [fst]. now rewrite Hab.
  - rewrite (complete_inflight b ty v1 p2 Hb).
    rewrite complete_inflight; [apply view_finish|].
    cbn [inflight]. apply filter_In. split; [exact Ha|].
    cbn [fst]. now rewrite Hba.
Qed.

End DataProviderFacts.

(** ** The initial refresh *)

Module BackendSyncFacts.
Import AppStore BackendSync.

Lemma pushed_app (a b : list Effect) : pushed (a ++ b) = pushed a ++ pushed b.
Proof. unfold pushed. apply flat_map_app. Qed.

Lemma push_failures_app (a b : list Effect) :
  push_failures (a ++ b) = push_failures a ++ push_failures b.
Proof. unfold push_failures. apply flat_map_app. Qed.

(** The loop hands every local item to the backend, in order, whatever
    fails. *)
Lemma pushed_push_all (f : json -> bool) (items : list json) :
  pushed (push_all f items) = items.
Proof.
  induction items as [|item items IH]; [reflexivity|].
  cbn [push_all]. rewrite pushed_app, IH. now destruct (f item).
Qed.

(** A failure is logged for exactly the items whose push fails. *)
Lemma push_failures_push_all (f : json -> bool) (items : list json) :
  push_failures (push_all f items) = filter (fun item => negb (f item)) items.
Proof.
  induction items as [|item items IH]; [reflexivity|].
  cbn [push_all filter]. rewrite push_failures_app, IH. now destruct (f item).
Qed.

(** C2, as stated, fails: the backend returns an empty staff collection and
    the store keeps the local staff. *)
Lemma C2_counterexample :
  ~ (forall (snapshot cur : State) (be : Backend) (staff_l : list json),
        r_staff be = Resolved (Some staff_l) ->
        connected (connectToBackend snapshot cur be) = true ->
        staff (state (connectToBackend snapshot cur be)) = staff_l).
Proof.
  intros H.
  specialize (H local_store local_store fresh_backend [] eq_refl eq_refl).
  vm_compute in H. discriminate H.
Qed.

Lemma length_pos (A : Type) (l : list A) : (0 <? List.length l) = true <-> l <> [].
Proof.
  destruct l; cbn; split; intros H; try congruence; try discriminate.
Qed.

(** What a refresh whose fetches all resolve does, in terms of [snapshot],
    the store value the callback closed over, and [cur], the live store. *)
Lemma connect_answering :
  forall (snapshot cur : State) (m o b c : option (list json))
         (staff_l : list json) (se : option json) (e w t : option (list json))
         (create_ok : json -> bool),
    let be := answering m o b c staff_l se e w t create_ok in
    let out := connectToBackend snapshot cur be in
    connected out = true
    /\ orders (state out) = or_empty o
    /\ bills (state out) = or_empty b
    /\ customers (state out) = or_empty c
    /\ expenses (state out) = or_empty e
    /\ waiterCalls (state out) = or_empty w
    /\ transactions (state out) = or_empty t
    /\ staff (state out) = (if 0 <? List.length staff_l then staff_l else staff snapshot)
    /\ settings (state out) = (match se with Some v => Some v | None => settings snapshot end)
    /\ (none_or_empty m = true -> menuItems snapshot <> [] ->
        effects out = [WsConnect; LogSeeding]
                        ++ push_all create_ok (menuItems snapshot) ++ [LogSynced]
        /\ pushed (effects out) = menuItems snapshot
        /\ push_failures (effects out)
           = filter (fun item => negb (create_ok item)) (menuItems snapshot)
        /\ menuItems (state out) = menuItems cur)
    /\ (none_or_empty m = false \/ menuItems snapshot = [] ->
        pushed (effects out) = [] /\ menuItems (state out) = or_empty m).
Proof.
  intros snapshot cur m o b c staff_l se e w t create_ok be out.
  subst out be. unfold connectToBackend, answering.
  cbn [health r_menuItems r_orders r_bills r_customers r_staff r_settings
       r_expenses r_waiterCalls r_transactions BackendSync.create_ok].
  destruct (none_or_empty m) eqn:Hm;
    destruct (0 <? List.length (menuItems snapshot)) eqn:Hl;
    cbn [andb state effects connected merge_common setMenuItems
         menuItems orders bills customers staff settings expenses
         waiterCalls transactions];
    repeat (split; [reflexivity|]).
  - split.
    + intros _ _. rewrite <- app_assoc.
      repeat split.
      * rewrite !pushed_app, pushed_push_all.
        change (pushed [WsConnect; LogSeeding]) with (@nil json).
        change (pushed [LogSynced]) with (@nil json).
        now rewrite app_nil_r.
      * rewrite !push_failures_app, push_failures_push_all.
        change (push_failures [WsConnect; LogSeeding]) with (@nil json).
        change (push_failures [LogSynced]) with (@nil json).
        now rewrite app_nil_r.
    + intros [H|H]; [discriminate H|]. apply length_pos in Hl. now destruct Hl.
  - split.
    + intros _ Hne. apply length_pos in Hne. congruence.
    + intros _. split; reflexivity.
  - split.
    + intros H. discriminate H.
    + intros _. split; reflexivity.
  - split.
    + intros H. discriminate H.
    + intros _. split; reflexivity.
Qed.

(** C2 (amended): in a refresh whose fetches all resolve, with [snapshot]
    the store value the callback closed over and [cur] the live store that
    [setState] writes: if the backend returns no menu item and the snapshot
    holds at least one, every menu item of the snapshot is handed to the
    backend, one by one and in order, a failure being logged for exactly
    the items whose push fails, all before the refresh completes, and the
    menu of the live store is left as it is; in every other case nothing is
    pushed and the live menu is replaced by the backend's value, so a
    snapshot without menu items on a backend without menu items empties the
    live menu, whatever it holds.  Orders, bills, customers, expenses,
    waiter calls and transactions always adopt the backend's value, even
    when it is empty.  Staff adopts the backend's value only when that
    value is not empty, and settings only when the backend returns
    settings; otherwise they are set to the staff and the settings of the
    snapshot.  When the closure is current ([snapshot = cur]) the local
    menu is kept whenever the backend returns no menu item, the local staff
    whenever it returns no staff, and the local settings whenever it
    returns none. *)
Theorem C2_seed_and_adopt :
  forall (snapshot cur : State) (m o b c : option (list json))
         (staff_l : list json) (se : option json) (e w t : option (list json))
         (create_ok : json -> bool),
    let be := answering m o b c staff_l se e w t create_ok in
    let out := connectToBackend snapshot cur be in
    connected out = true
    /\ orders (state out) = or_empty o
    /\ bills (state out) = or_empty b
    /\ customers (state out) = or_empty c
    /\ expenses (state out) = or_empty e
    /\ waiterCalls (state out) = or_empty w
    /\ transactions (state out) = or_empty t
    /\ staff (state out) = (if 0 <? List.length staff_l then staff_l else staff snapshot)
    /\ settings (state out) = (match se with Some v => Some v | None => settings snapshot end)
    /\ (none_or_empty m = true -> menuItems snapshot <> [] ->
        effects out = [WsConnect; LogSeeding]
                        ++ push_all create_ok (menuItems snapshot) ++ [LogSynced]
        /\ pushed (effects out) = menuItems snapshot
        /\ push_failures (effects out)
           = filter (fun item => negb (create_ok item)) (menuItems snapshot)
        /\ menuItems (state out) = menuItems cur)
    /\ (none_or_empty m = false \/ menuItems snapshot = [] ->
        pushed (effects out) = [] /\ menuItems (state out) = or_empty m)
    /\ (none_or_empty m = true -> menuItems snapshot = [] ->
        pushed (effects out) = [] /\ menuItems (state out) = [])
    /\ (snapshot = cur ->
        (none_or_empty m = true -> menuItems (state out) = menuItems cur)
        /\ (staff_l = [] -> staff (state out) = staff cur)
        /\ (se = None -> settings (state out) = settings cur)).
Proof.
  intros snapshot cur m o b c staff_l se e w t create_ok be out.
  destruct (connect_answering snapshot cur m o b c staff_l se e w t create_ok)
    as (Hc & Ho & Hb & Hcu & He & Hw & Ht & Hst & Hse & Hseed & Hadopt).
  fold be in Hc, Ho, Hb, Hcu, He, Hw, Ht, Hst, Hse, Hseed, Hadopt.
  fold out in Hc, Ho, Hb, Hcu, He, Hw, Ht, Hst, Hse, Hseed, Hadopt.
  assert (Hempty : none_or_empty m = true -> or_empty m = []).
  { destruct m as [[|x l]|]; cbn; intros H; try discriminate H; reflexivity. }
  repeat (split; [assumption|]).
  split.
  - intros Hm Hs. destruct Hadopt as [Hp Hmenu]; [now right|].
    split; [exact Hp|]. rewrite Hmenu. now apply Hempty.
  - intros ->. split; [|split].
    + intros Hm. destruct (menuItems cur) as [|x l] eqn:Hl.
      * destruct Hadopt as [_ Hmenu]; [now right|]. rewrite Hmenu. now apply Hempty.
      * destruct Hseed as (_ & _ & _ & Hmenu); [exact Hm|discriminate|exact Hmenu].
    + intros ->. exact Hst.
    + intros ->. exact Hse.
Qed.

(** The scenario of three local menu items and an empty backend that refuses
    the second item, first with a current closure, then with a closure that
    was created when the store was still empty. *)
Lemma C2_seed_and_adopt_witness :
  let out := connectToBackend local_store local_store fresh_backend in
  let stale := connectToBackend empty_store local_store fresh_backend in
  (pushed (effects out) = [JStr "tea"; JStr "coffee"; JStr "momo"]
   /\ push_failures (effects out) = [JStr "coffee"]
   /\ menuItems (state out) = menuItems local_store
   /\ orders (state out) = []
   /\ staff (state out) = [JStr "owner"])
  /\ (connected stale = true
      /\ pushed (effects stale) = []
      /\ menuItems (state stale) = []
      /\ staff (state stale) = []
      /\ settings (state stale) = None).
Proof.
  split.
  - destruct (C2_seed_and_adopt local_store local_store
                (Some []) (Some []) (Some []) (Some []) [] None
                (Some []) (Some []) (Some [])
                (fun item => match item with JStr "coffee" => false | _ => true end))
      as (_ & Ho & _ & _ & _ & _ & _ & Hs & _ & Hseed & _).
    destruct Hseed as (_ & Hp & Hf & Hm); [reflexivity|discriminate|].
    repeat split; assumption.
  - destruct (C2_seed_and_adopt empty_store local_store
                (Some []) (Some []) (Some []) (Some []) [] None
                (Some []) (Some []) (Some [])
                (fun item => match item with JStr "coffee" => false | _ => true end))
      as (Hc & _ & _ & _ & _ & _ & _ & Hs & Hse & _ & _ & Hstale & _).
    destruct Hstale as (Hp & Hm); [reflexivity|reflexivity|].
    repeat split; assumption.
Defined.

End BackendSyncFacts.

(** * Further properties of the code *)

(** ** The sync queue and its drain *)

Module SyncQueueProperties.
Import OfflineStorage OfflineStorageFacts BackgroundSync BackgroundSyncFacts.

Lemma put_present_length (x : SyncQueueItem) (db : Store) :
  sorted db -> (exists y, In y db /\ id y = id x) ->
  List.length (put x db) = List.length db.
Proof.
  unfold sorted. induction 1 as [|z db Hs IH Hz]; intros (y & Hy & E).
  - destruct Hy.
  - cbn [put]. destruct (String.compare (id x) (id z)) eqn:C; cbn [List.length].
    + reflexivity.
    + exfalso. destruct Hy as [->|Hy].
      * rewrite E, compare_refl in C. discriminate.
      * rewrite Forall_forall in Hz. specialize (Hz y Hy). unfold key_lt in Hz.
        rewrite E in Hz.
        pose proof (compare_lt_trans _ _ _ C Hz) as F.
        rewrite compare_refl in F. discriminate.
    + f_equal. apply IH. destruct Hy as [->|Hy].
      * rewrite E, compare_refl in C. discriminate.
      * eauto.
Qed.

Lemma put_absent_length (x : SyncQueueItem) (db : Store) :
  get (id x) db = None -> List.length (put x db) = S (List.length db).
Proof.
  unfold get. induction db as [|z db IH]; cbn; [reflexivity|].
  destruct (String.eqb_spec (id x) (id z)) as [E|E]; [discriminate|].
  intros H. destruct (String.compare (id x) (id z)) eqn:C; cbn.
  - apply String.compare_eq_iff in C. contradiction.
  - reflexivity.
  - f_equal. now apply IH.
Qed.

Lemma delete_absent (k : string) (db : Store) :
  get k db = None -> delete k db = db.
Proof.
  unfold get, delete. induction db as [|z db IH]; cbn; [reflexivity|].
  destruct (String.eqb k (id z)); [discriminate|]. cbn.
  intros H. f_equal. now apply IH.
Qed.

Lemma delete_length (k : string) (db : Store) :
  List.length (delete k db) <= List.length db.
Proof. unfold delete. apply filter_length_le. Qed.

Lemma update_shrinks (k : string) (n : nat) (db : Store) :
  sorted db ->
  List.length (updateSyncQueueItem k (only_retries n) db) = List.length db
  /\ (forall y, In y (updateSyncQueueItem k (only_retries n) db) ->
        In (id y) (map id db)).
Proof.
  intros Hs. unfold updateSyncQueueItem.
  destruct (get k db) as [x|] eqn:E.
  - apply get_Some_id in E as [E Hin]. split.
    + apply put_present_length; [exact Hs|]. exists x. split; [exact Hin|reflexivity].
    + intros y Hy. apply put_In in Hy as [->|Hy].
      * cbn. now apply in_map.
      * now apply in_map.
  - split; [reflexivity|]. intros y Hy. now apply in_map.
Qed.

Lemma delete_shrinks (k : string) (db : Store) :
  forall y, In y (delete k db) -> In (id y) (map id db).
Proof. intros y Hy. apply delete_In in Hy as [Hy _]. now apply in_map. Qed.

Ltac store_in_order := unfold sorted, key_lt; repeat constructor.

(** X1: a queued record whose request fails into the [catch] block (a
    rejected request, or an order answered outside 2xx) in six successive
    drains is requested once in each of them, with retry counts 0 to 5; the
    sixth drain removes it from the store and logs the removal, and no later
    drain requests it again. *)
Theorem X1_six_caught_failures_evict :
  forall (tid : nat) (x : SyncQueueItem) (bs : list (SyncQueueItem -> Response))
         (g : Global),
    List.length bs = 6 ->
    (forall b n, In b bs -> caught (with_retries n x) (b (with_retries n x)) = true) ->
    sorted (db g) -> isProcessing g = false -> onLine g = true ->
    In x (db g) -> retries x = 0 ->
    let g6 := drains tid bs g in
    get (id x) (db g6) = None
    /\ In (LogRemoved (id x)) (trace g6)
    /\ filter (has_key (id x)) (fetched (trace g6))
       = filter (has_key (id x)) (fetched (trace g))
           ++ map (fun m => with_retries m x) [0; 1; 2; 3; 4; 5]
    /\ (forall later,
          filter (has_key (id x)) (fetched (trace (drains tid later g6)))
          = filter (has_key (id x)) (fetched (trace g6))).
Proof.
  intros tid x bs g Hlen Hc Hs Hp Ho Hin Hr.
  destruct bs as [|b1 [|b2 [|b3 [|b4 [|b5 [|b6 [|b7 bs]]]]]]]; try discriminate Hlen.
  change [b1; b2; b3; b4; b5; b6] with ([b1; b2; b3; b4; b5] ++ [b6]) in *.
  now apply caught_six_times_evicted.
Qed.

Lemma X1_six_caught_failures_evict_witness :
  let g := mkGlobal false true [a_waiter_call; an_order] [] in
  let g6 := drains 0 (repeat (fun _ => Http 500) 6) g in
  get (id an_order) (db g6) = None
  /\ In (LogRemoved (id an_order)) (trace g6)
  /\ filter (has_key (id an_order)) (fetched (trace g6))
     = filter (has_key (id an_order)) (fetched (trace g))
         ++ map (fun m => with_retries m an_order) [0; 1; 2; 3; 4; 5]
  /\ (forall later,
        filter (has_key (id an_order)) (fetched (trace (drains 0 later g6)))
        = filter (has_key (id an_order)) (fetched (trace g6))).
Proof.
  apply (X1_six_caught_failures_evict 0 an_order (repeat (fun _ => Http 500) 6)
           (mkGlobal false true [a_waiter_call; an_order] [])).
  - reflexivity.
  - intros b n Hb. apply repeat_spec in Hb. subst b. reflexivity.
  - store_in_order.
  - reflexivity.
  - reflexivity.
  - right. left. reflexivity.
  - reflexivity.
Defined.

(** The record of [x] after a drain is what the settlement of its own request
    makes of a store that holds [x]. *)
Lemma drain_focus (tid : nat) (backend : SyncQueueItem -> Response)
    (g : Global) (x : SyncQueueItem) :
  sorted (db g) -> isProcessing g = false -> onLine g = true -> In x (db g) ->
  exists gb,
    get (id x) (db gb) = Some x
    /\ get (id x) (db (processSyncQueue tid backend g))
       = get (id x) (db (on_settled x (backend x) gb)).
Proof.
  intros Hs Hp Ho Hin.
  unfold processSyncQueue. rewrite Hp, Ho. cbn [negb].
  set (g1 := log (ReadQueue tid) (set_processing true g)).
  assert (Hdb1 : db g1 = db g) by reflexivity.
  rewrite Hdb1. unfold getSyncQueue. cbn [set_processing db].
  pose proof (sorted_NoDup (db g) Hs) as Hnd.
  destruct (in_split x (db g) Hin) as (l1 & l2 & Hsplit).
  rewrite Hsplit in Hnd |- *.
  rewrite map_app in Hnd. cbn [map] in Hnd.
  assert (Hl1 : forall y, In y l1 -> id y <> id x).
  { intros y Hy E. apply NoDup_remove_2 in Hnd. apply Hnd.
    rewrite in_app_iff. left. rewrite <- E. now apply in_map. }
  assert (Hl2 : forall y, In y l2 -> id y <> id x).
  { intros y Hy E. apply NoDup_remove_2 in Hnd. apply Hnd.
    rewrite in_app_iff. right. rewrite <- E. now apply in_map. }
  rewrite replay_app. cbn [replay].
  set (ga := replay tid backend l1 g1).
  destruct (replay_frame tid backend l1 g1) as (_ & _ & _ & _ & A5).
  exists (log (Fetch tid (endpoint (type x)) x) ga). split.
  - cbn [db log]. subst ga. rewrite A5 by exact Hl1. rewrite Hdb1.
    now apply get_In.
  - unfold sync_item.
    destruct (replay_frame tid backend l2
                (on_settled x (backend x) (log (Fetch tid (endpoint (type x)) x) ga)))
      as (_ & _ & _ & _ & B5).
    now apply B5.
Qed.

(** X2: what a drain makes of a queued record depends only on how the
    request for that record settles, whatever happens to the other records:
    a 2xx answer removes it; a failure that reaches the [catch] block adds
    one to its retry count when fewer than five were counted and removes it
    otherwise; and a waiter call answered outside 2xx is left exactly as it
    was. *)
Theorem X2_drain_outcome_per_record :
  forall (tid : nat) (backend : SyncQueueItem -> Response) (g : Global)
         (x : SyncQueueItem),
    sorted (db g) -> isProcessing g = false -> onLine g = true -> In x (db g) ->
    let after := get (id x) (db (processSyncQueue tid backend g)) in
    (forall s, backend x = Http s -> ok s = true -> after = None)
    /\ (caught x (backend x) = true -> retries x < 5 ->
        after = Some (with_retries (S (retries x)) x))
    /\ (caught x (backend x) = true -> 5 <= retries x -> after = None)
    /\ (forall s, type x = waiterCall -> backend x = Http s -> ok s = false ->
        after = Some x).
Proof.
  intros tid backend g x Hs Hp Ho Hin after. subst after.
  destruct (drain_focus tid backend g x Hs Hp Ho Hin) as (gb & Hgb & ->).
  repeat split.
  - intros s Hb Hok. rewrite Hb. now apply settled_ok_removes.
  - intros Hc Hr. rewrite on_settled_caught by exact Hc.
    now apply on_catch_counts.
  - intros Hc Hr. rewrite on_settled_caught by exact Hc.
    now apply on_catch_counts.
  - intros s Ht Hb Hok. rewrite Hb, waiterCall_http_error_ignored by assumption.
    exact Hgb.
Qed.

(** Three records meet three fates in one drain: the waiter call is answered
    503 and stays, the first order is accepted and leaves, the second order
    is rejected and counts a retry. *)
Lemma X2_drain_outcome_per_record_witness :
  let backend := fun item : SyncQueueItem =>
                   match type item with
                   | waiterCall => Http 503
                   | order => if String.eqb (id item) (id an_order)
                              then Http 201 else NetworkError
                   end in
  let g := mkGlobal false true [a_waiter_call; an_order; another_order] [] in
  let g' := processSyncQueue 0 backend g in
  get (id a_waiter_call) (db g') = Some a_waiter_call
  /\ get (id an_order) (db g') = None
  /\ get (id another_order) (db g') = Some (with_retries 1 another_order).
Proof.
  intros backend g g'.
  assert (Hs : sorted (db g)) by (subst g; store_in_order).
  split; [|split].
  - destruct (X2_drain_outcome_per_record 0 backend g a_waiter_call Hs eq_refl eq_refl)
      as (_ & _ & _ & H); [now left|].
    apply (H 503%Z); reflexivity.
  - destruct (X2_drain_outcome_per_record 0 backend g an_order Hs eq_refl eq_refl)
      as (H & _); [right; now left|].
    apply (H 201%Z); reflexivity.
  - destruct (X2_drain_outcome_per_record 0 backend g another_order Hs eq_refl eq_refl)
      as (_ & H & _); [right; right; now left|].
    apply H; [reflexivity|cbn; lia].
Defined.

Lemma on_settled_shrinks (item : SyncQueueItem) (r : Response) (g : Global) :
  sorted (db g) ->
  List.length (db (on_settled item r g)) <= List.length (db g)
  /\ (forall y, In y (db (on_settled item r g)) -> In (id y) (map id (db g))).
Proof.
  intros Hs.
  assert (Hcatch : List.length (db (on_catch item g)) <= List.length (db g)
                   /\ (forall y, In y (db (on_catch item g)) -> In (id y) (map id (db g)))).
  { unfold on_catch, removeFromSyncQueue.
    destruct (update_shrinks (id item) (retries item + 1) (db g) Hs) as [Hl Hi].
    destruct (5 <=? retries item); cbn [db log with_db].
    - split.
      + rewrite <- Hl. apply delete_length.
      + intros y Hy. apply delete_In in Hy as [Hy _]. now apply Hi.
    - split; [now rewrite Hl|exact Hi]. }
  assert (Hdel : List.length (delete (id item) (db g)) <= List.length (db g)
                 /\ (forall y, In y (delete (id item) (db g)) -> In (id y) (map id (db g)))).
  { split; [apply delete_length|apply delete_shrinks]. }
  unfold on_settled, removeFromSyncQueue.
  destruct r as [|s]; [exact Hcatch|].
  destruct (type item), (ok s); cbn [db log with_db]; auto.
  split; [reflexivity|]. intros y Hy. now apply in_map.
Qed.

Lemma replay_shrinks (tid : nat) (backend : SyncQueueItem -> Response)
    (q : list SyncQueueItem) :
  forall g, sorted (db g) ->
    List.length (db (replay tid backend q g)) <= List.length (db g)
    /\ (forall y, In y (db (replay tid backend q g)) -> In (id y) (map id (db g))).
Proof.
  induction q as [|item q IH]; intros g Hs; cbn [replay].
  - split; [reflexivity|]. intros y Hy. now apply in_map.
  - destruct (sync_item_frame tid backend item g) as (_ & _ & Hs' & _).
    destruct (IH (sync_item tid backend item g) (Hs' Hs)) as [Hl Hi].
    destruct (on_settled_shrinks item (backend item)
                (log (Fetch tid (endpoint (type item)) item) g) Hs) as [Hl1 Hi1].
    fold (sync_item tid backend item g) in Hl1, Hi1. cbn [db log] in Hl1, Hi1.
    split; [lia|].
    intros y Hy. apply Hi in Hy. apply in_map_iff in Hy as (z & <- & Hz).
    now apply Hi1.
Qed.

(** X3: a drain never adds to the queue: afterwards the store holds no more
    records than before and no identifier that was not there, so the number
    of pending mutations can only go down. *)
Theorem X3_drain_never_grows_queue :
  forall (tid : nat) (backend : SyncQueueItem -> Response) (g : Global),
    sorted (db g) ->
    let g' := processSyncQueue tid backend g in
    List.length (db g') <= List.length (db g)
    /\ (forall y, In y (db g') -> In (id y) (map id (db g)))
    /\ sorted (db g').
Proof.
  intros tid backend g Hs g'. subst g'. unfold processSyncQueue.
  assert (Hsame : List.length (db g) <= List.length (db g)
                  /\ (forall y, In y (db g) -> In (id y) (map id (db g)))
                  /\ sorted (db g)).
  { repeat split; auto. intros y Hy. now apply in_map. }
  destruct (isProcessing g); [exact Hsame|].
  destruct (negb (onLine g)); [exact Hsame|].
  cbn [set_processing db].
  set (g1 := log (ReadQueue tid) (set_processing true g)).
  destruct (replay_shrinks tid backend (getSyncQueue (db g1)) g1 Hs) as [Hl Hi].
  destruct (replay_frame tid backend (getSyncQueue (db g1)) g1) as (_ & _ & Hs' & _).
  repeat split; auto.
Qed.

Lemma X3_drain_never_grows_queue_witness :
  let g := mkGlobal false true [a_waiter_call; an_order; another_order] [] in
  let g' := processSyncQueue 0 (fun _ => NetworkError) g in
  List.length (db g') <= List.length (db g)
  /\ (forall y, In y (db g') -> In (id y) (map id (db g)))
  /\ sorted (db g').
Proof.
  apply (X3_drain_never_grows_queue 0 (fun _ => NetworkError)
           (mkGlobal false true [a_waiter_call; an_order; another_order] [])).
  store_in_order.
Defined.

(** X4: [addToSyncQueue] stores the mutation under the identifier it returns,
    with retry count 0 and the clock reading as timestamp, and leaves every
    record under another identifier as it was; the queue grows by one when
    the identifier is new, and when it collides with a queued record that
    record is overwritten and the queue keeps its length. *)
Theorem X4_enqueue_then_lookup :
  forall (now : N) (rnd : string) (ty : ItemType) (d : json) (q : Store),
    let q' := fst (addToSyncQueue now rnd ty d q) in
    let k := snd (addToSyncQueue now rnd ty d q) in
    k = make_id now rnd
    /\ get k q' = Some (mkItem k ty d now 0)
    /\ In (mkItem k ty d now 0) (getSyncQueue q')
    /\ (forall k', k' <> k -> get k' q' = get k' q)
    /\ (get k q = None -> List.length q' = S (List.length q))
    /\ (sorted q -> sorted q'
        /\ (get k q <> None -> List.length q' = List.length q)).
Proof.
  intros now rnd ty d q q' k. subst q' k. unfold addToSyncQueue. cbn [fst snd].
  set (x := mkItem (make_id now rnd) ty d now 0).
  assert (Hget : get (make_id now rnd) (put x q) = Some x) by apply (get_put_same x).
  repeat split.
  - exact Hget.
  - unfold getSyncQueue. now apply get_Some_id in Hget.
  - intros k' Hk. apply get_put_other. cbn. congruence.
  - intros Hnone. now apply (put_absent_length x).
  - now apply sorted_put.
  - intros Hsome. apply put_present_length; [assumption|].
    destruct (get (make_id now rnd) q) as [y|] eqn:E; [|contradiction].
    apply get_Some_id in E as [E Hin]. exists y. split; [exact Hin|exact E].
Qed.

Lemma X4_enqueue_then_lookup_witness :
  let q := [a_waiter_call; an_order] in
  let q' := fst (addToSyncQueue 1700000000123 "q0w8e2r7t" waiterCall JNull q) in
  sorted q' /\ List.length q' = List.length q.
Proof.
  destruct (X4_enqueue_then_lookup 1700000000123 "q0w8e2r7t" waiterCall JNull
              [a_waiter_call; an_order]) as (_ & _ & _ & _ & _ & H).
  destruct H as [Hs Hl]; [store_in_order|].
  split; [exact Hs|]. apply Hl. discriminate.
Defined.

(** X5: [updateSyncQueueItem] does nothing when no record has the given
    identifier; otherwise it stores the record merged with the updates under
    the identifier the merged record carries, and leaves the records under
    every other identifier as they were (so an update that rewrites the
    identifier adds a record and keeps the old one). *)
Theorem X5_update_queue_item :
  forall (k : string) (u : PartialItem) (q : Store),
    (get k q = None -> updateSyncQueueItem k u q = q)
    /\ (forall x, get k q = Some x ->
          get (id (spread x u)) (updateSyncQueueItem k u q) = Some (spread x u)
          /\ (forall k', k' <> id (spread x u) ->
                get k' (updateSyncQueueItem k u q) = get k' q)
          /\ (p_id u = None -> id (spread x u) = k)).
Proof.
  intros k u q. unfold updateSyncQueueItem. split.
  - intros ->. reflexivity.
  - intros x Hx. rewrite Hx. repeat split.
    + apply get_put_same.
    + intros k' Hk. apply get_put_other. congruence.
    + intros Hu. unfold spread. rewrite Hu. cbn. now apply get_Some_id in Hx.
Qed.

Lemma X5_update_queue_item_witness :
  let q := [a_waiter_call; an_order] in
  updateSyncQueueItem "1600000000000-absent000" (only_retries 3) q = q
  /\ get (id an_order) (updateSyncQueueItem (id an_order) (only_retries 3) q)
     = Some (with_retries 3 an_order).
Proof.
  destruct (X5_update_queue_item "1600000000000-absent000" (only_retries 3)
              [a_waiter_call; an_order]) as [Hnone _].
  destruct (X5_update_queue_item (id an_order) (only_retries 3)
              [a_waiter_call; an_order]) as [_ Hsome].
  split.
  - apply Hnone. reflexivity.
  - destruct (Hsome an_order) as [H _]; [reflexivity|exact H].
Defined.

(** X6: [removeFromSyncQueue] leaves no record under the given identifier and
    every record under another identifier as it was; it never lengthens the
    queue, and when no record has the identifier the store is unchanged. *)
Theorem X6_remove_queue_item :
  forall (k : string) (q : Store),
    get k (removeFromSyncQueue k q) = None
    /\ (forall k', k' <> k -> get k' (removeFromSyncQueue k q) = get k' q)
    /\ List.length (removeFromSyncQueue k q) <= List.length q
    /\ (get k q = None -> removeFromSyncQueue k q = q).
Proof.
  intros k q. unfold removeFromSyncQueue. repeat split.
  - apply get_delete.
  - intros k' Hk. apply get_delete_other. congruence.
  - apply delete_length.
  - apply delete_absent.
Qed.

(** *** A drain works on the queue as it read it *)

Lemma next_works_through (snapshot : list SyncQueueItem) (tid : nat)
    (rest : list SyncQueueItem) (g : Global) :
  fetched_by tid (trace g) ++ rest = snapshot ->
  works_through snapshot tid (snd (next tid rest g)) (trace (fst (next tid rest g))).
Proof.
  destruct rest as [|x rest]; cbn [next fst snd works_through remaining trace log
                                   set_processing]; [auto|].
  rewrite fetched_by_snoc_fetch, Nat.eqb_refl, <- app_assoc. auto.
Qed.

Lemma resume_works_through (snapshot : list SyncQueueItem) (tid : nat)
    (r : Response) (g : Global) (t : Task) :
  works_through snapshot tid t (trace g) ->
  works_through snapshot tid (snd (resume tid r g t)) (trace (fst (resume tid r g t))).
Proof.
  intros H.
  assert (Hnext : forall rest g',
             fetched_by tid (trace g') = fetched_by tid (trace g) ->
             fetched_by tid (trace g) ++ rest = snapshot ->
             works_through snapshot tid (snd (next tid rest g'))
               (trace (fst (next tid rest g')))).
  { intros rest g' E Hr. apply next_works_through. now rewrite E. }
  assert (Hlog : forall e, (forall t0 url x, e <> Fetch t0 url x) ->
             fetched_by tid (trace (log e g)) = fetched_by tid (trace g)).
  { intros e He. cbn [trace log]. now apply fetched_by_snoc_other. }
  destruct t as [| |x rest|x rest|x rest|x rest|]; cbn [resume];
    cbn [works_through remaining] in H; try contradiction.
  - destruct r as [|c].
    + cbn [fst snd works_through remaining]. rewrite Hlog by not_a_fetch. exact H.
    + destruct (type x), (ok c); cbn [fst snd works_through remaining].
      * exact H.
      * rewrite Hlog by not_a_fetch. exact H.
      * exact H.
      * now apply Hnext.
  - destruct (type x); apply Hnext; auto.
    cbn [trace log with_db]. apply fetched_by_snoc_other. not_a_fetch.
  - destruct (5 <=? retries x); [exact H|]. now apply Hnext.
  - apply Hnext; [|exact H].
    cbn [trace log with_db]. apply fetched_by_snoc_other. not_a_fetch.
  - exact H.
Qed.

Lemma works_through_step (snapshot : list SyncQueueItem) (tid : nat)
    (l : Label) (s : System) :
  works_through snapshot tid (tasks s tid) (trace (glob s)) ->
  works_through snapshot tid (tasks (step l s) tid) (trace (glob (step l s))).
Proof.
  destruct s as [g ts]. cbn [glob tasks]. intros H.
  destruct l as [j|j r|now rnd ty d|b]; cbn [step glob tasks]; auto.
  - destruct (ts j) eqn:Hj; cbn [glob tasks]; auto.
    destruct (Nat.eq_dec tid j) as [->|Hne].
    + rewrite Hj in H. contradiction.
    + unfold invoke.
      destruct (isProcessing g); [|destruct (negb (onLine g))];
        cbn [glob tasks set_processing trace];
        rewrite set_task_other by assumption; exact H.
  - destruct (Nat.eq_dec tid j) as [->|Hne].
    + pose proof (resume_works_through snapshot j r g (ts j) H) as H'.
      destruct (resume j r g (ts j)) as [g' t']. cbn [fst snd glob tasks] in *.
      now rewrite set_task_same.
    + pose proof (resume_other j tid r g (ts j) Hne) as Hoth.
      destruct (resume j r g (ts j)) as [g' t']. cbn [fst glob tasks] in *.
      rewrite set_task_other by assumption.
      destruct (ts tid); cbn [works_through] in *; try exact H;
        now rewrite Hoth.
Qed.

Lemma works_through_exec (snapshot : list SyncQueueItem) (tid : nat)
    (ls : list Label) :
  forall s,
    works_through snapshot tid (tasks s tid) (trace (glob s)) ->
    works_through snapshot tid (tasks (exec ls s) tid) (trace (glob (exec ls s))).
Proof.
  induction ls as [|l ls IH]; intros s H; [exact H|].
  apply (IH (step l s)). now apply works_through_step.
Qed.

(** X7: a drain works on the queue as it was when the call read it.  Whatever
    the application enqueues and whatever other calls are made while the
    call is suspended, the records it has requested so far followed by those
    it still holds are the records the store held at the read, in key order;
    so when the call returns it has requested exactly those records, each
    once, and none that was enqueued in the meantime. *)
Theorem X7_drain_requests_its_snapshot :
  forall (before : list Label) (tid : nat) (r : Response) (after : list Label),
    let s := exec before init in
    tasks s tid = AwaitQueue ->
    let s' := exec (Settle tid r :: after) s in
    fetched_by tid (trace (glob s')) ++ remaining (tasks s' tid) = db (glob s)
    /\ (tasks s' tid = Done -> fetched_by tid (trace (glob s')) = db (glob s)).
Proof.
  intros before tid r after s Hq s'.
  assert (Hwf : wf s) by (apply wf_exec, wf_init).
  assert (Hnone : fetched_by tid (trace (glob s)) = []).
  { destruct Hwf as (_ & _ & _ & Hok). specialize (Hok tid). now rewrite Hq in Hok. }
  assert (H1 : works_through (db (glob s)) tid (tasks (step (Settle tid r) s) tid)
                 (trace (glob (step (Settle tid r) s)))).
  { destruct s as [g ts]. cbn [glob tasks step] in *. rewrite Hq. cbn [resume].
    pose proof (next_works_through (db g) tid (getSyncQueue (db (log (ReadQueue tid) g)))
                  (log (ReadQueue tid) g)) as Hn.
    destruct (next tid (getSyncQueue (db (log (ReadQueue tid) g)))
                (log (ReadQueue tid) g)) as [g' t'].
    cbn [fst snd glob tasks] in *. rewrite set_task_same. apply Hn.
    cbn [trace log db getSyncQueue].
    rewrite fetched_by_snoc_other by not_a_fetch. now rewrite Hnone. }
  pose proof (works_through_exec (db (glob s)) tid after _ H1) as H.
  change (exec after (step (Settle tid r) s)) with s' in H.
  assert (Hall : fetched_by tid (trace (glob s')) ++ remaining (tasks s' tid)
                 = db (glob s)).
  { destruct (tasks s' tid); cbn [works_through] in H; try contradiction; exact H. }
  split; [exact Hall|].
  intros Hd. rewrite Hd in Hall. cbn [remaining] in Hall.
  now rewrite app_nil_r in Hall.
Qed.

Lemma X7_drain_requests_its_snapshot_witness :
  let s := exec queue_filled_and_called init in
  let s' := exec (Settle 0 NetworkError :: enqueued_meanwhile) s in
  fetched_by 0 (trace (glob s')) = [a_waiter_call; an_order]
  /\ List.length (db (glob s')) = 2.
Proof.
  destruct (X7_drain_requests_its_snapshot queue_filled_and_called 0 NetworkError
              enqueued_meanwhile) as [_ H]; [reflexivity|].
  split; [apply H; reflexivity|reflexivity].
Defined.

End SyncQueueProperties.

(** ** The push channel client *)

Module WebSocketSyncProperties.
Import WebSocketSync WebSocketSyncFacts.

Lemma new_sockets_app (a b : list Effect) :
  new_sockets (a ++ b) = new_sockets a ++ new_sockets b.
Proof. unfold new_sockets. apply flat_map_app. Qed.

Lemma set_nth_forall (A : Type) (P : A -> Prop) (n : nat) (a : A) (l : list A) :
  P a -> Forall P l -> Forall P (set_nth n a l).
Proof.
  intros Ha Hl. revert n. induction Hl as [|x l Hx Hl IH]; intros n; cbn.
  - destruct n; constructor.
  - destruct n; constructor; auto.
Qed.

Lemma set_nth_same (A : Type) (n : nat) (a : A) (l : list A) :
  n < List.length l -> nth_error (set_nth n a l) n = Some a.
Proof.
  revert n. induction l as [|x l IH]; intros n Hn; cbn in *; [lia|].
  destruct n; cbn; [reflexivity|]. apply IH. lia.
Qed.

Lemma set_nth_other (A : Type) (n m : nat) (a : A) (l : list A) :
  m <> n -> nth_error (set_nth n a l) m = nth_error l m.
Proof.
  revert n m. induction l as [|x l IH]; intros n m Hne; cbn.
  - now destruct n.
  - destruct n, m; cbn; auto; congruence.
Qed.

Lemma set_nth_at (A : Type) (n : nat) (a r : A) (l : list A) :
  nth_error (set_nth n a l) n = Some r -> r = a.
Proof.
  revert n. induction l as [|x l IH]; intros n; cbn.
  - destruct n; discriminate.
  - destruct n; cbn; [congruence|apply IH].
Qed.

(** *** When [disconnect()] does prevent reconnection *)

Lemma disconnect_winds_down (st : State) :
  only_current_live st -> winding_down (disconnect st).
Proof.
  unfold only_current_live, winding_down, disconnect, readyState. intros Hlive.
  rewrite Forall_forall. intros r Hr. apply In_nth_error in Hr as [m Hm].
  destruct (ws st) as [w|] eqn:Hw; cbn [sockets set_attempts set_ws] in Hm.
  - unfold close_socket, readyState in Hm.
    destruct (Nat.eq_dec m w) as [->|Hne].
    + destruct (nth_error (sockets st) w) as [[| | |]|] eqn:E;
        cbn [sockets set_sockets] in Hm;
        try (apply set_nth_at in Hm; auto);
        rewrite E in Hm; first [discriminate Hm | injection Hm as <-; auto].
    + assert (Hm' : nth_error (sockets st) m = Some r).
      { destruct (nth_error (sockets st) w) as [[| | |]|];
          cbn [sockets set_sockets] in Hm;
          rewrite ?set_nth_other in Hm by assumption; exact Hm. }
      destruct (Hlive m r Hm') as [F|F]; [congruence|exact F].
  - destruct (Hlive m r Hm) as [F|F]; [discriminate F|exact F].
Qed.

Lemma at_rest_step (l : Label) (st : State) :
  is_connect_call l = false -> at_rest st ->
  at_rest (step l st)
  /\ new_sockets (effects (step l st)) = new_sockets (effects st)
  /\ scheduled (effects (step l st)) = scheduled (effects st).
Proof.
  intros Hl (Hws & Ht & Ha & Hw).
  assert (Hkeep : at_rest st
                  /\ new_sockets (effects st) = new_sockets (effects st)
                  /\ scheduled (effects st) = scheduled (effects st)).
  { repeat split; auto. }
  assert (Hstate : forall s, match readyState s st with
                             | Some CONNECTING | Some OPEN => False
                             | _ => True
                             end).
  { intros s. unfold readyState.
    destruct (nth_error (sockets st) s) as [r|] eqn:E; [|exact I].
    apply nth_error_In in E. unfold winding_down in Hw.
    rewrite Forall_forall in Hw. destruct (Hw r E) as [->| ->]; exact I. }
  destruct l as [throws| |k throws|s|s parsed|s failed]; cbn [step]; try discriminate Hl.
  - unfold disconnect. rewrite Hws. cbn.
    repeat split; auto.
  - rewrite Ht. destruct k; exact Hkeep.
  - specialize (Hstate s). destruct (readyState s st) as [[| | |]|];
      try contradiction; exact Hkeep.
  - specialize (Hstate s). destruct (readyState s st) as [[| | |]|];
      try contradiction; exact Hkeep.
  - specialize (Hstate s). destruct (readyState s st) as [[| | |]|];
      try contradiction; try exact Hkeep.
    unfold onclose.
    rewrite attemptReconnect_at_ceiling by (destruct failed; exact Ha).
    assert (Hw' : Forall (fun r => r = CLOSING \/ r = CLOSED)
                    (set_nth s CLOSED (sockets st))).
    { apply set_nth_forall; auto. }
    destruct failed; cbn; rewrite !new_sockets_app, !scheduled_app; cbn;
      rewrite ?app_nil_r; repeat split; auto.
Qed.

(** *** The attempt counter and the delays *)

Lemma attemptReconnect_counts (st : State) :
  (reconnectAttempts st < maxReconnectAttempts
   /\ reconnectAttempts (attemptReconnect st) = S (reconnectAttempts st)
   /\ scheduled (effects (attemptReconnect st))
      = scheduled (effects st) ++ [delay_of (S (reconnectAttempts st))]
   /\ timers (attemptReconnect st)
      = timers st ++ [delay_of (S (reconnectAttempts st))])
  \/ (reconnectAttempts (attemptReconnect st) = reconnectAttempts st
      /\ scheduled (effects (attemptReconnect st)) = scheduled (effects st)
      /\ timers (attemptReconnect st) = timers st).
Proof.
  destruct (Nat.lt_ge_cases (reconnectAttempts st) maxReconnectAttempts) as [H|H].
  - left. rewrite attemptReconnect_below by exact H.
    cbn [reconnectAttempts effects timers]. rewrite scheduled_app. auto.
  - right. rewrite attemptReconnect_at_ceiling by exact H.
    cbn. rewrite scheduled_app. cbn. now rewrite app_nil_r.
Qed.

Lemma connect_counts (throws : bool) (st : State) :
  (reconnectAttempts st < maxReconnectAttempts
   /\ reconnectAttempts (connect throws st) = S (reconnectAttempts st)
   /\ scheduled (effects (connect throws st))
      = scheduled (effects st) ++ [delay_of (S (reconnectAttempts st))]
   /\ timers (connect throws st)
      = timers st ++ [delay_of (S (reconnectAttempts st))])
  \/ (reconnectAttempts (connect throws st) = reconnectAttempts st
      /\ scheduled (effects (connect throws st)) = scheduled (effects st)
      /\ timers (connect throws st) = timers st).
Proof.
  unfold connect.
  destruct (isConnected st || isConnecting st).
  - right. cbn. rewrite scheduled_app. cbn. now rewrite app_nil_r.
  - destruct throws.
    + apply (attemptReconnect_counts (set_connecting false (set_connecting true st))).
    + right. cbn. rewrite scheduled_app. cbn. now rewrite app_nil_r.
Qed.

(** Every step is one of the four cases of [counts]. *)
Lemma step_counts (l : Label) (st : State) : counts l st (step l st).
Proof.
  unfold counts.
  destruct l as [throws| |k throws|s|s parsed|s failed]; cbn [step].
  - exists (timers st). split; [now left|].
    destruct (connect_counts throws st) as [H|H]; auto.
  - exists (timers st). split; [now left|]. right. right. left.
    unfold disconnect. destruct (ws st) as [w|]; cbn; repeat split; auto.
    + now destruct (close_socket_fields w st) as [_ ->].
    + unfold close_socket. destruct (readyState w st) as [[| | |]|]; reflexivity.
  - destruct (nth_error (timers st) k).
    + exists (remove_nth k (timers st)). split; [right; eauto|].
      destruct (connect_counts throws (set_timers (remove_nth k (timers st)) st))
        as [H|H]; auto.
    + exists (timers st). split; [now left|]. left. auto.
  - exists (timers st). split; [now left|].
    destruct (readyState s st) as [[| | |]|]; try (left; now auto).
    right. right. right. unfold onopen. cbn.
    rewrite scheduled_app. cbn. now rewrite app_nil_r.
  - exists (timers st). split; [now left|]. left.
    destruct (readyState s st) as [[| | |]|]; auto.
    unfold onmessage. destruct parsed as [[| | | | |fields]|]; auto;
      try (cbn; rewrite scheduled_app; cbn; now rewrite app_nil_r).
    destruct (assoc "type" fields) as [[| | |t| |]|]; auto.
    destruct (emit_fields t (assoc "data" fields) st) as (-> & -> & ->). auto.
  - exists (timers st). split; [now left|].
    assert (Hclose : forall st0,
               reconnectAttempts st0 = reconnectAttempts st ->
               scheduled (effects st0) = scheduled (effects st) ->
               timers st0 = timers st ->
               (reconnectAttempts (onclose st0) = reconnectAttempts st
                /\ scheduled (effects (onclose st0)) = scheduled (effects st)
                /\ timers (onclose st0) = timers st)
               \/ (reconnectAttempts st < maxReconnectAttempts
                   /\ reconnectAttempts (onclose st0) = S (reconnectAttempts st)
                   /\ scheduled (effects (onclose st0))
                      = scheduled (effects st) ++ [delay_of (S (reconnectAttempts st))]
                   /\ timers (onclose st0)
                      = timers st ++ [delay_of (S (reconnectAttempts st))])).
    { intros st0 Ha Hs Ht. unfold onclose.
      set (st1 := emit "connection" (status "disconnected")
                       (set_ws None (set_connecting false st0))).
      assert (H1 : reconnectAttempts st1 = reconnectAttempts st
                   /\ scheduled (effects st1) = scheduled (effects st)
                   /\ timers st1 = timers st).
      { subst st1. cbn. rewrite scheduled_app. cbn. rewrite app_nil_r. auto. }
      destruct H1 as (A1 & S1 & T1).
      destruct (attemptReconnect_counts st1) as [(H & Hb & Hc & Hd)|(Hb & Hc & Hd)].
      - right. rewrite Hb, Hc, Hd, A1, S1, T1. rewrite A1 in H. auto.
      - left. rewrite Hb, Hc, Hd. auto. }
    destruct (readyState s st) as [[| | |]|]; try (left; now auto);
      destruct failed;
      match goal with |- context [onclose ?x] =>
        destruct (Hclose x) as [H|H]; auto;
        cbn; rewrite ?scheduled_app; cbn; now rewrite ?app_nil_r
      end.
Qed.

Lemma remove_nth_forall (A : Type) (P : A -> Prop) (k : nat) (l : list A) :
  Forall P l -> Forall P (remove_nth k l).
Proof.
  intros H. revert k. induction H as [|x l Hx Hl IH]; intros k; cbn.
  - destruct k; constructor.
  - destruct k; [exact Hl|]. constructor; auto.
Qed.

(** X9: in every execution the attempt counter stays at or below the maximum
    of 10, and every delay the client has scheduled, and every timer still
    pending, lies between 2000 and 10000 milliseconds. *)
Theorem X9_counter_and_delays_bounded :
  forall (ls : list Label),
    let st := exec ls init in
    reconnectAttempts st <= maxReconnectAttempts
    /\ Forall in_range (scheduled (effects st))
    /\ Forall in_range (timers st).
Proof.
  intros ls st. subst st.
  assert (Hgen : forall st0,
             reconnectAttempts st0 <= maxReconnectAttempts
             /\ Forall in_range (scheduled (effects st0))
             /\ Forall in_range (timers st0) ->
             reconnectAttempts (exec ls st0) <= maxReconnectAttempts
             /\ Forall in_range (scheduled (effects (exec ls st0)))
             /\ Forall in_range (timers (exec ls st0))).
  { induction ls as [|l ls IH]; intros st0 H; [exact H|].
    apply (IH (step l st0)). destruct H as (Ha & Hs & Ht).
    destruct (step_counts l st0) as (T & HT & Hc).
    assert (HTr : Forall in_range T).
    { destruct HT as [->|[k ->]]; [exact Ht|now apply remove_nth_forall]. }
    assert (Hd : in_range (delay_of (S (reconnectAttempts st0)))).
    { apply delay_of_bounds. lia. }
    destruct Hc as [(-> & -> & ->)|[(Hlt & -> & -> & ->)|[(_ & -> & -> & ->)|(_ & -> & -> & ->)]]];
      repeat split; auto; try lia;
      apply Forall_app; split; auto. }
  apply Hgen. cbn. repeat split; auto. unfold maxReconnectAttempts. lia.
Qed.

(** X10: between two successful openings the client schedules at most 10
    retries: in a run in which no socket opens, the number of delays
    scheduled grows by no more than what the counter leaves below the
    maximum, whatever calls of [connect()] and [disconnect()], closings,
    messages and timers the run consists of. *)
Theorem X10_at_most_ten_retries_without_opening :
  forall (st : State) (ls : list Label),
    Forall (fun l => is_open l = false) ls ->
    List.length (scheduled (effects (exec ls st)))
    <= List.length (scheduled (effects st))
       + (maxReconnectAttempts - reconnectAttempts st).
Proof.
  intros st ls Hls. revert st.
  induction Hls as [|l ls Hl Hls IH]; intros st; [cbn; lia|].
  change (exec (l :: ls) st) with (exec ls (step l st)).
  specialize (IH (step l st)).
  destruct (step_counts l st) as (T & _ & Hc).
  destruct Hc as [(Ha & Hs & _)|[(Hlt & Ha & Hs & _)|[(_ & Ha & Hs & _)|(Ho & _)]]].
  - rewrite Ha, Hs in IH. exact IH.
  - rewrite Ha, Hs, length_app in IH. cbn [List.length] in IH. lia.
  - rewrite Ha, Hs in IH. lia.
  - congruence.
Qed.

(** From the start, with the constructor throwing, closings and stray
    timers, never more than ten delays are scheduled. *)
Lemma X10_at_most_ten_retries_without_opening_witness :
  List.length (scheduled (effects
     (exec (CallConnect true :: failures 12 ++ [CallConnect true; CallConnect true]) init)))
  <= 10.
Proof.
  apply (X10_at_most_ten_retries_without_opening init
           (CallConnect true :: failures 12 ++ [CallConnect true; CallConnect true])).
  unfold failures, failure. cbn [seq flat_map app]. repeat constructor.
Defined.

(** X8: when [disconnect()] is called while no retry is pending and no
    socket other than the current one is still connecting or open, the client
    stays disconnected until [connect()] is called: whatever socket events
    arrive, timers fire or further [disconnect()] calls are made, no socket
    is constructed, no retry is scheduled and [isConnected()] is false. *)
Theorem X8_disconnect_holds_without_pending_retry :
  forall (st : State) (ls : list Label),
    timers st = [] -> only_current_live st ->
    Forall (fun l => is_connect_call l = false) ls ->
    let st' := exec ls (disconnect st) in
    new_sockets (effects st') = new_sockets (effects st)
    /\ scheduled (effects st') = scheduled (effects st)
    /\ isConnected st' = false.
Proof.
  intros st ls Ht Hlive Hls st'.
  assert (H0 : at_rest (disconnect st)
               /\ new_sockets (effects (disconnect st)) = new_sockets (effects st)
               /\ scheduled (effects (disconnect st)) = scheduled (effects st)).
  { pose proof (disconnect_winds_down st Hlive) as Hw.
    unfold disconnect, at_rest in *.
    destruct (ws st) as [w|] eqn:Hws; cbn in *.
    - destruct (close_socket_fields w st) as [_ ->].
      unfold close_socket in *.
      destruct (readyState w st) as [[| | |]|]; cbn in *; repeat split; auto.
    - repeat split; auto. }
  subst st'. revert H0. generalize (disconnect st) as st0.
  induction ls as [|l ls IH]; intros st0 (Hrest & Hn & Hs).
  - cbn. repeat split; auto.
    destruct Hrest as (Hws & _). unfold isConnected. now rewrite Hws.
  - inversion Hls as [|? ? Hl Hls']; subst.
    destruct (at_rest_step l st0 Hl Hrest) as (Hrest' & Hn' & Hs').
    change (exec (l :: ls) st0) with (exec ls (step l st0)).
    apply IH; [exact Hls'|].
    split; [exact Hrest'|]. split; [now rewrite Hn'|now rewrite Hs'].
Qed.

(** The channel is open, [disconnect()] is called, the socket closes, and
    stray events follow. *)
Lemma X8_disconnect_holds_without_pending_retry_witness :
  let st := exec [CallConnect false; SockOpen 0] init in
  let st' := exec [SockClose 0 false; TimerFires 0 false; SockOpen 0; CallDisconnect]
                  (disconnect st) in
  new_sockets (effects st') = new_sockets (effects st)
  /\ scheduled (effects st') = scheduled (effects st)
  /\ isConnected st' = false.
Proof.
  apply (X8_disconnect_holds_without_pending_retry
           (exec [CallConnect false; SockOpen 0] init)
           [SockClose 0 false; TimerFires 0 false; SockOpen 0; CallDisconnect]).
  - reflexivity.
  - intros s r Hs. left. vm_compute in Hs |- *.
    destruct s as [|[|s]]; try discriminate Hs. reflexivity.
  - repeat constructor.
Defined.

(** *** Messages and repeated calls *)

Lemma same_connection_refl (st : State) : same_connection st st.
Proof. unfold same_connection. auto. Qed.

Lemma same_connection_trans (a b c : State) :
  same_connection a b -> same_connection b c -> same_connection a c.
Proof.
  unfold same_connection.
  intros (A1 & A2 & A3 & A4 & A5) (B1 & B2 & B3 & B4 & B5).
  repeat split; congruence.
Qed.

Lemma same_connection_connected (a b : State) :
  same_connection a b -> isConnected a = isConnected b.
Proof.
  unfold same_connection, isConnected, readyState.
  intros (-> & _ & _ & -> & _). reflexivity.
Qed.

Lemma onmessage_frame (parsed : option json) (st : State) :
  same_connection (onmessage parsed st) st
  /\ exists es, effects (onmessage parsed st) = effects st ++ es
                /\ Forall message_effect es.
Proof.
  assert (Hnone : same_connection st st
                  /\ exists es, effects st = effects st ++ es
                                /\ Forall message_effect es).
  { split; [apply same_connection_refl|]. exists []. now rewrite app_nil_r. }
  assert (Hlog : same_connection (note LogParseFailure st) st
                 /\ exists es, effects (note LogParseFailure st) = effects st ++ es
                               /\ Forall message_effect es).
  { split; [unfold same_connection; cbn; auto|]. exists [LogParseFailure].
    split; [reflexivity|]. constructor; [|constructor]. now right. }
  unfold onmessage.
  destruct parsed as [[| | | | |fields]|]; auto.
  destruct (assoc "type" fields) as [[| | |t| |]|]; auto.
  split; [unfold same_connection; cbn; auto|].
  exists [Emit t (assoc "data" fields)]. split; [reflexivity|].
  constructor; [|constructor]. left. eauto.
Qed.

(** X11: the delivery of messages, well formed or not, never touches the
    connection: after any run of messages the current socket, the ready
    states, the attempt counter, the connecting flag and the pending timers
    are what they were, [isConnected()] answers the same, and all that was
    added to the trace are emitted events and parse failures. *)
Theorem X11_messages_leave_connection_alone :
  forall (st : State) (ls : list Label),
    Forall (fun l => is_message l = true) ls ->
    let st' := exec ls st in
    same_connection st' st
    /\ isConnected st' = isConnected st
    /\ exists es, effects st' = effects st ++ es /\ Forall message_effect es.
Proof.
  intros st ls Hls. cbn zeta.
  assert (H : same_connection (exec ls st) st
              /\ exists es, effects (exec ls st) = effects st ++ es
                            /\ Forall message_effect es).
  { revert st. induction Hls as [|l ls Hl Hls IH]; intros st.
    - split; [apply same_connection_refl|]. exists []. now rewrite app_nil_r.
    - change (exec (l :: ls) st) with (exec ls (step l st)).
      destruct (IH (step l st)) as (Hc & es & He & Hes).
      assert (Hstep : same_connection (step l st) st
                      /\ exists es0, effects (step l st) = effects st ++ es0
                                     /\ Forall message_effect es0).
      { destruct l as [| | | |s parsed|]; try discriminate Hl. cbn [step].
        destruct (readyState s st) as [[| | |]|];
          try (split; [apply same_connection_refl|];
               exists []; now rewrite app_nil_r).
        apply onmessage_frame. }
      destruct Hstep as (Hc0 & es0 & He0 & Hes0).
      split; [eapply same_connection_trans; eauto|].
      exists (es0 ++ es). rewrite He, He0, app_assoc. split; [reflexivity|].
      apply Forall_app; auto. }
  destruct H as (Hc & He). split; [exact Hc|].
  split; [now apply same_connection_connected|exact He].
Qed.

(** A parse failure, a message without a type and an update on an open
    socket. *)
Lemma X11_messages_leave_connection_alone_witness :
  let st := exec [CallConnect false; SockOpen 0] init in
  let st' := exec [SockMessage 0 None; SockMessage 0 (Some (JObj []));
                   SockMessage 0 (Some (JObj [("type", JStr "MENU_UPDATE")]))] st in
  same_connection st' st
  /\ isConnected st' = isConnected st
  /\ exists es, effects st' = effects st ++ es /\ Forall message_effect es.
Proof.
  apply (X11_messages_leave_connection_alone
           (exec [CallConnect false; SockOpen 0] init)).
  repeat constructor.
Defined.

Lemma connect_skips (throws : bool) (st : State) :
  isConnected st || isConnecting st = true ->
  connect throws st = note LogSkip st.
Proof. intros H. unfold connect. now rewrite H. Qed.

Lemma connect_constructs (st : State) :
  isConnected st || isConnecting st = false ->
  connect false st
  = note (NewSocket (List.length (sockets st)))
         (set_ws (Some (List.length (sockets st)))
                 (set_sockets (sockets st ++ [CONNECTING])
                              (set_connecting true st))).
Proof. intros H. unfold connect. now rewrite H. Qed.

Lemma calls_skipped (ts : list bool) (st : State) :
  isConnected st || isConnecting st = true ->
  same_connection (exec (map CallConnect ts) st) st
  /\ new_sockets (effects (exec (map CallConnect ts) st)) = new_sockets (effects st)
  /\ scheduled (effects (exec (map CallConnect ts) st)) = scheduled (effects st).
Proof.
  revert st. induction ts as [|t ts IH]; intros st H.
  - split; [apply same_connection_refl|]. auto.
  - cbn [map]. change (exec (CallConnect t :: map CallConnect ts) st)
      with (exec (map CallConnect ts) (connect t st)).
    rewrite connect_skips by exact H.
    assert (H' : isConnected (note LogSkip st) || isConnecting (note LogSkip st) = true)
      by exact H.
    destruct (IH (note LogSkip st) H') as (Hc & Hn & Hs).
    split; [exact Hc|]. rewrite Hn, Hs. cbn [note effects].
    rewrite new_sockets_app, scheduled_app. cbn. now rewrite !app_nil_r.
Qed.

(** X12: [connect()] called again before any socket event arrives does not
    open a second channel: a run of calls constructs at most one socket,
    whether or not the constructor throws in some of them, and when a
    socket is open or an attempt is under way the calls construct nothing,
    schedule nothing and leave the connection as it is. *)
Theorem X12_repeated_connect_opens_one_socket :
  forall (st : State) (ts : list bool),
    let st' := exec (map CallConnect ts) st in
    List.length (new_sockets (effects st'))
    <= S (List.length (new_sockets (effects st)))
    /\ (isConnected st || isConnecting st = true ->
        same_connection st' st
        /\ new_sockets (effects st') = new_sockets (effects st)
        /\ scheduled (effects st') = scheduled (effects st)).
Proof.
  intros st ts. cbn zeta. split; [|apply calls_skipped].
  revert st. induction ts as [|t ts IH]; intros st; [cbn; lia|].
  cbn [map]. change (exec (CallConnect t :: map CallConnect ts) st)
    with (exec (map CallConnect ts) (connect t st)).
  destruct (isConnected st || isConnecting st) eqn:Hb.
  - destruct (calls_skipped (t :: ts) st Hb) as (_ & Hn & _).
    cbn [map] in Hn.
    change (exec (CallConnect t :: map CallConnect ts) st)
      with (exec (map CallConnect ts) (connect t st)) in Hn.
    rewrite Hn. lia.
  - destruct t.
    + specialize (IH (connect true st)).
      assert (Hn : new_sockets (effects (connect true st)) = new_sockets (effects st)).
      { unfold connect. rewrite Hb.
        set (st0 := set_connecting false (set_connecting true st)).
        change (effects st) with (effects st0).
        destruct (Nat.lt_ge_cases (reconnectAttempts st0) maxReconnectAttempts) as [H|H].
        - rewrite attemptReconnect_below by exact H. cbn [effects note set_timers set_attempts].
          rewrite new_sockets_app. cbn. now rewrite app_nil_r.
        - rewrite attemptReconnect_at_ceiling by exact H. cbn [effects note].
          rewrite new_sockets_app. cbn. now rewrite app_nil_r. }
      rewrite Hn in IH. exact IH.
    + rewrite connect_constructs by exact Hb.
      match goal with |- context [exec _ ?x] => set (st1 := x) end.
      assert (H1 : isConnected st1 || isConnecting st1 = true).
      { subst st1. cbn. apply orb_true_r. }
      destruct (calls_skipped ts st1 H1) as (_ & Hn & _).
      rewrite Hn. subst st1. cbn [effects note set_ws set_sockets set_connecting].
      rewrite new_sockets_app. cbn. rewrite length_app. cbn. lia.
Qed.

Lemma set_nth_length (A : Type) (n : nat) (a : A) (l : list A) :
  List.length (set_nth n a l) = List.length l.
Proof.
  revert n. induction l as [|x l IH]; intros n; destruct n; cbn; auto.
Qed.

(** X26: the close event of a socket that was replaced detaches its
    successor.  When [disconnect()] on an open channel is followed by
    [connect()] before the old socket has fired [close], that event clears
    [this.ws], which by then holds the new socket: the new socket opens and
    emits "connected", yet [isConnected()] answers [false], and the next
    [connect()] constructs one more socket beside the one that is open. *)
Theorem X26_close_of_replaced_socket_detaches :
  forall (st : State) (s : nat),
    ws st = Some s ->
    readyState s st = Some OPEN ->
    isConnecting st = false ->
    let n := List.length (sockets st) in
    let st' := exec [CallDisconnect; CallConnect false; SockClose s false; SockOpen n] st in
    effects st'
    = effects st ++ [NewSocket n; Emit "connection" (status "disconnected");
                     LogMaxAttempts; Emit "connection" (status "connected")]
    /\ ws st' = None
    /\ readyState n st' = Some OPEN
    /\ isConnected st' = false
    /\ new_sockets (effects (step (CallConnect false) st'))
       = new_sockets (effects st) ++ [n; S n].
Proof.
  intros st s Hws Hs Hc n st'.
  assert (Hlt : s < n).
  { subst n. apply nth_error_Some. unfold readyState in Hs. congruence. }
  set (L1 := set_nth s CLOSING (sockets st)).
  assert (HL1 : List.length L1 = n) by apply set_nth_length.
  set (st1 := mkState None maxReconnectAttempts false L1 (timers st) (effects st)).
  assert (H1 : step CallDisconnect st = st1).
  { cbn [step]. unfold disconnect. rewrite Hws. unfold close_socket. rewrite Hs.
    subst st1. unfold set_attempts, set_ws, set_sockets. cbn. now rewrite Hc. }
  set (st2 := mkState (Some n) maxReconnectAttempts true (L1 ++ [CONNECTING])
                      (timers st) (effects st ++ [NewSocket n])).
  assert (H2 : step (CallConnect false) st1 = st2).
  { cbn [step]. unfold connect. subst st1 st2. cbn. now rewrite HL1. }
  set (L3 := set_nth s CLOSED (L1 ++ [CONNECTING])).
  set (st3 := mkState None maxReconnectAttempts false L3 (timers st)
                      (effects st ++ [NewSocket n;
                                      Emit "connection" (status "disconnected");
                                      LogMaxAttempts])).
  assert (H3 : step (SockClose s false) st2 = st3).
  { cbn [step]. unfold readyState. subst st2. cbn [sockets].
    rewrite nth_error_app1 by lia. subst L1. rewrite set_nth_same by lia.
    unfold onclose. rewrite attemptReconnect_at_ceiling by (cbn; lia).
    subst st3 L3. unfold note, emit, set_ws, set_connecting, set_sockets.
    cbn. rewrite <- ?app_assoc. reflexivity. }
  assert (Hn3 : nth_error L3 n = Some CONNECTING).
  { subst L3. rewrite set_nth_other by lia.
    rewrite nth_error_app2 by lia. rewrite HL1, Nat.sub_diag. reflexivity. }
  assert (HL3 : List.length L3 = S n).
  { subst L3. rewrite set_nth_length, length_app, HL1. cbn. lia. }
  set (L4 := set_nth n OPEN L3).
  set (st4 := mkState None 0 false L4 (timers st)
                      (effects st ++ [NewSocket n;
                                      Emit "connection" (status "disconnected");
                                      LogMaxAttempts;
                                      Emit "connection" (status "connected")])).
  assert (H4 : step (SockOpen n) st3 = st4).
  { cbn [step]. unfold readyState. subst st3. cbn [sockets]. rewrite Hn3.
    subst st4 L4. unfold onopen, emit, set_connecting, set_attempts, set_sockets.
    cbn. rewrite <- ?app_assoc. reflexivity. }
  assert (Hst' : st' = st4).
  { subst st'. unfold exec. cbn [fold_left]. now rewrite H1, H2, H3, H4. }
  rewrite Hst'. subst st4. cbn [effects ws].
  split; [reflexivity|]. split; [reflexivity|].
  assert (Hopen : nth_error L4 n = Some OPEN).
  { subst L4. apply set_nth_same. lia. }
  split; [exact Hopen|]. split; [reflexivity|].
  cbn [step]. unfold connect. cbn [isConnected ws isConnecting orb].
  cbn [set_connecting note set_ws set_sockets effects sockets ws reconnectAttempts
       isConnecting timers].
  rewrite !new_sockets_app. cbn [new_sockets flat_map app].
  subst L4. rewrite set_nth_length, HL3. rewrite <- ?app_assoc. reflexivity.
Qed.

(** The channel of the example is open when it is disconnected and connected
    again. *)
Lemma X26_close_of_replaced_socket_detaches_witness :
  let st := exec [CallConnect false; SockOpen 0] init in
  let st' := exec [CallDisconnect; CallConnect false; SockClose 0 false; SockOpen 1] st in
  effects st'
  = effects st ++ [NewSocket 1; Emit "connection" (status "disconnected");
                   LogMaxAttempts; Emit "connection" (status "connected")]
  /\ ws st' = None
  /\ readyState 1 st' = Some OPEN
  /\ isConnected st' = false
  /\ new_sockets (effects (step (CallConnect false) st'))
     = new_sockets (effects st) ++ [1; 2].
Proof.
  apply (X26_close_of_replaced_socket_detaches
           (exec [CallConnect false; SockOpen 0] init) 0); reflexivity.
Defined.

(** *** The handler registry *)

Lemma lookup_store_same (t : string) (hs : list nat) (reg : Registry) :
  lookup t (store_handlers t hs reg) = Some hs.
Proof.
  induction reg as [|[t' hs'] reg IH]; cbn.
  - now rewrite String.eqb_refl.
  - destruct (String.eqb t t') eqn:E; cbn; rewrite E; auto.
Qed.

Lemma lookup_store_other (t t' : string) (hs : list nat) (reg : Registry) :
  t' <> t -> lookup t' (store_handlers t hs reg) = lookup t' reg.
Proof.
  intros Hne. induction reg as [|[u hs'] reg IH]; cbn.
  - apply String.eqb_neq in Hne. now rewrite Hne.
  - destruct (String.eqb t u) eqn:E; cbn.
    + apply String.eqb_eq in E. subst u.
      apply String.eqb_neq in Hne. now rewrite Hne.
    + now rewrite IH.
Qed.

Lemma invoked_on_same (t : string) (h : nat) (reg : Registry) :
  invoked t (on t h reg) = invoked t reg ++ [h].
Proof.
  unfold invoked, on. destruct (lookup t reg) as [hs|] eqn:E.
  - rewrite E. now rewrite lookup_store_same.
  - rewrite lookup_store_same. now rewrite lookup_store_same.
Qed.

Lemma invoked_on_other (t t' : string) (h : nat) (reg : Registry) :
  t' <> t -> invoked t' (on t h reg) = invoked t' reg.
Proof.
  intros Hne. unfold invoked, on. destruct (lookup t reg) as [hs|] eqn:E.
  - rewrite E. now rewrite lookup_store_other.
  - rewrite lookup_store_same. now rewrite !lookup_store_other.
Qed.

Lemma invoked_unsubscribe_same (t : string) (h : nat) (reg : Registry) :
  invoked t (unsubscribe t h reg) = remove_first h (invoked t reg).
Proof.
  unfold invoked, unsubscribe. destruct (lookup t reg) as [hs|] eqn:E.
  - now rewrite lookup_store_same.
  - now rewrite E.
Qed.

Lemma invoked_unsubscribe_other (t t' : string) (h : nat) (reg : Registry) :
  t' <> t -> invoked t' (unsubscribe t h reg) = invoked t' reg.
Proof.
  intros Hne. unfold invoked, unsubscribe. destruct (lookup t reg) as [hs|] eqn:E.
  - now rewrite lookup_store_other.
  - reflexivity.
Qed.

Lemma remove_first_absent (h : nat) (hs : list nat) :
  ~ In h hs -> remove_first h hs = hs.
Proof.
  induction hs as [|x hs IH]; intros Hn; cbn; [reflexivity|].
  destruct (Nat.eqb x h) eqn:E.
  - apply Nat.eqb_eq in E. subst x. exfalso. apply Hn. now left.
  - f_equal. apply IH. intros Hin. apply Hn. now right.
Qed.

Lemma remove_first_app (h : nat) (base rest : list nat) :
  ~ In h base -> remove_first h (base ++ h :: rest) = base ++ rest.
Proof.
  induction base as [|x base IH]; intros Hn; cbn.
  - now rewrite Nat.eqb_refl.
  - destruct (Nat.eqb x h) eqn:E.
    + apply Nat.eqb_eq in E. subst x. exfalso. apply Hn. now left.
    + f_equal. apply IH. intros Hin. apply Hn. now right.
Qed.

Lemma remove_first_length (h : nat) (hs : list nat) :
  In h hs -> S (List.length (remove_first h hs)) = List.length hs.
Proof.
  induction hs as [|x hs IH]; intros Hin; [destruct Hin|]. cbn.
  destruct (Nat.eqb x h) eqn:E; [reflexivity|].
  destruct Hin as [->|Hin]; [now rewrite Nat.eqb_refl in E|].
  cbn. now rewrite IH.
Qed.

(** X13: a handler registered with [on] is called after the handlers
    already registered for its event type, once for each time it was
    registered, and the function [on] returns removes one registration, the
    oldest one of that handler, and no other handler; neither touches the
    handlers of another event type. *)
Theorem X13_subscribe_and_unsubscribe :
  forall (t : string) (h : nat) (reg : Registry),
    invoked t (on t h reg) = invoked t reg ++ [h]
    /\ invoked t (unsubscribe t h reg) = remove_first h (invoked t reg)
    /\ (In h (invoked t reg) ->
        S (List.length (invoked t (unsubscribe t h reg))) = List.length (invoked t reg))
    /\ (~ In h (invoked t reg) -> invoked t (unsubscribe t h reg) = invoked t reg)
    /\ (forall t', t' <> t ->
          invoked t' (on t h reg) = invoked t' reg
          /\ invoked t' (unsubscribe t h reg) = invoked t' reg).
Proof.
  intros t h reg.
  split; [apply invoked_on_same|].
  split; [apply invoked_unsubscribe_same|].
  split; [intros Hin; rewrite invoked_unsubscribe_same; now apply remove_first_length|].
  split; [intros Hn; rewrite invoked_unsubscribe_same; now apply remove_first_absent|].
  intros t' Hne. split; [now apply invoked_on_other|now apply invoked_unsubscribe_other].
Qed.

Lemma invoked_subscribe_all (t : string) (subs : list (string * nat)) (reg : Registry) :
  invoked t (subscribe_all subs reg) = invoked t reg ++ handlers_of t subs.
Proof.
  revert reg. induction subs as [|[u h] subs IH]; intros reg.
  - cbn. now rewrite app_nil_r.
  - change (subscribe_all ((u, h) :: subs) reg)
      with (subscribe_all subs (on u h reg)).
    rewrite IH. unfold handlers_of. cbn [filter fst].
    destruct (String.eqb u t) eqn:E.
    + apply String.eqb_eq in E. subst u. rewrite invoked_on_same.
      cbn [map snd]. now rewrite <- app_assoc.
    + apply String.eqb_neq in E. rewrite invoked_on_other by congruence. reflexivity.
Qed.

Lemma invoked_unsubscribe_all (t : string) (subs : list (string * nat)) (reg : Registry) :
  invoked t (unsubscribe_all subs reg)
  = fold_left (fun hs h => remove_first h hs) (handlers_of t subs) (invoked t reg).
Proof.
  revert reg. induction subs as [|[u h] subs IH]; intros reg; [reflexivity|].
  change (unsubscribe_all ((u, h) :: subs) reg)
    with (unsubscribe_all subs (unsubscribe u h reg)).
  rewrite IH. unfold handlers_of. cbn [filter fst].
  destruct (String.eqb u t) eqn:E.
  - apply String.eqb_eq in E. subst u. rewrite invoked_unsubscribe_same. reflexivity.
  - apply String.eqb_neq in E. rewrite invoked_unsubscribe_other by congruence. reflexivity.
Qed.

Lemma remove_all_appended (base hs : list nat) :
  NoDup hs -> (forall h, In h hs -> ~ In h base) ->
  fold_left (fun l h => remove_first h l) hs (base ++ hs) = base.
Proof.
  intros Hnd. revert base. induction Hnd as [|h hs Hh Hnd IH]; intros base Hfresh.
  - cbn. now rewrite app_nil_r.
  - cbn [fold_left]. rewrite remove_first_app by (apply Hfresh; now left).
    apply IH. intros x Hx. apply Hfresh. now right.
Qed.

Lemma handlers_of_In (t : string) (h : nat) (subs : list (string * nat)) :
  In h (handlers_of t subs) <-> In (t, h) subs.
Proof.
  unfold handlers_of. rewrite in_map_iff. split.
  - intros ([u x] & Hx & Hin). apply filter_In in Hin. destruct Hin as [Hin E].
    cbn in *. apply String.eqb_eq in E. now subst.
  - intros Hin. exists (t, h). split; [reflexivity|].
    apply filter_In. split; [exact Hin|]. cbn. apply String.eqb_refl.
Qed.

Lemma handlers_of_NoDup (t : string) (subs : list (string * nat)) :
  NoDup subs -> NoDup (handlers_of t subs).
Proof.
  intros Hnd. induction Hnd as [|[u h] subs Hn Hnd IH]; [constructor|].
  unfold handlers_of. cbn [filter fst].
  destruct (String.eqb u t) eqn:E; [|exact IH].
  apply String.eqb_eq in E. subst u. cbn [map snd]. constructor; [|exact IH].
  intros Hin. apply handlers_of_In in Hin. contradiction.
Qed.

(** X14: the cleanup of an effect restores the registry: when the handlers
    an effect registers are distinct function values, none of them
    registered before for its event type, then after the functions [on]
    returned have been called every event type has the handlers it had
    before the effect ran, in the same order. *)
Theorem X14_cleanup_restores_handlers :
  forall (subs : list (string * nat)) (reg : Registry),
    NoDup subs ->
    (forall t h, In (t, h) subs -> ~ In h (invoked t reg)) ->
    forall t, invoked t (unsubscribe_all subs (subscribe_all subs reg)) = invoked t reg.
Proof.
  intros subs reg Hnd Hfresh t.
  rewrite invoked_unsubscribe_all, invoked_subscribe_all.
  apply remove_all_appended.
  - now apply handlers_of_NoDup.
  - intros h Hin. apply Hfresh. now apply handlers_of_In.
Qed.

(** The nine subscriptions of [DataProvider], on a registry that already
    holds a handler for the connection status. *)
Lemma X14_cleanup_restores_handlers_witness :
  invoked "connection"
          (unsubscribe_all provider_subscriptions
             (subscribe_all provider_subscriptions (on "connection" 0 [])))
  = [0]
  /\ invoked "MENU_UPDATE"
             (unsubscribe_all provider_subscriptions
                (subscribe_all provider_subscriptions (on "connection" 0 [])))
     = [].
Proof.
  assert (Hnd : NoDup provider_subscriptions).
  { unfold provider_subscriptions.
    repeat (constructor;
            [cbn; intros H; repeat (destruct H as [H|H]; [discriminate H|]); exact H|]).
    constructor. }
  assert (Hfresh : forall t h, In (t, h) provider_subscriptions ->
                               ~ In h (invoked t (on "connection" 0 []))).
  { intros t h Hin Hinv. unfold provider_subscriptions in Hin. cbn in Hin.
    repeat (destruct Hin as [Hin|Hin];
            [injection Hin as <- <-; cbn in Hinv;
             repeat (destruct Hinv as [Hinv|Hinv]; [discriminate Hinv|]); exact Hinv|]).
    exact Hin. }
  split.
  - apply (X14_cleanup_restores_handlers provider_subscriptions
             (on "connection" 0 []) Hnd Hfresh "connection").
  - apply (X14_cleanup_restores_handlers provider_subscriptions
             (on "connection" 0 []) Hnd Hfresh "MENU_UPDATE").
Defined.

End WebSocketSyncProperties.

(** ** lib/offlineStorage and hooks/useOfflineSync.ts: the caches *)

Module OfflineCacheProperties.
Import OfflineStorage OfflineStorageFacts OfflineCache.

Section KeyedFacts.
Variable R : Type.
Variable key : R -> string.

Lemma kput_In (x y : R) (s : list R) :
  In y (kput key x s) -> y = x \/ In y s.
Proof.
  induction s as [|z s IH]; cbn.
  - intros [<-|[]]. now left.
  - destruct (String.compare (key x) (key z)); cbn.
    + intros [<-|H]; auto.
    + intros [<-|[<-|H]]; auto.
    + intros [<-|H]; auto. destruct (IH H); auto.
Qed.

Lemma kput_sorted (x : R) (s : list R) :
  ksorted key s -> ksorted key (kput key x s).
Proof.
  unfold ksorted. induction 1 as [|z s Hs IH Hz]; cbn.
  - repeat constructor.
  - destruct (String.compare (key x) (key z)) eqn:E.
    + constructor; [exact Hs|].
      apply String.compare_eq_iff in E. now rewrite E.
    + constructor; [now constructor|]. constructor; [exact E|].
      eapply Forall_impl; [|exact Hz]. intros a Ha. cbn in Ha.
      eapply compare_lt_trans; eauto.
    + constructor; [exact IH|]. rewrite Forall_forall. intros a Ha.
      apply kput_In in Ha. destruct Ha as [->|Ha].
      * now apply compare_gt_lt.
      * rewrite Forall_forall in Hz. now apply Hz.
Qed.

Lemma kget_kput_same (x : R) (s : list R) :
  kget key (key x) (kput key x s) = Some x.
Proof.
  unfold kget. induction s as [|z s IH]; cbn.
  - now rewrite String.eqb_refl.
  - destruct (String.compare (key x) (key z)) eqn:E; cbn.
    + now rewrite String.eqb_refl.
    + now rewrite String.eqb_refl.
    + apply compare_gt_lt in E. apply compare_lt_neq in E.
      rewrite String.eqb_sym in E. now rewrite E.
Qed.

Lemma kget_kput_other (k : string) (x : R) (s : list R) :
  key x <> k -> kget key k (kput key x s) = kget key k s.
Proof.
  intros Hne. assert (Hx : String.eqb k (key x) = false).
  { apply String.eqb_neq. congruence. }
  unfold kget. induction s as [|z s IH]; cbn.
  - now rewrite Hx.
  - destruct (String.compare (key x) (key z)) eqn:E; cbn.
    + rewrite Hx. apply String.compare_eq_iff in E. rewrite <- E. now rewrite Hx.
    + now rewrite Hx.
    + now rewrite IH.
Qed.

Lemma kget_kput (k : string) (x : R) (s : list R) :
  kget key k (kput key x s)
  = if String.eqb k (key x) then Some x else kget key k s.
Proof.
  destruct (String.eqb_spec k (key x)) as [->|Hne].
  - apply kget_kput_same.
  - apply kget_kput_other. congruence.
Qed.

Lemma find_snoc (f : R -> bool) (l : list R) (x : R) :
  find f (l ++ [x])
  = match find f l with
    | Some y => Some y
    | None => if f x then Some x else None
    end.
Proof.
  induction l as [|a l IH]; cbn; [reflexivity|].
  destruct (f a); [reflexivity|exact IH].
Qed.

Lemma kget_fold (k : string) (items : list R) :
  forall acc,
    kget key k (fold_left (fun a x => kput key x a) items acc)
    = match newest key k items with
      | Some x => Some x
      | None => kget key k acc
      end.
Proof.
  unfold newest. induction items as [|x items IH]; intros acc; [reflexivity|].
  cbn [fold_left rev]. rewrite IH, find_snoc, kget_kput.
  destruct (find (fun y => String.eqb k (key y)) (rev items)); [reflexivity|].
  now destruct (String.eqb k (key x)).
Qed.

Lemma fold_sorted (items : list R) :
  forall acc, ksorted key acc ->
              ksorted key (fold_left (fun a x => kput key x a) items acc).
Proof.
  induction items as [|x items IH]; intros acc H; [exact H|].
  cbn. apply IH. now apply kput_sorted.
Qed.

Lemma kput_perm (x : R) (s : list R) :
  ~ In (key x) (map key s) -> Permutation (kput key x s) (x :: s).
Proof.
  induction s as [|z s IH]; intros Hn; cbn; [reflexivity|].
  destruct (String.compare (key x) (key z)) eqn:E.
  - apply String.compare_eq_iff in E. exfalso. apply Hn. left. now symmetry.
  - reflexivity.
  - rewrite perm_swap. apply perm_skip. apply IH.
    intros Hin. apply Hn. now right.
Qed.

Lemma kput_keys (k : string) (x : R) (s : list R) :
  In k (map key (kput key x s)) -> k = key x \/ In k (map key s).
Proof.
  rewrite in_map_iff. intros (y & <- & Hy). apply kput_In in Hy.
  destruct Hy as [->|Hy]; [now left|right; now apply in_map].
Qed.

Lemma fold_perm (items : list R) :
  forall acc,
    NoDup (map key items) ->
    (forall x, In x items -> ~ In (key x) (map key acc)) ->
    Permutation (fold_left (fun a x => kput key x a) items acc) (acc ++ items).
Proof.
  induction items as [|x items IH]; intros acc Hnd Hfresh.
  - cbn. now rewrite app_nil_r.
  - cbn [fold_left]. inversion Hnd as [|? ? Hx Hnd']; subst.
    rewrite IH.
    + rewrite kput_perm by (apply Hfresh; now left).
      now rewrite <- Permutation_middle.
    + exact Hnd'.
    + intros y Hy Hin. apply kput_keys in Hin. destruct Hin as [E|Hin].
      * apply Hx. rewrite <- E. now apply in_map.
      * apply (Hfresh y); [now right|exact Hin].
Qed.

Lemma kput_nonempty (x : R) (s : list R) : kput key x s <> [].
Proof.
  destruct s as [|z s]; cbn; [discriminate|].
  destruct (String.compare (key x) (key z)); discriminate.
Qed.

Lemma fold_nonempty (items : list R) :
  forall acc, acc <> [] -> fold_left (fun a x => kput key x a) items acc <> [].
Proof.
  induction items as [|x items IH]; intros acc H; [exact H|].
  cbn. apply IH, kput_nonempty.
Qed.

Lemma cache_all_nonempty (x : R) (items old : list R) :
  cache_all key (x :: items) old <> [].
Proof. unfold cache_all, kclear. cbn. apply fold_nonempty. discriminate. Qed.
End KeyedFacts.


Lemma getSetting_cacheSetting (now : N) (k k' : string) (v : json) (d : DB) :
  getSetting k' (cacheSetting now k v d)
  = if String.eqb k' k then v else getSetting k' d.
Proof.
  unfold getSetting, cacheSetting. cbn [settings].
  rewrite kget_kput. cbn [s_key].
  now destruct (String.eqb k' k).
Qed.

Lemma apply_op_queue (op : Op) (d : DB) : syncQueue (apply_op op d) = syncQueue d.
Proof.
  destruct op as [[|x l]|[|x l]|now [v|]|]; reflexivity.
Qed.

Lemma load_apply_op (op : Op) (d : DB) :
  is_clear op = false ->
  loadCachedData (apply_op op d)
  = (match op with
     | MenuEffect (x :: l) => cache_all c_key (x :: l) []
     | _ => getMenuItems d
     end,
     match op with
     | CategoriesEffect (x :: l) => cache_all c_key (x :: l) []
     | _ => getCategories d
     end,
     match op with
     | SettingsEffect _ (Some v) => v
     | _ => getSetting "appSettings" d
     end).
Proof.
  intros Hc. unfold loadCachedData.
  destruct op as [[|x l]|[|x l]|now [v|]|]; try discriminate Hc; try reflexivity.
  cbn [apply_op]. rewrite getSetting_cacheSetting. reflexivity.
Qed.

Lemma run_snoc (ops : list Op) (op : Op) (d : DB) :
  run (ops ++ [op]) d = apply_op op (run ops d).
Proof. unfold run. now rewrite fold_left_app. Qed.

Lemma last_menu_snoc (ops : list Op) (op : Op) :
  last_menu (ops ++ [op])
  = match op with
    | MenuEffect (x :: l) => Some (x :: l)
    | _ => last_menu ops
    end.
Proof.
  induction ops as [|o ops IH]; cbn.
  - destruct op as [[|x l]| | |]; reflexivity.
  - rewrite IH. destruct op as [[|x l]| | |]; reflexivity.
Qed.

Lemma last_categories_snoc (ops : list Op) (op : Op) :
  last_categories (ops ++ [op])
  = match op with
    | CategoriesEffect (x :: l) => Some (x :: l)
    | _ => last_categories ops
    end.
Proof.
  induction ops as [|o ops IH]; cbn.
  - destruct op as [|[|x l]| |]; reflexivity.
  - rewrite IH. destruct op as [|[|x l]| |]; reflexivity.
Qed.

Lemma last_settings_snoc (ops : list Op) (op : Op) :
  last_settings (ops ++ [op])
  = match op with
    | SettingsEffect _ (Some v) => Some v
    | _ => last_settings ops
    end.
Proof.
  induction ops as [|o ops IH]; cbn.
  - destruct op as [| |now [v|]|]; reflexivity.
  - rewrite IH. destruct op as [| |now [v|]|]; reflexivity.
Qed.

(** X22: what an offline start reads back.  After any run of the caching
    effects, [loadCachedData()] returns the last menu that was not empty,
    the last categories that were not empty and the last settings that were
    not [null] the store went through, each as cached, and what the caches
    held before where there was none: emptying the menu in the store never
    empties the cache, so once [hasCachedData()] is true it stays true.
    No effect, nor [clearAll()], touches the sync queue. *)
Theorem X22_offline_start_reads_last_nonempty :
  forall (ops : list Op) (d : DB),
    syncQueue (run ops d) = syncQueue d
    /\ (Forall (fun op => is_clear op = false) ops ->
        loadCachedData (run ops d)
        = (match last_menu ops with
           | Some m => cache_all c_key m []
           | None => getMenuItems d
           end,
           match last_categories ops with
           | Some c => cache_all c_key c []
           | None => getCategories d
           end,
           match last_settings ops with
           | Some v => v
           | None => getSetting "appSettings" d
           end)
        /\ (hasCachedData d = true -> hasCachedData (run ops d) = true)).
Proof.
  intros ops d. split.
  { revert d. induction ops as [|op ops IH]; intros d; [reflexivity|].
    change (run (op :: ops) d) with (run ops (apply_op op d)).
    now rewrite IH, apply_op_queue. }
  intros Hops.
  assert (Hload : loadCachedData (run ops d)
                  = (match last_menu ops with
                     | Some m => cache_all c_key m []
                     | None => getMenuItems d
                     end,
                     match last_categories ops with
                     | Some c => cache_all c_key c []
                     | None => getCategories d
                     end,
                     match last_settings ops with
                     | Some v => v
                     | None => getSetting "appSettings" d
                     end)).
  { induction ops as [|op ops IH] using rev_ind; [reflexivity|].
    apply Forall_app in Hops. destruct Hops as [Hops Hop].
    specialize (IH Hops). inversion Hop as [|? ? Hc _]; subst.
    rewrite run_snoc, last_menu_snoc, last_categories_snoc, last_settings_snoc.
    rewrite load_apply_op by exact Hc.
    unfold loadCachedData in IH. injection IH as IHm IHc IHs.
    rewrite IHm, IHc, IHs.
    destruct op as [[|x l]|[|x l]|now [v|]|]; reflexivity. }
  split; [exact Hload|].
  intros Hhas. unfold loadCachedData in Hload. injection Hload as Hm _ _.
  unfold hasCachedData in *. rewrite Hm.
  destruct (last_menu ops) as [m|] eqn:E; [|exact Hhas].
  assert (Hne : m <> []).
  { clear - E. induction ops as [|op ops IH]; cbn in E; [discriminate|].
    destruct (last_menu ops) as [m'|].
    - injection E as <-. now apply IH.
    - destruct op as [[|x l]| | |]; try discriminate E.
      injection E as <-. discriminate. }
  destruct m as [|x m]; [now contradiction Hne|].
  pose proof (cache_all_nonempty Cached c_key x m []) as Hc.
  destruct (cache_all c_key (x :: m) []); [now contradiction Hc|reflexivity].
Qed.

Lemma init_reachable (ls : list InitLabel) :
  let h := init_run ls closed in
  h = closed
  \/ h = mkHandle false (Some Pending) 1
  \/ h = mkHandle true (Some Fulfilled) 1
  \/ h = mkHandle false (Some Failed) 1.
Proof.
  cbn zeta. induction ls as [|l ls IH] using rev_ind; [now left|].
  unfold init_run in *. rewrite fold_left_app. cbn [fold_left].
  destruct IH as [-> | [-> | [-> | ->]]]; destruct l; cbn; auto.
Qed.

Lemma init_failed_stays (later : list InitLabel) :
  init_run later (mkHandle false (Some Failed) 1) = mkHandle false (Some Failed) 1.
Proof.
  induction later as [|l later IH]; [reflexivity|].
  destruct l; exact IH.
Qed.

(** X23: the database is opened at most once, and a failed open is final:
    however calls of [init()] and the events of the open request
    interleave, [indexedDB.open] is called at most once; and once the open
    request has failed, [this.db] stays unset, every later call of [init()]
    returns the rejected promise, and no second open is attempted. *)
Theorem X23_database_opened_once :
  forall (ls : list InitLabel),
    let h := init_run ls closed in
    opens h <= 1
    /\ (initPromise h = Some Failed ->
        forall later,
          init_run later h = h
          /\ opened (init_run later h) = false
          /\ init_result (init_run later h) = Failed).
Proof.
  intros ls. cbn zeta.
  destruct (init_reachable ls) as [-> | [-> | [-> | ->]]];
    unfold closed; cbn [opens initPromise];
    (split; [lia|]); try (intros H; discriminate H).
  intros _ later. rewrite init_failed_stays. repeat split.
Qed.

End OfflineCacheProperties.

(** ** Counter.tsx: the cart *)

Module CounterProperties.
Import Counter.

#[local] Open Scope Z_scope.

Lemma filter_all (A : Type) (f : A -> bool) (l : list A) :
  Forall (fun x => f x = true) l -> filter f l = l.
Proof.
  induction 1 as [|x l Hx Hl IH]; cbn; [reflexivity|].
  now rewrite Hx, IH.
Qed.

Lemma map_ids (f : OrderItem -> OrderItem) (cart : list OrderItem) :
  (forall c, menuItemId (f c) = menuItemId c) ->
  map menuItemId (map f cart) = map menuItemId cart.
Proof.
  intros H. rewrite map_map. apply map_ext. exact H.
Qed.

Lemma updateCartQty_map (mid : string) (delta : Z) (cart : list OrderItem) :
  Forall (fun c => 1 <= qty c) cart ->
  updateCartQty mid delta cart
  = map (fun c => if String.eqb (menuItemId c) mid
                  then if 0 <? qty c + delta then with_qty (qty c + delta) c else c
                  else c) cart.
Proof.
  intros H. unfold updateCartQty. cbn zeta. apply filter_all.
  rewrite Forall_map. eapply Forall_impl; [|exact H].
  intros c Hc. cbn beta in Hc. cbn beta.
  destruct (String.eqb (menuItemId c) mid); [|apply Z.ltb_lt; lia].
  destruct (0 <? qty c + delta) eqn:E; [exact E|apply Z.ltb_lt; lia].
Qed.

Lemma click_ids (c : Click) (cart : list OrderItem) :
  well_formed cart ->
  well_formed (click c cart)
  /\ exists added, map menuItemId (click c cart) = map menuItemId cart ++ added.
Proof.
  intros [Hq Hnd]. destruct c as [rnd item|mid delta]; cbn [click].
  - unfold addToCart.
    destruct (find (fun c => String.eqb (menuItemId c) (m_id item)) cart) eqn:E.
    + assert (Hids : map menuItemId
                       (map (fun c => if String.eqb (menuItemId c) (m_id item)
                                      then with_qty (qty c + 1) c else c) cart)
                     = map menuItemId cart).
      { apply map_ids. intros c. now destruct (String.eqb (menuItemId c) (m_id item)). }
      split; [split|].
      * rewrite Forall_map. eapply Forall_impl; [|exact Hq]. intros c Hc.
        cbn beta in Hc. cbn beta.
        destruct (String.eqb (menuItemId c) (m_id item)); cbn [qty with_qty]; lia.
      * now rewrite Hids.
      * exists []. now rewrite Hids, app_nil_r.
    + split; [split|].
      * apply Forall_app. split; [exact Hq|]. repeat constructor. cbn. lia.
      * rewrite map_app. cbn [map menuItemId].
        assert (Hn : ~ In (m_id item) (map menuItemId cart)).
        { rewrite in_map_iff. intros (c & Hc & Hin).
          apply (find_none _ _ E) in Hin. cbn beta in Hin.
          rewrite Hc, String.eqb_refl in Hin. discriminate Hin. }
        clear - Hnd Hn. induction cart as [|c cart IH]; cbn.
        { constructor; [intros []|constructor]. }
        inversion Hnd as [|? ? Hc Hnd']; subst. constructor.
        { rewrite in_app_iff. intros [H|[H|[]]]; [now apply Hc|].
          apply Hn. left. now symmetry. }
        apply IH; [exact Hnd'|]. intros H. apply Hn. now right.
      * rewrite map_app. eauto.
  - rewrite updateCartQty_map by exact Hq.
    assert (Hids : map menuItemId
                     (map (fun c => if String.eqb (menuItemId c) mid
                                    then if 0 <? qty c + delta
                                         then with_qty (qty c + delta) c else c
                                    else c) cart)
                   = map menuItemId cart).
    { apply map_ids. intros c. destruct (String.eqb (menuItemId c) mid); [|reflexivity].
      now destruct (0 <? qty c + delta). }
    split; [split|].
    + rewrite Forall_map. eapply Forall_impl; [|exact Hq]. intros c Hc.
      cbn beta in Hc. cbn beta.
      destruct (String.eqb (menuItemId c) mid); [|exact Hc].
      destruct (0 <? qty c + delta) eqn:E; [|exact Hc].
      apply Z.ltb_lt in E. cbn [qty with_qty]. lia.
    + now rewrite Hids.
    + exists []. now rewrite Hids, app_nil_r.
Qed.

Lemma clicks_ids (cs : list Click) :
  forall cart,
    well_formed cart ->
    well_formed (clicks cs cart)
    /\ exists added, map menuItemId (clicks cs cart) = map menuItemId cart ++ added.
Proof.
  induction cs as [|c cs IH]; intros cart Hwf.
  - split; [exact Hwf|]. exists []. now rewrite app_nil_r.
  - change (clicks (c :: cs) cart) with (clicks cs (click c cart)).
    destruct (click_ids c cart Hwf) as (Hwf1 & a1 & H1).
    destruct (IH (click c cart) Hwf1) as (Hwf2 & a2 & H2).
    split; [exact Hwf2|]. exists (a1 ++ a2). now rewrite H2, H1, app_assoc.
Qed.

Lemma well_formed_nil : well_formed [].
Proof. split; constructor. Qed.

(** X24: the cart keeps one line per menu item, each with a quantity of at
    least one, whatever is added and whatever quantity changes are applied;
    and no line ever leaves it: the lines of a cart are the first lines of
    any later cart, so the minus button on a line with quantity one changes
    nothing. *)
Theorem X24_cart_lines_stay :
  forall (cs : list Click),
    let cart := clicks cs [] in
    Forall (fun c => 1 <= qty c) cart
    /\ NoDup (map menuItemId cart)
    /\ (forall more, exists added,
          map menuItemId (clicks more cart) = map menuItemId cart ++ added)
    /\ (forall mid,
          (forall c, In c cart -> menuItemId c = mid -> qty c = 1) ->
          updateCartQty mid (-1) cart = cart).
Proof.
  intros cs. cbn zeta.
  destruct (clicks_ids cs [] well_formed_nil) as ([Hq Hnd] & _).
  split; [exact Hq|]. split; [exact Hnd|]. split.
  - intros more. now apply clicks_ids.
  - intros mid Hone. rewrite updateCartQty_map by exact Hq.
    rewrite <- (map_id (clicks cs [])) at 2. apply map_ext_in.
    intros c Hin. destruct (String.eqb_spec (menuItemId c) mid) as [E|E]; [|reflexivity].
    rewrite (Hone c Hin E). reflexivity.
Qed.

Lemma cartCount_from (cart : list OrderItem) :
  forall z, fold_left (fun s c => s + qty c) cart z = z + cartCount cart.
Proof.
  unfold cartCount. induction cart as [|c cart IH]; intros z; cbn; [lia|].
  rewrite IH, (IH (qty c)). lia.
Qed.

Lemma cartCount_cons (c : OrderItem) (cart : list OrderItem) :
  cartCount (c :: cart) = qty c + cartCount cart.
Proof. unfold cartCount at 1. cbn. apply cartCount_from. Qed.

Lemma cartCount_app (a b : list OrderItem) :
  cartCount (a ++ b) = cartCount a + cartCount b.
Proof.
  induction a as [|c a IH]; cbn [app]; [reflexivity|].
  rewrite !cartCount_cons, IH. lia.
Qed.

(** On a cart with one line per item, changing the lines for [mid] changes
    the count by what it does to the one line there is. *)
Lemma cartCount_map (mid : string) (f : OrderItem -> OrderItem) (cart : list OrderItem) :
  NoDup (map menuItemId cart) ->
  cartCount (map (fun c => if String.eqb (menuItemId c) mid then f c else c) cart)
  = cartCount cart
    + match find (fun c => String.eqb (menuItemId c) mid) cart with
      | Some c => qty (f c) - qty c
      | None => 0
      end.
Proof.
  induction cart as [|c cart IH]; intros Hnd; cbn [map find]; [reflexivity|].
  inversion Hnd as [|? ? Hc Hnd']; subst.
  rewrite !cartCount_cons.
  destruct (String.eqb_spec (menuItemId c) mid) as [E|E].
  - assert (Hsame : map (fun c0 => if String.eqb (menuItemId c0) mid then f c0 else c0) cart
                    = cart).
    { rewrite <- (map_id cart) at 2. apply map_ext_in. intros a Ha.
      destruct (String.eqb_spec (menuItemId a) mid) as [Ea|Ea]; [|reflexivity].
      exfalso. apply Hc. rewrite E, <- Ea. now apply in_map. }
    rewrite Hsame. lia.
  - rewrite IH by exact Hnd'. lia.
Qed.

(** X25: the number shown on the cart follows the clicks: on any cart the
    clicks can produce, [addToCart] raises the count by one, whether the
    item is new or already has a line, and [updateCartQty(id, delta)]
    changes it by [delta] when the item has a line whose quantity stays
    positive, and not at all otherwise. *)
Theorem X25_cart_count_follows_clicks :
  forall (cs : list Click),
    let cart := clicks cs [] in
    (forall rnd item, cartCount (addToCart rnd item cart) = cartCount cart + 1)
    /\ (forall mid delta,
          cartCount (updateCartQty mid delta cart)
          = cartCount cart + applied mid delta cart).
Proof.
  intros cs. cbn zeta.
  destruct (clicks_ids cs [] well_formed_nil) as ([Hq Hnd] & _).
  set (cart := clicks cs []) in *. clearbody cart. split.
  - intros rnd item. unfold addToCart.
    destruct (find (fun c => String.eqb (menuItemId c) (m_id item)) cart) as [c|] eqn:E.
    + rewrite (cartCount_map (m_id item) (fun c => with_qty (qty c + 1) c)) by exact Hnd.
      rewrite E. cbn. lia.
    + rewrite cartCount_app, cartCount_cons. cbn. lia.
  - intros mid delta. rewrite updateCartQty_map by exact Hq.
    rewrite (cartCount_map mid
               (fun c => if 0 <? qty c + delta then with_qty (qty c + delta) c else c))
      by exact Hnd.
    unfold applied.
    destruct (find (fun c => String.eqb (menuItemId c) mid) cart) as [c|]; [|reflexivity].
    destruct (0 <? qty c + delta); cbn; lia.
Qed.

End CounterProperties.

(** ** DataProvider.tsx and Counter.tsx: what a synchronisation does to the store *)

Module StoreSyncProperties.
Import AppStore DataProvider DataProviderFacts BackendSync BackendSyncFacts DataProviderLoad.

Lemma finish_frame (ty ty' : NotifType) (v : Fetched ty') (s : State) :
  NotifType_eqb ty' ty = false -> view ty (finish ty' v s) = view ty s.
Proof.
  revert v. destruct ty, ty'; intros v H; try discriminate H; reflexivity.
Qed.

(** X15: a collection of the store changes only when a fetch issued for its
    own notification type completes with a value: over any run of
    notifications and completions in which no such completion occurs, what
    the store holds for the type is what it held before; rejected fetches
    and completions of other types never touch it. *)
Theorem X15_other_notifications_leave_collection :
  forall (ty : NotifType) (ls : list DataProvider.Label) (p : Provider),
    Forall (fun l => refreshes ty l = false) ls ->
    view ty (store (DataProvider.exec ls p)) = view ty (store p).
Proof.
  intros ty ls p Hls. revert p.
  induction Hls as [|l ls Hl Hls IH]; intros p; [reflexivity|].
  change (DataProvider.exec (l :: ls) p)
    with (DataProvider.exec ls (DataProvider.step l p)).
  rewrite IH. destruct l as [ty'|n ty' [v|]]; cbn [DataProvider.step].
  - reflexivity.
  - destruct (is_inflight n ty' p); [|reflexivity].
    cbn [store]. apply finish_frame. exact Hl.
  - now destruct (is_inflight n ty' p).
Qed.

(** Two menu refreshes, a rejected order fetch and a settings refresh leave
    the staff as it was. *)
Lemma X15_other_notifications_leave_collection_witness :
  view STAFF_UPDATE
       (store (DataProvider.exec
                 [Notify MENU_UPDATE; Notify ORDER_UPDATE; Notify SETTINGS_UPDATE;
                  Complete 0 MENU_UPDATE (Some newer_menu);
                  Complete 1 ORDER_UPDATE None;
                  Complete 2 SETTINGS_UPDATE (Some (Some (JObj [])))]
                 (mkProvider a_store [] 0)))
  = [JStr "owner"].
Proof.
  apply (X15_other_notifications_leave_collection STAFF_UPDATE
           [Notify MENU_UPDATE; Notify ORDER_UPDATE; Notify SETTINGS_UPDATE;
            Complete 0 MENU_UPDATE (Some newer_menu);
            Complete 1 ORDER_UPDATE None;
            Complete 2 SETTINGS_UPDATE (Some (Some (JObj [])))]
           (mkProvider a_store [] 0)).
  repeat constructor.
Defined.

(** X16: a call of [connectToBackend] that does not end connected leaves
    the store exactly as it was, even when it has already pushed the local
    menu to the backend, and its last effect is the logged connection
    error; the call ends connected exactly when the backend is healthy,
    every one of the nine fetches resolves and the staff answer is an
    array; and the channel is asked to connect exactly when the backend is
    healthy. *)
Theorem X16_connect_is_all_or_nothing :
  forall (snapshot cur : State) (be : Backend),
    let out := connectToBackend snapshot cur be in
    (connected out = false ->
     state out = cur
     /\ exists done, effects out = done ++ [LogConnectionError])
    /\ (connected out = true <-> answers be)
    /\ (In WsConnect (effects out) <-> health be = Resolved true).
Proof.
  intros snapshot cur be. cbn zeta.
  assert (Hfail : forall done,
             (connected (fail cur done) = false ->
              state (fail cur done) = cur
              /\ exists done0, effects (fail cur done) = done0 ++ [LogConnectionError])).
  { intros done _. split; [reflexivity|]. now exists done. }
  assert (Hno : forall done, connected (fail cur done) = true -> False).
  { intros done H. discriminate H. }
  destruct be as [h m o b c st se e w t k].
  unfold answers, answering, connectToBackend.
  cbn [health r_menuItems r_orders r_bills r_customers r_staff r_settings
       r_expenses r_waiterCalls r_transactions create_ok].
  assert (Hin : forall es, In WsConnect ([WsConnect] ++ es)) by (intros; now left).
  destruct h as [|[|]].
  - split; [apply Hfail|]. split; [split; [intros H; discriminate H|]|].
    + intros (m0 & o0 & b0 & c0 & s0 & se0 & e0 & w0 & t0 & H). discriminate H.
    + cbn. split; [intros [H|[]]; discriminate H|intros H; discriminate H].
  - assert (Hhealth : In WsConnect (effects (fail cur [WsConnect]))
                      <-> Resolved true = Resolved true).
    { split; [reflexivity|]. intros _. now left. }
    destruct m as [|m];
      [split; [apply Hfail|]; split; [|exact Hhealth];
       split; [intros H; discriminate H|];
       intros (m0 & o0 & b0 & c0 & s0 & se0 & e0 & w0 & t0 & H); discriminate H|].
    destruct o as [|o];
      [split; [apply Hfail|]; split; [|exact Hhealth];
       split; [intros H; discriminate H|];
       intros (m0 & o0 & b0 & c0 & s0 & se0 & e0 & w0 & t0 & H); discriminate H|].
    destruct b as [|b];
      [split; [apply Hfail|]; split; [|exact Hhealth];
       split; [intros H; discriminate H|];
       intros (m0 & o0 & b0 & c0 & s0 & se0 & e0 & w0 & t0 & H); discriminate H|].
    destruct c as [|c];
      [split; [apply Hfail|]; split; [|exact Hhealth];
       split; [intros H; discriminate H|];
       intros (m0 & o0 & b0 & c0 & s0 & se0 & e0 & w0 & t0 & H); discriminate H|].
    destruct st as [|st];
      [split; [apply Hfail|]; split; [|exact Hhealth];
       split; [intros H; discriminate H|];
       intros (m0 & o0 & b0 & c0 & s0 & se0 & e0 & w0 & t0 & H); discriminate H|].
    destruct se as [|se];
      [split; [apply Hfail|]; split; [|exact Hhealth];
       split; [intros H; discriminate H|];
       intros (m0 & o0 & b0 & c0 & s0 & se0 & e0 & w0 & t0 & H); discriminate H|].
    destruct e as [|e];
      [split; [apply Hfail|]; split; [|exact Hhealth];
       split; [intros H; discriminate H|];
       intros (m0 & o0 & b0 & c0 & s0 & se0 & e0 & w0 & t0 & H); discriminate H|].
    destruct w as [|w];
      [split; [apply Hfail|]; split; [|exact Hhealth];
       split; [intros H; discriminate H|];
       intros (m0 & o0 & b0 & c0 & s0 & se0 & e0 & w0 & t0 & H); discriminate H|].
    destruct t as [|t];
      [split; [apply Hfail|]; split; [|exact Hhealth];
       split; [intros H; discriminate H|];
       intros (m0 & o0 & b0 & c0 & s0 & se0 & e0 & w0 & t0 & H); discriminate H|].
    destruct (none_or_empty m && (0 <? List.length (menuItems snapshot)));
      destruct st as [staff_l|].
    + split; [intros H; discriminate H|]. split.
      * split; [intros _; now exists m, o, b, c, staff_l, se, e, w, t|reflexivity].
      * split; [reflexivity|]. intros _. rewrite <- app_assoc. apply Hin.
    + split; [apply Hfail|]. split.
      * split; [intros H; discriminate H|].
        intros (m0 & o0 & b0 & c0 & s0 & se0 & e0 & w0 & t0 & H). discriminate H.
      * split; [reflexivity|]. intros _. unfold fail. cbn [effects].
        rewrite <- !app_assoc. apply Hin.
    + split; [intros H; discriminate H|]. split.
      * split; [intros _; now exists m, o, b, c, staff_l, se, e, w, t|reflexivity].
      * split; [reflexivity|]. intros _. now left.
    + split; [apply Hfail|]. split; [|exact Hhealth].
      split; [intros H; discriminate H|].
      intros (m0 & o0 & b0 & c0 & s0 & se0 & e0 & w0 & t0 & H). discriminate H.
  - split; [apply Hfail|]. split; [split; [intros H; discriminate H|]|].
    + intros (m0 & o0 & b0 & c0 & s0 & se0 & e0 & w0 & t0 & H). discriminate H.
    + cbn. split; [intros [H|[]]; discriminate H|intros H; discriminate H].
Qed.

(** X17: the values [connectToBackend] falls back on are those of the
    store its callback closed over, not those of the live store.  When the
    closure is current, a call that ends connected does not empty what the
    device had: a menu that was not empty stays not empty, whether the
    backend's menu is adopted or the local one is kept and pushed, staff
    that was not empty stays so, and settings that were present stay
    present.  When the closure is stale and holds no menu, no staff or no
    settings, a call that ends connected on a backend that has none sets
    the live menu, the live staff or the live settings to empty, whatever
    the live store held. *)
Theorem X17_connect_falls_back_on_its_closure :
  forall (snapshot cur : State) (be : Backend),
    let out := connectToBackend snapshot cur be in
    connected out = true ->
    (snapshot = cur ->
     (menuItems cur <> [] -> menuItems (state out) <> [])
     /\ (staff cur <> [] -> staff (state out) <> [])
     /\ (settings cur <> None -> settings (state out) <> None))
    /\ (menuItems snapshot = [] ->
        r_menuItems be = Resolved None \/ r_menuItems be = Resolved (Some []) ->
        menuItems (state out) = [] /\ pushed (effects out) = [])
    /\ (staff snapshot = [] -> r_staff be = Resolved (Some []) ->
        staff (state out) = [])
    /\ (settings snapshot = None -> r_settings be = Resolved None ->
        settings (state out) = None).
Proof.
  intros snapshot cur be. cbn zeta. unfold connectToBackend.
  destruct (health be) as [|[|]]; try (intros H; discriminate H).
  destruct (r_menuItems be) as [|m]; try (intros H; discriminate H).
  destruct (r_orders be) as [|o]; try (intros H; discriminate H).
  destruct (r_bills be) as [|b]; try (intros H; discriminate H).
  destruct (r_customers be) as [|c]; try (intros H; discriminate H).
  destruct (r_staff be) as [|st]; try (intros H; discriminate H).
  destruct (r_settings be) as [|se]; try (intros H; discriminate H).
  destruct (r_expenses be) as [|e]; try (intros H; discriminate H).
  destruct (r_waiterCalls be) as [|w]; try (intros H; discriminate H).
  destruct (r_transactions be) as [|t]; try (intros H; discriminate H).
  assert (Hstaff : forall staff_l,
             staff snapshot <> [] ->
             (if 0 <? List.length staff_l then staff_l else staff snapshot) <> []).
  { intros [|x l] H; cbn; [exact H|discriminate]. }
  assert (Hset : settings snapshot <> None ->
                 match se with Some v => Some v | None => settings snapshot end <> None).
  { intros H. destruct se; [discriminate|exact H]. }
  destruct (none_or_empty m && (0 <? List.length (menuItems snapshot))) eqn:Hseed;
    destruct st as [staff_l|]; try (intros H; discriminate H); intros _;
    cbn [state effects merge_common setMenuItems menuItems staff settings].
  - split; [|split; [|split]].
    + intros <-. split; [|split; [apply Hstaff|apply Hset]].
      intros Hcur. exact Hcur.
    + intros Hs _. rewrite Hs in Hseed. cbn in Hseed.
      rewrite andb_false_r in Hseed. discriminate Hseed.
    + intros Hs Hr. injection Hr as ->. exact Hs.
    + intros Hs Hr. injection Hr as ->. exact Hs.
  - split; [|split; [|split]].
    + intros <-. split; [|split; [apply Hstaff|apply Hset]].
      intros Hsnap. apply andb_false_iff in Hseed. destruct Hseed as [Hm|Hl].
      * destruct m as [[|x l]|]; cbn in Hm; try discriminate Hm. cbn. discriminate.
      * destruct (menuItems snapshot); [now contradiction Hsnap|discriminate Hl].
    + intros _ [Hr|Hr]; injection Hr as ->; split; reflexivity.
    + intros Hs Hr. injection Hr as ->. exact Hs.
    + intros Hs Hr. injection Hr as ->. exact Hs.
Qed.

(** With a current closure the device of the example keeps its three menu
    items, its staff and its settings on a backend that holds nothing; with
    a closure created when the store was still empty it loses all three. *)
Lemma X17_connect_falls_back_on_its_closure_witness :
  (menuItems (state (connectToBackend local_store local_store fresh_backend)) <> []
   /\ staff (state (connectToBackend local_store local_store fresh_backend)) <> []
   /\ settings (state (connectToBackend local_store local_store fresh_backend)) <> None)
  /\ (menuItems (state (connectToBackend empty_store local_store fresh_backend)) = []
      /\ staff (state (connectToBackend empty_store local_store fresh_backend)) = []
      /\ settings (state (connectToBackend empty_store local_store fresh_backend)) = None).
Proof.
  split.
  - destruct (X17_connect_falls_back_on_its_closure local_store local_store
                fresh_backend eq_refl) as (Hfresh & _).
    destruct (Hfresh eq_refl) as (Hm & Hs & Hse).
    split; [apply Hm; discriminate|]. split; [apply Hs|apply Hse]; discriminate.
  - destruct (X17_connect_falls_back_on_its_closure empty_store local_store
                fresh_backend eq_refl) as (_ & Hm & Hs & Hse).
    split; [apply Hm; [reflexivity|now right]|].
    split; [apply Hs|apply Hse]; reflexivity.
Defined.

(** X18: [loadDataFromBackend] touches the store and the channel only when
    the health check answers [true]: otherwise the store is unchanged, the
    error is set, and neither [setDataLoaded(true)] nor [wsSync.connect()]
    is called.  When it does answer [true] the load cannot fail: whatever
    fetches reject, no error is set, and the store afterwards is determined
    by the backend alone, with nothing of the previous store left in any of
    the nine collections. *)
Theorem X18_load_replaces_whole_store :
  forall (cur : State) (be : Backend),
    let out := loadDataFromBackend cur be in
    (health be <> Resolved true ->
     l_state out = cur /\ l_error out <> None
     /\ l_dataLoaded out = false /\ l_wsConnect out = false)
    /\ (health be = Resolved true ->
        l_error out = None /\ l_dataLoaded out = true /\ l_wsConnect out = true
        /\ forall cur', l_state (loadDataFromBackend cur' be) = l_state out).
Proof.
  intros cur be. cbn zeta. unfold loadDataFromBackend.
  destruct (health be) as [|[|]].
  - split; [intros _; repeat split; discriminate|intros H; discriminate H].
  - split; [intros H; now contradiction H|]. intros _. repeat split.
  - split; [intros _; repeat split; discriminate|intros H; discriminate H].
Qed.

(** X19: on a backend that answers every fetch with an array, with a menu
    and a staff list that are not empty and with settings, the two entry
    points agree on the nine collections of the store: [connectToBackend]
    and [loadDataFromBackend] leave the same menu, orders, bills,
    customers, staff, settings, expenses, waiter calls and transactions,
    whatever the store held before and whatever store the callback closed
    over.  Beyond the collections they differ: the load also calls
    [store.setDataLoaded(true)]. *)
Theorem X19_connect_and_load_agree :
  forall (snapshot cur : State) (m o b c staff_l e w t : list json) (se : json)
         (k : json -> bool),
    m <> [] -> staff_l <> [] ->
    let be := answering (Some m) (Some o) (Some b) (Some c) staff_l (Some se)
                        (Some e) (Some w) (Some t) k in
    state (connectToBackend snapshot cur be) = l_state (loadDataFromBackend cur be)
    /\ l_state (loadDataFromBackend cur be)
       = mkStore m o b c staff_l (Some se) e w t
    /\ connected (connectToBackend snapshot cur be) = true
    /\ l_error (loadDataFromBackend cur be) = None
    /\ l_dataLoaded (loadDataFromBackend cur be) = true.
Proof.
  intros snapshot cur m o b c staff_l e w t se k Hm Hs. cbn zeta.
  unfold connectToBackend, loadDataFromBackend, answering.
  cbn [health r_menuItems r_orders r_bills r_customers r_staff r_settings
       r_expenses r_waiterCalls r_transactions create_ok].
  destruct m as [|x m]; [now contradiction Hm|].
  destruct staff_l as [|y staff_l]; [now contradiction Hs|].
  cbn. auto.
Qed.

Lemma X19_connect_and_load_agree_witness :
  let be := answering (Some newer_menu) (Some []) (Some []) (Some []) [JStr "owner"]
                      (Some (JObj [])) (Some []) (Some []) (Some []) (fun _ => true) in
  state (connectToBackend empty_store local_store be)
  = l_state (loadDataFromBackend local_store be)
  /\ l_state (loadDataFromBackend local_store be)
     = mkStore newer_menu [] [] [] [JStr "owner"] (Some (JObj [])) [] [] []
  /\ connected (connectToBackend empty_store local_store be) = true
  /\ l_error (loadDataFromBackend local_store be) = None
  /\ l_dataLoaded (loadDataFromBackend local_store be) = true.
Proof.
  apply (X19_connect_and_load_agree empty_store local_store newer_menu [] [] []
           [JStr "owner"] [] [] [] (JObj []) (fun _ => true));
    discriminate.
Defined.

(** X20: where the two entry points part: when the backend is healthy and
    any one of the nine fetches rejects, [connectToBackend] leaves the whole
    store as it was and does not end connected, while
    [loadDataFromBackend] goes on without an error and empties every
    collection whose fetch rejected; rejected settings become [null]. *)
Theorem X20_rejected_fetch_empties_on_load :
  forall (snapshot cur : State) (be : Backend),
    health be = Resolved true ->
    let out := connectToBackend snapshot cur be in
    let loaded := loadDataFromBackend cur be in
    l_error loaded = None
    /\ l_dataLoaded loaded = true
    /\ (r_menuItems be = Rejected \/ r_orders be = Rejected \/ r_bills be = Rejected
        \/ r_customers be = Rejected \/ r_staff be = Rejected
        \/ r_settings be = Rejected \/ r_expenses be = Rejected
        \/ r_waiterCalls be = Rejected \/ r_transactions be = Rejected ->
        state out = cur /\ connected out = false)
    /\ (r_menuItems be = Rejected -> menuItems (l_state loaded) = [])
    /\ (r_orders be = Rejected -> orders (l_state loaded) = [])
    /\ (r_bills be = Rejected -> bills (l_state loaded) = [])
    /\ (r_customers be = Rejected -> customers (l_state loaded) = [])
    /\ (r_staff be = Rejected -> staff (l_state loaded) = [])
    /\ (r_settings be = Rejected -> settings (l_state loaded) = None)
    /\ (r_expenses be = Rejected -> expenses (l_state loaded) = [])
    /\ (r_waiterCalls be = Rejected -> waiterCalls (l_state loaded) = [])
    /\ (r_transactions be = Rejected -> transactions (l_state loaded) = []).
Proof.
  intros snapshot cur be Hh. cbn zeta.
  split; [unfold loadDataFromBackend; now rewrite Hh|].
  split; [unfold loadDataFromBackend; now rewrite Hh|].
  split.
  - intros H. unfold connectToBackend. rewrite Hh.
    destruct (r_menuItems be); [split; reflexivity|].
    destruct (r_orders be); [split; reflexivity|].
    destruct (r_bills be); [split; reflexivity|].
    destruct (r_customers be); [split; reflexivity|].
    destruct (r_staff be); [split; reflexivity|].
    destruct (r_settings be); [split; reflexivity|].
    destruct (r_expenses be); [split; reflexivity|].
    destruct (r_waiterCalls be); [split; reflexivity|].
    destruct (r_transactions be); [split; reflexivity|].
    exfalso. repeat (destruct H as [H|H]; [discriminate H|]). discriminate H.
  - unfold loadDataFromBackend. rewrite Hh.
    cbn [l_state setMenuItems setOrders setBills setCustomers setStaff setSettings
         setExpenses setWaiterCalls setTransactions menuItems orders bills
         customers staff settings expenses waiterCalls transactions].
    repeat split; intros ->; reflexivity.
Qed.

(** The orders of the example backend cannot be fetched: the reconnection
    leaves the store alone, the load empties the orders. *)
Lemma X20_rejected_fetch_empties_on_load_witness :
  state (connectToBackend local_store local_store orders_unavailable) = local_store
  /\ connected (connectToBackend local_store local_store orders_unavailable) = false
  /\ orders local_store <> []
  /\ orders (l_state (loadDataFromBackend local_store orders_unavailable)) = []
  /\ l_error (loadDataFromBackend local_store orders_unavailable) = None.
Proof.
  destruct (X20_rejected_fetch_empties_on_load local_store local_store
              orders_unavailable eq_refl)
    as (He & _ & Hc & _ & Ho & _).
  destruct Hc as [Hs Hn]; [right; left; reflexivity|].
  split; [exact Hs|]. split; [exact Hn|]. split; [discriminate|].
  split; [apply Ho; reflexivity|exact He].
Defined.

End StoreSyncProperties.
